(** * vscode-languageserver-node: message reader and semantic tokens

    A shallow embedding of

    - the message reader of [jsonrpc/src/common/common.ts] (the part after
      the exports): [AbstractMessageReader],
      [ResolvedMessageReaderOptions.fromOptions] and
      [ReadableStreamMessageReader];
    - [server/src/common/semanticTokens.ts]: [SemanticTokensDiff] and
      [SemanticTokensBuilder].

    The numbers of the two files are integers (byte counts, token
    positions, milliseconds) and are integers of [Z] here; what the
    doubles of JavaScript do to them is written out where the code
    computes with them. Byte arrays are [list byte]; a [Map] keyed by
    strings is a [gmap string _]. The reader is a state machine: its
    fields, the timers of the host, the promises that are not settled yet
    and what its listeners observe are passed along explicitly, and a run
    is a list of inputs (chunks of bytes, milliseconds that pass, promises
    that settle, calls of the owner).

    The definitions come first: the code, then the wire format and the
    observations the theorems are stated with. The theorems follow: those
    on the claims of the specification, then further properties of the
    same code. *)

From Stdlib Require Import ZArith Lia List String Ascii.
From Stdlib.Strings Require Import Byte.
From stdpp Require Import gmap strings list.

#[local] Open Scope Z_scope.

(** ** JavaScript arrays *)

Module JsArray.

Section Ops.
Context {A : Type}.

  (** [a[i]]: [undefined] (here [None]) outside the array. *)
Definition get (a : list A) (i : Z) : option A :=
    if bool_decide (0 ≤ i) then a !! Z.to_nat i else None.

  (** A relative index of [slice] and [splice]: negative counts from the
      end, and the result is clamped to [0 .. len]. *)
Definition relative (len k : Z) : Z :=
    if bool_decide (k < 0) then Z.max (len + k) 0 else Z.min k len.

  (** [a.slice(from, to)]. *)
Definition slice (a : list A) (from to : Z) : list A :=
    let len := Z.of_nat (length a) in
    let k := relative len from in
    let final := relative len to in
    take (Z.to_nat (final - k)) (drop (Z.to_nat k) a).

  (** [a.slice(from)]. *)
Definition slice_from (a : list A) (from : Z) : list A :=
    slice a from (Z.of_nat (length a)).

  (** [a.splice(from, deleteCount, ...items)], the array afterwards. *)
Definition splice (a : list A) (from deleteCount : Z) (items : list A) : list A :=
    let len := Z.of_nat (length a) in
    let k := relative len from in
    let del := Z.min (Z.max deleteCount 0) (len - k) in
    take (Z.to_nat k) a ++ items ++ drop (Z.to_nat (k + del)) a.

  (** [a[i] = v] on an array that may have holes: inside the array the slot
      is overwritten, at or past its end the array grows up to [i] and the
      slots in between are holes. *)
Definition store (a : list (option A)) (i : nat) (v : A) : list (option A) :=
    if bool_decide (i < length a)%nat then <[i := Some v]> a
    else a ++ replicate (i - length a) None ++ [Some v].

End Ops.

End JsArray.

(** ** JavaScript numbers *)

Module JsNumber.

(** An integer as a JavaScript number, which is an IEEE double. Every integer
    of magnitude up to 2^53 is a double. Beyond, the doubles are a power of
    two apart (the mantissa has 53 bits), and an integer is rounded to the
    nearest of them, to the one with the even mantissa when two are as
    near. Integers beyond the largest double, about 1.8e308, are outside
    the model. *)
Definition to_double (x : Z) : Z :=
  let a := Z.abs x in
  if bool_decide (a ≤ 2 ^ 53) then x
  else
    let ulp := 2 ^ (Z.log2 a - 52) in
    let mantissa := a / ulp in
    let rest := a mod ulp in
    let rounded :=
      if bool_decide (2 * rest < ulp) then mantissa
      else if bool_decide (ulp < 2 * rest) then mantissa + 1
      else if Z.even mantissa then mantissa
      else mantissa + 1 in
    Z.sgn x * (rounded * ulp).

(** [a - b] on two numbers that are integers: the difference, rounded. *)
Definition sub (a b : Z) : Z := to_double (a - b).

(** [Number.MAX_SAFE_INTEGER]. *)
Definition MAX_SAFE_INTEGER : Z := 2 ^ 53 - 1.

End JsNumber.

(** ** Semantic tokens (server/src/common/semanticTokens.ts) *)

Module SemanticTokens.

(** [SemanticTokensEdit] of the protocol: [data] is optional. *)
Record SemanticTokensEdit (A : Type) : Type := mkEdit {
  start : Z;
  deleteCount : Z;
  data : option (list A)
}.
Arguments mkEdit {A}.
Arguments start {A}.
Arguments deleteCount {A}.
Arguments data {A}.

Section Diff.
Context {A : Type} `{EqDecision A}.

  (** The first loop of [computeDiff]: advance [startIndex] while both
      sequences have an element there and the elements are [===]. The loop
      body runs at most once per element of the original sequence, which is
      the fuel [computeDiff] gives it. *)
Fixpoint scanStart (fuel : nat) (originalSequence modifiedSequence : list A)
      (startIndex : Z) : Z :=
    match fuel with
    | O => startIndex
    | S fuel' =>
        if bool_decide (startIndex < Z.of_nat (length modifiedSequence))
           && bool_decide (startIndex < Z.of_nat (length originalSequence))
           && bool_decide (JsArray.get originalSequence startIndex
                           = JsArray.get modifiedSequence startIndex)
        then scanStart fuel' originalSequence modifiedSequence (startIndex + 1)
        else startIndex
    end.

  (** The second loop: count equal elements from the back. *)
Fixpoint scanEnd (fuel : nat) (originalSequence modifiedSequence : list A)
      (endIndex : Z) : Z :=
    let originalLength := Z.of_nat (length originalSequence) in
    let modifiedLength := Z.of_nat (length modifiedSequence) in
    match fuel with
    | O => endIndex
    | S fuel' =>
        if bool_decide (endIndex < modifiedLength)
           && bool_decide (endIndex < originalLength)
           && bool_decide (JsArray.get originalSequence (originalLength - 1 - endIndex)
                           = JsArray.get modifiedSequence (modifiedLength - 1 - endIndex))
        then scanEnd fuel' originalSequence modifiedSequence (endIndex + 1)
        else endIndex
    end.

Definition computeDiff (originalSequence modifiedSequence : list A)
      : list (SemanticTokensEdit A) :=
    let originalLength := Z.of_nat (length originalSequence) in
    let modifiedLength := Z.of_nat (length modifiedSequence) in
    let startIndex :=
      scanStart (length originalSequence) originalSequence modifiedSequence 0 in
    if bool_decide (startIndex < modifiedLength)
       && bool_decide (startIndex < originalLength) then
      let endIndex :=
        scanEnd (length originalSequence) originalSequence modifiedSequence 0 in
      let endIndex := endIndex - 1 in
      let newData :=
        JsArray.slice modifiedSequence startIndex (modifiedLength - endIndex) in
      [ mkEdit startIndex (originalLength - endIndex - startIndex) (Some newData) ]
    else if bool_decide (startIndex < modifiedLength) then
      [ mkEdit startIndex 0 (Some (JsArray.slice_from modifiedSequence startIndex)) ]
    else if bool_decide (startIndex < originalLength) then
      [ mkEdit startIndex (originalLength - startIndex) None ]
    else [].

  (** What a receiver does with an edit: the [deleteCount] elements from
      [start] on are replaced by [data], or removed when there is no
      [data]. *)
Definition applyEdit (sequence : list A) (edit : SemanticTokensEdit A) : list A :=
    JsArray.splice sequence (start edit) (deleteCount edit) (default [] (data edit)).

Definition applyEdits (sequence : list A) (edits : list (SemanticTokensEdit A)) : list A :=
    foldl applyEdit sequence edits.

End Diff.

(** [SemanticTokensBuilder]. [_id] is [Date.now()] at the last
    [initialize]; the clock is an argument. *)
Record SemanticTokensBuilder : Type := mkBuilder {
  _id : Z;
  _prevLine : Z;
  _prevChar : Z;
  _data : list (option Z);
  _dataLen : nat;
  _prevData : option (list (option Z))
}.

Definition initialize (now : Z) (b : SemanticTokensBuilder) : SemanticTokensBuilder :=
  {| _id := now; _prevLine := 0; _prevChar := 0; _data := []; _dataLen := 0;
     _prevData := _prevData b |}.

Definition new_builder (now : Z) : SemanticTokensBuilder :=
  initialize now
    {| _id := 0; _prevLine := 0; _prevChar := 0; _data := []; _dataLen := 0;
       _prevData := None |}.

(** [this._data[this._dataLen++] = v]. *)
Definition append_slot (v : Z) (b : SemanticTokensBuilder) : SemanticTokensBuilder :=
  {| _id := _id b; _prevLine := _prevLine b; _prevChar := _prevChar b;
     _data := JsArray.store (_data b) (_dataLen b) v;
     _dataLen := S (_dataLen b);
     _prevData := _prevData b |}.

Definition push (line char length tokenType tokenModifiers : Z)
    (b : SemanticTokensBuilder) : SemanticTokensBuilder :=
  let pushLine := line in
  let pushChar := char in
  let '(pushLine, pushChar) :=
    if bool_decide (0 < _dataLen b)%nat then
      let pushLine := JsNumber.sub pushLine (_prevLine b) in
      if bool_decide (pushLine = 0)
      then (pushLine, JsNumber.sub pushChar (_prevChar b))
      else (pushLine, pushChar)
    else (pushLine, pushChar) in
  let b := append_slot pushLine b in
  let b := append_slot pushChar b in
  let b := append_slot length b in
  let b := append_slot tokenType b in
  let b := append_slot tokenModifiers b in
  {| _id := _id b; _prevLine := line; _prevChar := char;
     _data := _data b; _dataLen := _dataLen b; _prevData := _prevData b |}.

Definition id (b : SemanticTokensBuilder) : Z := _id b.

Definition previousResult (now : Z) (id' : Z) (b : SemanticTokensBuilder)
    : SemanticTokensBuilder :=
  let b :=
    if bool_decide (id b = id') then
      {| _id := _id b; _prevLine := _prevLine b; _prevChar := _prevChar b;
         _data := _data b; _dataLen := _dataLen b; _prevData := Some (_data b) |}
    else b in
  initialize now b.

(** [SemanticTokens]: the result id and the data array. *)
Record SemanticTokens : Type := mkTokens {
  resultId : Z;
  tokens_data : list (option Z)
}.

Definition build (b : SemanticTokensBuilder) : SemanticTokensBuilder * SemanticTokens :=
  ({| _id := _id b; _prevLine := _prevLine b; _prevChar := _prevChar b;
      _data := _data b; _dataLen := _dataLen b; _prevData := None |},
   {| resultId := id b; tokens_data := _data b |}).

(** The result of [buildEdits]: a delta against the previous result, or the
    full tokens. *)
Inductive BuildEditsResult : Type :=
| Delta (resultId : Z) (edits : list (SemanticTokensEdit (option Z)))
| Full (tokens : SemanticTokens).

Definition buildEdits (b : SemanticTokensBuilder) : SemanticTokensBuilder * BuildEditsResult :=
  match _prevData b with
  | Some prevData => (b, Delta (id b) (computeDiff prevData (_data b)))
  | None => let '(b', tokens) := build b in (b', Full tokens)
  end.

Definition canBuildEdits (b : SemanticTokensBuilder) : bool :=
  bool_decide (_prevData b ≠ None).

(** A pushed token, as the arguments of one [push]. *)
Record Token : Type := mkToken {
  tk_line : Z; tk_char : Z; tk_length : Z; tk_type : Z; tk_modifiers : Z
}.

Definition pushToken (b : SemanticTokensBuilder) (t : Token) : SemanticTokensBuilder :=
  push (tk_line t) (tk_char t) (tk_length t) (tk_type t) (tk_modifiers t) b.

End SemanticTokens.

(** ** Bytes and strings *)

Module Bytes.

#[global] Instance byte_eq_dec : EqDecision byte := Byte.byte_eq_dec.

Definition CR : byte := x0d.
Definition LF : byte := x0a.
Definition CRLF : list byte := [CR; LF].

(** [l] begins with [p]. *)
Fixpoint starts_with (p l : list byte) : bool :=
  match p, l with
  | [], _ => true
  | a :: p', b :: l' => bool_decide (a = b) && starts_with p' l'
  | _ :: _, [] => false
  end.

(** Split at the first occurrence of [sep]: what is before it and what is
    after it. *)
Fixpoint split_at (sep l : list byte) : option (list byte * list byte) :=
  if starts_with sep l then Some ([], drop (length sep) l)
  else match l with
       | [] => None
       | b :: l' =>
           match split_at sep l' with
           | Some (before, after) => Some (b :: before, after)
           | None => None
           end
       end.

(** The lines of a text, separated by CRLF. [skip] is set on the LF of a
    separator. *)
Fixpoint split_lines (skip : bool) (l : list byte) : list (list byte) :=
  match l with
  | [] => [[]]
  | b :: l' =>
      if skip then split_lines false l'
      else if starts_with CRLF l then [] :: split_lines true l'
      else match split_lines false l' with
           | line :: more => (b :: line) :: more
           | [] => [[b]]
           end
  end.

(** White space of [String.prototype.trim] and of [parseInt] among the
    ASCII characters: TAB, LF, VT, FF, CR and space. *)
Definition is_space (b : byte) : bool :=
  match b with
  | x09 | x0a | x0b | x0c | x0d | x20 => true
  | _ => false
  end.

Fixpoint trim_start (l : list byte) : list byte :=
  match l with
  | b :: l' => if is_space b then trim_start l' else l
  | [] => []
  end.

Definition trim (l : list byte) : list byte :=
  rev (trim_start (rev (trim_start l))).

(** The value of a digit in radix up to 16. *)
Definition digit_value (b : byte) : option Z :=
  match b with
  | x30 => Some 0 | x31 => Some 1 | x32 => Some 2 | x33 => Some 3 | x34 => Some 4
  | x35 => Some 5 | x36 => Some 6 | x37 => Some 7 | x38 => Some 8 | x39 => Some 9
  | x61 | x41 => Some 10 | x62 | x42 => Some 11 | x63 | x43 => Some 12
  | x64 | x44 => Some 13 | x65 | x45 => Some 14 | x66 | x46 => Some 15
  | _ => None
  end.

(** The longest prefix of digits of the radix, read from the left; [acc] is
    [None] until the first digit. *)
Fixpoint scan_digits (radix : Z) (l : list byte) (acc : option Z) : option Z :=
  match l with
  | [] => acc
  | b :: l' =>
      match digit_value b with
      | Some d =>
          if bool_decide (d < radix)
          then scan_digits radix l' (Some (default 0 acc * radix + d))
          else acc
      | None => acc
      end
  end.

(** [parseInt(s)] without a radix: leading white space, a sign, a [0x] or
    [0X] prefix for radix 16, then the longest prefix of digits; [None] is
    [NaN]. The result is a double: the number the digits spell, rounded.
    (An engine may read the decimal digits after the twentieth as zeros;
    here they count. A number beyond the range of the doubles is
    [Infinity] there, and here a number that no buffer reaches.) *)
Definition parseInt (s : string) : option Z :=
  let l := trim_start (list_byte_of_string s) in
  let '(sign, l) :=
    match l with
    | b :: l' =>
        if bool_decide (b = x2d) then (-1, l')
        else if bool_decide (b = x2b) then (1, l')
        else (1, l)
    | [] => (1, l)
    end in
  let '(radix, l) :=
    if starts_with [x30; x78] l || starts_with [x30; x58] l
    then (16, drop 2 l) else (10, l) in
  match scan_digits radix l None with
  | Some n => Some (JsNumber.to_double (sign * n))
  | None => None
  end.

(** The decimal digits of a number, as the writer prints a byte count. *)
Definition digit_byte (d : Z) : byte :=
  match d with
  | 0 => x30 | 1 => x31 | 2 => x32 | 3 => x33 | 4 => x34
  | 5 => x35 | 6 => x36 | 7 => x37 | 8 => x38 | _ => x39
  end.

Fixpoint decimal_aux (fuel : nat) (n : Z) (acc : list byte) : list byte :=
  match fuel with
  | O => acc
  | S fuel' =>
      let acc' := digit_byte (n mod 10) :: acc in
      if bool_decide (n < 10) then acc' else decimal_aux fuel' (n / 10) acc'
  end.

Definition decimal (n : nat) : list byte :=
  decimal_aux (S n) (Z.of_nat n) [].

End Bytes.

(** ** The message reader (jsonrpc/src/common/common.ts) *)

Module MessageReader.
Import Bytes.

(** A value given to [fireError] or a rejection reason: an [Error] with
    its message, or another object, whose [message] may be a string. *)
Inductive JsValue : Type :=
| JsError (message : string)
| JsObject (message : option string).

(** How a promise settles. *)
Inductive Settled (A : Type) : Type :=
| Resolved (value : A)
| Rejected (reason : JsValue).
Arguments Resolved {A}.
Arguments Rejected {A}.

(** How a call of a decoder's [decode] ends: it throws, or it returns a
    promise. The promise is settled when [decode] returns ([at_once], as
    with [Promise.resolve] or an [async] function that awaits nothing), or
    it settles later, at a time the decoder chooses. *)
Inductive Decode (A : Type) : Type :=
| Returns (at_once : bool) (outcome : Settled A)
| Throws (error : JsValue).
Arguments Returns {A}.
Arguments Throws {A}.

(** Modelled from the spec: the [Emitter] of events.ts, which is not among
    the sources. It is a publish-subscribe channel owned by the reader and
    torn down on disposal: a disposed channel delivers nothing. [fire] gives
    what a subscriber of the channel receives. *)
Record Emitter : Type := mkEmitter { disposed : bool }.

Definition emitter_new : Emitter := {| disposed := false |}.
Definition emitter_dispose (e : Emitter) : Emitter := {| disposed := true |}.
Definition emitter_fire {E : Type} (e : Emitter) (event : E) : list E :=
  if disposed e then [] else [event].

(** Modelled from the spec: the [MessageBuffer] of the runtime layer, which
    is not among the sources. The header block is ASCII lines [Name: Value],
    each ended by CRLF, and is terminated by an empty line; reading it fails
    silently while the block is incomplete. A line without a colon names no
    header. *)
Definition parse_header (line : list byte) : option (string * string) :=
  match split_at [x3a] line with
  | Some (name, value) =>
      Some (string_of_list_byte name, string_of_list_byte (trim value))
  | None => None
  end.

Definition add_header (headers : gmap string string) (line : list byte)
    : gmap string string :=
  match parse_header line with
  | Some (name, value) => <[name := value]> headers
  | None => headers
  end.

Definition tryReadHeaders (buffer : list byte)
    : option (gmap string string * list byte) :=
  match split_at (CRLF ++ CRLF) buffer with
  | Some (block, rest) => Some (foldl add_header ∅ (split_lines false block), rest)
  | None => None
  end.

(** Modelled from the spec: reading [length] bytes of body fails silently
    while the buffer holds fewer. *)
Definition tryReadBody (buffer : list byte) (length : Z)
    : option (list byte * list byte) :=
  if bool_decide (Z.of_nat (List.length buffer) < length) then None
  else Some (take (Z.to_nat length) buffer, drop (Z.to_nat length) buffer).

(** What the listener of the reader observes: the [listen] callback and the
    three events. An error event carries the message of its [Error]. *)
Inductive Output (Message : Type) : Type :=
| Callback (msg : Message)
| OnError (message : string)
| OnClose
| OnPartialMessage (messageToken waitingTime : Z).
Arguments Callback {Message}.
Arguments OnError {Message}.
Arguments OnClose {Message}.
Arguments OnPartialMessage {Message}.

(** The timers of the host: [setTimeout] and [clearTimeout]. The only
    callback the reader schedules is the one of [setPartialMessageTimer],
    so a pending timer is its handle, its due time and the two arguments
    [token] and [timeout] given to the callback. *)
Record Timer : Type := mkTimer {
  timer_handle : nat;
  timer_due : Z;
  timer_token : Z;
  timer_timeout : Z
}.

Record Host : Type := mkHost {
  clock : Z;
  timers : list Timer;
  next_handle : nat
}.

Definition host_new : Host := {| clock := 0; timers := []; next_handle := 0 |}.

(** The delay of a timer is a signed 32-bit number of milliseconds, at
    least 1: [setTimeout] sets a delay outside of this range to 1. *)
Definition TIMEOUT_MAX : Z := 2 ^ 31 - 1.

Definition timer_delay (delay : Z) : Z :=
  if bool_decide (1 ≤ delay ≤ TIMEOUT_MAX) then delay else 1.

Definition setTimeout (h : Host) (delay token timeout : Z) : Host * nat :=
  ({| clock := clock h;
      timers := timers h
                ++ [mkTimer (next_handle h) (clock h + timer_delay delay) token timeout];
      next_handle := S (next_handle h) |},
   next_handle h).

Definition clearTimeout (h : Host) (handle : nat) : Host :=
  {| clock := clock h;
     timers := filter (λ t, timer_handle t ≠ handle) (timers h);
     next_handle := next_handle h |}.

Section Reader.
Context {Message : Type}.

Record ContentDecoder : Type := mkContentDecoder {
  cd_name : string;
  cd_decode : list byte → Decode (list byte)
}.

(** [decode(buffer, options)]: of the options a decoder gets the charset. *)
Record ContentTypeDecoder : Type := mkContentTypeDecoder {
  ctd_name : string;
  ctd_decode : list byte → string → Decode Message
}.

Record MessageReaderOptions : Type := mkOptions {
  opt_charset : option string;
  opt_contentDecoder : option ContentDecoder;
  opt_contentDecoders : option (list ContentDecoder);
  opt_contentTypeDecoder : option ContentTypeDecoder;
  opt_contentTypeDecoders : option (list ContentTypeDecoder)
}.

(** The argument [options?: RAL.MessageBufferEncoding | MessageReaderOptions]. *)
Inductive OptionsArg : Type :=
| NoOptions
| Encoding (charset : string)
| Options (options : MessageReaderOptions).

Record ResolvedMessageReaderOptions : Type := mkResolved {
  charset : string;
  contentDecoder : option ContentDecoder;
  contentDecoders : gmap string ContentDecoder;
  contentTypeDecoder : ContentTypeDecoder;
  contentTypeDecoders : gmap string ContentTypeDecoder
}.

(** [RAL().applicationJson.decoder], of the runtime layer. *)
Context (applicationJson_decoder : ContentTypeDecoder).

Definition fromOptions (options : OptionsArg) : ResolvedMessageReaderOptions :=
  let '(charset, contentDecoder, contentDecoders, contentTypeDecoder, contentTypeDecoders) :=
    match options with
    | NoOptions => ("utf-8"%string, None, ∅, None, ∅)
    | Encoding charset => (charset, None, ∅, None, ∅)
    | Options options =>
        let charset := default "utf-8"%string (opt_charset options) in
        let '(contentDecoder, contentDecoders) :=
          match opt_contentDecoder options with
          | Some d => (Some d, <[cd_name d := d]> ∅)
          | None => (None, ∅)
          end in
        let contentDecoders :=
          match opt_contentDecoders options with
          | Some ds => foldl (λ m d, <[cd_name d := d]> m) contentDecoders ds
          | None => contentDecoders
          end in
        let '(contentTypeDecoder, contentTypeDecoders) :=
          match opt_contentTypeDecoder options with
          | Some d => (Some d, <[ctd_name d := d]> ∅)
          | None => (None, ∅)
          end in
        let contentTypeDecoders :=
          match opt_contentTypeDecoders options with
          | Some ds => foldl (λ m d, <[ctd_name d := d]> m) contentTypeDecoders ds
          | None => contentTypeDecoders
          end in
        (charset, contentDecoder, contentDecoders, contentTypeDecoder, contentTypeDecoders)
    end in
  let '(contentTypeDecoder, contentTypeDecoders) :=
    match contentTypeDecoder with
    | Some d => (d, contentTypeDecoders)
    | None =>
        (applicationJson_decoder,
         <[ctd_name applicationJson_decoder := applicationJson_decoder]> contentTypeDecoders)
    end in
  {| charset := charset; contentDecoder := contentDecoder;
     contentDecoders := contentDecoders; contentTypeDecoder := contentTypeDecoder;
     contentTypeDecoders := contentTypeDecoders |}.

(** The fields of [AbstractMessageReader] and of
    [ReadableStreamMessageReader]. The stream [readable] and the function
    [callback] are outside: the stream's events are the inputs of a run,
    and a call of the callback is an output. *)
Record ReadableStreamMessageReader : Type := mkReader {
  errorEmitter : Emitter;
  closeEmitter : Emitter;
  partialMessageEmitter : Emitter;
  options : ResolvedMessageReaderOptions;
  nextMessageLength : Z;
  messageToken : Z;
  buffer : list byte;
  partialMessageTimer : option nat;
  _partialMessageTimeout : Z
}.

Definition set_emitters (errorE closeE : Emitter) (r : ReadableStreamMessageReader) :=
  mkReader errorE closeE (partialMessageEmitter r) (options r) (nextMessageLength r)
    (messageToken r) (buffer r) (partialMessageTimer r) (_partialMessageTimeout r).

Definition set_nextMessageLength (n : Z) (r : ReadableStreamMessageReader) :=
  mkReader (errorEmitter r) (closeEmitter r) (partialMessageEmitter r) (options r) n
    (messageToken r) (buffer r) (partialMessageTimer r) (_partialMessageTimeout r).

Definition set_messageToken (n : Z) (r : ReadableStreamMessageReader) :=
  mkReader (errorEmitter r) (closeEmitter r) (partialMessageEmitter r) (options r)
    (nextMessageLength r) n (buffer r) (partialMessageTimer r) (_partialMessageTimeout r).

Definition set_buffer (b : list byte) (r : ReadableStreamMessageReader) :=
  mkReader (errorEmitter r) (closeEmitter r) (partialMessageEmitter r) (options r)
    (nextMessageLength r) (messageToken r) b (partialMessageTimer r)
    (_partialMessageTimeout r).

Definition set_partialMessageTimer (t : option nat) (r : ReadableStreamMessageReader) :=
  mkReader (errorEmitter r) (closeEmitter r) (partialMessageEmitter r) (options r)
    (nextMessageLength r) (messageToken r) (buffer r) t (_partialMessageTimeout r).

(** The setter [partialMessageTimeout]. *)
Definition set_partialMessageTimeout (timeout : Z) (r : ReadableStreamMessageReader) :=
  mkReader (errorEmitter r) (closeEmitter r) (partialMessageEmitter r) (options r)
    (nextMessageLength r) (messageToken r) (buffer r) (partialMessageTimer r) timeout.

(** The getter. *)
Definition partialMessageTimeout (r : ReadableStreamMessageReader) : Z :=
  _partialMessageTimeout r.

(** The constructors of the two classes. *)
Definition new_reader (options : OptionsArg) : ReadableStreamMessageReader :=
  {| errorEmitter := emitter_new;
     closeEmitter := emitter_new;
     partialMessageEmitter := emitter_new;
     options := fromOptions options;
     buffer := [];
     _partialMessageTimeout := 10000;
     nextMessageLength := -1;
     messageToken := 0;
     partialMessageTimer := None |}.

(** [AbstractMessageReader.dispose]. *)
Definition dispose (r : ReadableStreamMessageReader) : ReadableStreamMessageReader :=
  set_emitters (emitter_dispose (errorEmitter r)) (emitter_dispose (closeEmitter r)) r.

Definition asError (error : JsValue) : string :=
  match error with
  | JsError message => message
  | JsObject (Some message) => "Reader received error. Reason: " +:+ message
  | JsObject None => "Reader received error. Reason: unknown"
  end.

Definition fireError (r : ReadableStreamMessageReader) (error : JsValue)
    : list (Output Message) :=
  emitter_fire (errorEmitter r) (OnError (asError error)).

Definition fireClose (r : ReadableStreamMessageReader) : list (Output Message) :=
  emitter_fire (closeEmitter r) OnClose.

Definition firePartialMessage (r : ReadableStreamMessageReader)
    (messageToken waitingTime : Z) : list (Output Message) :=
  emitter_fire (partialMessageEmitter r) (OnPartialMessage messageToken waitingTime).

(** [listen]: the sequencing state is initialised again; the handle of a
    pending timer is dropped, not cleared. The handlers it registers on the
    stream are the inputs of [step] below. *)
Definition listen (r : ReadableStreamMessageReader) : ReadableStreamMessageReader :=
  set_partialMessageTimer None (set_messageToken 0 (set_nextMessageLength (-1) r)).

Definition clearPartialMessageTimer (r : ReadableStreamMessageReader) (h : Host)
    : ReadableStreamMessageReader * Host :=
  match partialMessageTimer r with
  | Some handle => (set_partialMessageTimer None r, clearTimeout h handle)
  | None => (r, h)
  end.

(** [setPartialMessageTimer], up to the call of [setTimeout]; the callback
    it schedules is [timer_callback]. *)
Definition setPartialMessageTimer (r : ReadableStreamMessageReader) (h : Host)
    : ReadableStreamMessageReader * Host :=
  let '(r, h) := clearPartialMessageTimer r h in
  if bool_decide (_partialMessageTimeout r ≤ 0) then (r, h)
  else
    let '(h, handle) :=
      setTimeout h (_partialMessageTimeout r) (messageToken r) (_partialMessageTimeout r) in
    (set_partialMessageTimer (Some handle) r, h).

(** The arrow function given to [setTimeout], called with [token] and
    [timeout]. *)
Definition timer_callback (token timeout : Z) (r : ReadableStreamMessageReader)
    (h : Host) : ReadableStreamMessageReader * Host * list (Output Message) :=
  let r := set_partialMessageTimer None r in
  if bool_decide (token = messageToken r) then
    let out := firePartialMessage r token timeout in
    let '(r, h) := setPartialMessageTimer r h in
    (r, h, out)
  else (r, h, []).

(** The block [if (this.nextMessageLength === -1) { ... }] of [onData]:
    it returns from [onData], throws, or goes on with the length known. *)
Inductive HeaderStep : Type :=
| NeedMoreHeader
| Throw (message : string) (rest : list byte)
| KnownLength (length : Z) (rest : list byte).

Definition readLength (nextMessageLength : Z) (buffer : list byte) : HeaderStep :=
  if bool_decide (nextMessageLength = -1) then
    match tryReadHeaders buffer with
    | None => NeedMoreHeader
    | Some (headers, rest) =>
        match headers !! "Content-Length"%string with
        | None => Throw "Header must provide a Content-Length property." rest
        | Some contentLength =>
            if bool_decide (contentLength = EmptyString)
            then Throw "Header must provide a Content-Length property." rest
            else
              match parseInt contentLength with
              | None => Throw "Content-Length value must be a number." rest
              | Some length => KnownLength length rest
              end
        end
    end
  else KnownLength nextMessageLength buffer.

(** The promise [p] of [onData]: the one the content decoder returns, or
    [Promise.resolve(body)]. *)
Definition startDecode (o : ResolvedMessageReaderOptions) (body : list byte)
    : Decode (list byte) :=
  match contentDecoder o with
  | Some d => cd_decode d body
  | None => Returns true (Resolved body)
  end.

(** What one call of [onData] leaves: the reader and the host, the promises
    [p] it made, in this order, each with its reactions registered, and the
    error it threw, if any. *)
Record OnDataResult : Type := mkResult {
  res_reader : ReadableStreamMessageReader;
  res_host : Host;
  res_promises : list (bool * Settled (list byte));
  res_thrown : option JsValue
}.

(** The loop [while (true)] of [onData]. An iteration that does not leave
    the loop has read a header block or started from a known length, so
    the length of the buffer, plus two, bounds the iterations; this is the
    fuel [onData] gives, and [None] is for a loop that runs out of it. A
    content decoder that throws ends the call as the two [throw] statements
    do, after the body was taken from the buffer. *)
Fixpoint onData_loop (fuel : nat) (r : ReadableStreamMessageReader) (h : Host)
    : option OnDataResult :=
  match fuel with
  | O => None
  | S fuel' =>
      match readLength (nextMessageLength r) (buffer r) with
      | NeedMoreHeader => Some (mkResult r h [] None)
      | Throw message rest =>
          Some (mkResult (set_buffer rest r) h [] (Some (JsError message)))
      | KnownLength length rest =>
          let r := set_nextMessageLength length (set_buffer rest r) in
          match tryReadBody (buffer r) (nextMessageLength r) with
          | None =>
              let '(r, h) := setPartialMessageTimer r h in
              Some (mkResult r h [] None)
          | Some (body, rest) =>
              let r := set_buffer rest r in
              let '(r, h) := clearPartialMessageTimer r h in
              let r := set_nextMessageLength (-1) r in
              match startDecode (options r) body with
              | Throws error => Some (mkResult r h [] (Some error))
              | Returns at_once outcome =>
                  match onData_loop fuel' r h with
                  | Some res =>
                      Some (mkResult (res_reader res) (res_host res)
                              ((at_once, outcome) :: res_promises res) (res_thrown res))
                  | None => None
                  end
              end
          end
      end
  end.

Definition onData (r : ReadableStreamMessageReader) (h : Host) (data : list byte)
    : option OnDataResult :=
  let r := set_buffer (buffer r ++ data) r in
  onData_loop (List.length (buffer r) + 2) r h.

(** The reactions [onData] registers with [then]. On [p]: the first calls
    the content-type decoder and registers the reactions on its promise,
    the second fires the error event. When the content-type decoder throws,
    the promise that [then] returned is rejected, and nobody handles it. *)
Definition onContent (r : ReadableStreamMessageReader) (outcome : Settled (list byte))
    : list (Output Message) * option (bool * Settled Message) :=
  match outcome with
  | Resolved value =>
      match ctd_decode (contentTypeDecoder (options r)) value (charset (options r)) with
      | Returns at_once outcome => ([], Some (at_once, outcome))
      | Throws error => ([], None)
      end
  | Rejected error => (fireError r error, None)
  end.

(** On the promise of the content-type decoder: the callback, or the error
    event. *)
Definition onMessage (r : ReadableStreamMessageReader) (outcome : Settled Message)
    : list (Output Message) :=
  match outcome with
  | Resolved msg => [Callback msg]
  | Rejected error => fireError r error
  end.

(** A promise that is not settled yet. *)
Inductive Promise : Type :=
| ContentPromise (outcome : Settled (list byte))
| MessagePromise (outcome : Settled Message).

Definition settled_now {A : Type} (promises : list (bool * A)) : list A :=
  omap (λ p : bool * A, if p.1 then Some p.2 else None) promises.

Definition settled_later {A : Type} (promises : list (bool * A)) : list A :=
  omap (λ p : bool * A, if p.1 then None else Some p.2) promises.

(** The job queue, when the task that made [promises] is over. The
    reactions of the promises that are settled run in the order in which
    they were registered; a reaction of a promise [p] that calls the
    content-type decoder registers the next reaction, which is queued
    behind the reactions of all of [promises]. What is left are the
    promises that settle later. *)
Definition runJobs (r : ReadableStreamMessageReader)
    (promises : list (bool * Settled (list byte)))
    : list (Output Message) * list Promise :=
  let reactions := onContent r <$> settled_now promises in
  let made := omap snd reactions in
  (concat (fst <$> reactions) ++ concat (onMessage r <$> settled_now made),
   (ContentPromise <$> settled_later promises) ++ (MessagePromise <$> settled_later made)).

(** *** Runs

    A run starts when [listen] has been called on a new reader. Its inputs
    are what the stream, the clock, the decoders and the owner of the
    reader do: [Settle i] is the [i]-th of the pending promises being
    settled. Each input is a task of the event loop, and the job queue is
    emptied at its end. The reader has no failed state: an error thrown by
    [onData] goes to the caller of the stream's data handler, and what the
    caller does with it is not the reader's. A run is one of a host that
    goes on: [crashed] keeps the last error thrown for the observer, and the
    next input is handled as any other. Timeouts are whole numbers of
    milliseconds, and a timer runs in the millisecond in which it is
    due. *)
Inductive Input : Type :=
| Data (chunk : list byte)
| StreamError (error : JsValue)
| StreamClose
| Elapse (ms : nat)
| SetPartialMessageTimeout (timeout : Z)
| Dispose
| Settle (i : nat).

Record World : Type := mkWorld {
  reader : ReadableStreamMessageReader;
  host : Host;
  pending : list Promise;
  output : list (Output Message);
  crashed : option JsValue
}.

Definition start (options : OptionsArg) : World :=
  {| reader := listen (new_reader options); host := host_new; pending := [];
     output := []; crashed := None |}.

(** A due timer runs, unless it was cleared in the meantime. *)
Definition fire_timer (w : World) (t : Timer) : World :=
  if bool_decide (timer_handle t ∈ timer_handle <$> timers (host w)) then
    let h := clearTimeout (host w) (timer_handle t) in
    let '(r, h, out) := timer_callback (timer_token t) (timer_timeout t) (reader w) h in
    mkWorld r h (pending w) (output w ++ out) (crashed w)
  else w.

(** One millisecond passes: the timers that are due run, oldest first. *)
Definition tick (w : World) : World :=
  let h := mkHost (clock (host w) + 1) (timers (host w)) (next_handle (host w)) in
  let due := filter (λ t, timer_due t ≤ clock h) (timers h) in
  foldl fire_timer (mkWorld (reader w) h (pending w) (output w) (crashed w)) due.

Fixpoint elapse (ms : nat) (w : World) : World :=
  match ms with
  | O => w
  | S ms' => elapse ms' (tick w)
  end.

(** A pending promise settles: its reactions run, and those they queue. *)
Definition settle (w : World) (i : nat) : World :=
  match pending w !! i with
  | Some (ContentPromise outcome) =>
      let '(out, later) := runJobs (reader w) [(true, outcome)] in
      mkWorld (reader w) (host w) (delete i (pending w) ++ later) (output w ++ out)
        (crashed w)
  | Some (MessagePromise outcome) =>
      mkWorld (reader w) (host w) (delete i (pending w))
        (output w ++ onMessage (reader w) outcome) (crashed w)
  | None => w
  end.

Definition step (w : World) (i : Input) : option World :=
  match i with
  | Data chunk =>
      match onData (reader w) (host w) chunk with
      | Some res =>
          let '(out, later) := runJobs (res_reader res) (res_promises res) in
          Some (mkWorld (res_reader res) (res_host res) (pending w ++ later)
                  (output w ++ out)
                  (match res_thrown res with
                   | Some error => Some error
                   | None => crashed w
                   end))
      | None => None
      end
  | StreamError error =>
      Some (mkWorld (reader w) (host w) (pending w) (output w ++ fireError (reader w) error)
              (crashed w))
  | StreamClose =>
      Some (mkWorld (reader w) (host w) (pending w) (output w ++ fireClose (reader w))
              (crashed w))
  | Elapse ms => Some (elapse ms w)
  | SetPartialMessageTimeout timeout =>
      Some (mkWorld (set_partialMessageTimeout timeout (reader w)) (host w) (pending w)
              (output w) (crashed w))
  | Dispose =>
      Some (mkWorld (dispose (reader w)) (host w) (pending w) (output w) (crashed w))
  | Settle i => Some (settle w i)
  end.

Fixpoint run (w : World) (inputs : list Input) : option World :=
  match inputs with
  | [] => Some w
  | i :: inputs' =>
      match step w i with
      | Some w' => run w' inputs'
      | None => None
      end
  end.

End Reader.

End MessageReader.

(** ** What the two loops of [computeDiff] count *)

Module DiffSpec.
Import SemanticTokens.

Section Counts.
Context {A : Type} `{EqDecision A}.

(** [startIndex] after the first loop, and [endIndex] after the second,
    as [computeDiff] runs them. *)
Definition commonPrefix (originalSequence modifiedSequence : list A) : Z :=
  scanStart (length originalSequence) originalSequence modifiedSequence 0.

Definition commonSuffix (originalSequence modifiedSequence : list A) : Z :=
  scanEnd (length originalSequence) originalSequence modifiedSequence 0.

End Counts.

End DiffSpec.

(** ** The delta encoding of semantic tokens *)

Module TokenEncoding.
Import SemanticTokens.

(** The five slots [push] stores for a token after a token at [prev] (line,
    character), or for the first token: the line less the previous line,
    the character less the previous character when both are on one line,
    and length, type and modifiers as they are. The differences are
    differences of doubles. *)
Definition delta_slots (prev : option (Z * Z)) (t : Token) : list Z :=
  match prev with
  | None => [tk_line t; tk_char t; tk_length t; tk_type t; tk_modifiers t]
  | Some (line, char) =>
      [JsNumber.sub (tk_line t) line;
       if bool_decide (tk_line t = line) then JsNumber.sub (tk_char t) char
       else tk_char t;
       tk_length t; tk_type t; tk_modifiers t]
  end.

(** The five slots as the protocol words them: line relative to the
    previous line, character relative to the previous character when both
    are on one line, with the differences of integers. *)
Definition protocol_slots (prev : option (Z * Z)) (t : Token) : list Z :=
  match prev with
  | None => [tk_line t; tk_char t; tk_length t; tk_type t; tk_modifiers t]
  | Some (line, char) =>
      [tk_line t - line;
       if bool_decide (tk_line t = line) then tk_char t - char else tk_char t;
       tk_length t; tk_type t; tk_modifiers t]
  end.

(** A position the protocol can carry: line and character are
    non-negative integers that doubles hold exactly. *)
Definition safe_token (t : Token) : Prop :=
  0 ≤ tk_line t ≤ JsNumber.MAX_SAFE_INTEGER
  ∧ 0 ≤ tk_char t ≤ JsNumber.MAX_SAFE_INTEGER.

Definition position (t : Token) : Z * Z := (tk_line t, tk_char t).

Fixpoint delta_encode (prev : option (Z * Z)) (ts : list Token) : list Z :=
  match ts with
  | [] => []
  | t :: ts' => delta_slots prev t ++ delta_encode (Some (position t)) ts'
  end.

Fixpoint protocol_encode (prev : option (Z * Z)) (ts : list Token) : list Z :=
  match ts with
  | [] => []
  | t :: ts' => protocol_slots prev t ++ protocol_encode (Some (position t)) ts'
  end.

(** The token before token [i], if any. *)
Definition previous (ts : list Token) (i : nat) : option (Z * Z) :=
  match i with
  | O => None
  | S j => position <$> ts !! j
  end.

(** Reading a data array back, from the position ([line], [char]) reached
    so far: [None] when the array has a hole or is not made of groups of
    five. *)
Fixpoint delta_decode (line char : Z) (data : list (option Z)) : option (list Token) :=
  match data with
  | [] => Some []
  | Some dl :: Some dc :: Some len :: Some ty :: Some md :: rest =>
      let line' := line + dl in
      let char' := if bool_decide (dl = 0) then char + dc else dc in
      match delta_decode line' char' rest with
      | Some ts => Some (mkToken line' char' len ty md :: ts)
      | None => None
      end
  | _ => None
  end.

(** The previous position a builder encodes against. *)
Definition builder_prev (b : SemanticTokensBuilder) : option (Z * Z) :=
  if bool_decide (0 < _dataLen b)%nat then Some (_prevLine b, _prevChar b) else None.

(** The builder keeps [_dataLen] equal to the length of [_data]. *)
Definition builder_ok (b : SemanticTokensBuilder) : Prop :=
  _dataLen b = length (_data b).

End TokenEncoding.

(** ** The wire format *)

Module Wire.
Import Bytes.

(** [l] has no byte [c]. *)
Definition free_of (c : byte) (l : list byte) : bool :=
  forallb (λ b, bool_decide (b ≠ c)) l.

(** The decimal digits. *)
Definition is_digit (b : byte) : Prop := ∃ d, 0 ≤ d < 10 ∧ b = digit_byte d.

(** Modelled from the spec: a framed message on the wire, which the
    writer, not among the sources, produces. The header block is the line
    [Content-Length: <decimal byte count of body>] and optionally the line
    [Content-Type: <value>], each ended by CRLF; an empty line ends the
    block and the body follows. *)
Record Frame : Type := mkFrame {
  content_type : option (list byte);
  body : list byte
}.

Definition content_length_line (f : Frame) : list byte :=
  list_byte_of_string "Content-Length: " ++ decimal (length (body f)).

Definition content_type_line (value : list byte) : list byte :=
  list_byte_of_string "Content-Type: " ++ value.

Definition header_block (f : Frame) : list byte :=
  content_length_line f ++
  match content_type f with
  | Some value => CRLF ++ content_type_line value
  | None => []
  end.

Definition encode_frame (f : Frame) : list byte :=
  header_block f ++ CRLF ++ CRLF ++ body f.

(** The length of the body is one a buffer can have, a safe integer, and
    a Content-Type value stays on its line. *)
Definition well_framed (f : Frame) : Prop :=
  Z.of_nat (length (body f)) ≤ JsNumber.MAX_SAFE_INTEGER
  ∧ match content_type f with
    | Some value => free_of CR value = true
    | None => True
    end.

Definition encode_frames (fs : list Frame) : list byte :=
  concat (encode_frame <$> fs).

End Wire.

(** ** The framing of [onData], without the timers *)

Module Framing.
Import Bytes MessageReader.

(** What the loop of [onData] does to the pair of [nextMessageLength] and
    [buffer]: the bodies it takes out, the pair it leaves, and the error it
    throws. [onData_loop] is shown below to compute this. *)
Record Extracted : Type := mkExtracted {
  ex_bodies : list (list byte);
  ex_next : Z;
  ex_buffer : list byte;
  ex_thrown : option string
}.

Definition ex_cons (body : list byte) (e : Extracted) : Extracted :=
  mkExtracted (body :: ex_bodies e) (ex_next e) (ex_buffer e) (ex_thrown e).

Fixpoint extract (fuel : nat) (next : Z) (buffer : list byte) : option Extracted :=
  match fuel with
  | O => None
  | S fuel' =>
      match readLength next buffer with
      | NeedMoreHeader => Some (mkExtracted [] next buffer None)
      | Throw message rest => Some (mkExtracted [] next rest (Some message))
      | KnownLength length rest =>
          match tryReadBody rest length with
          | None => Some (mkExtracted [] length rest None)
          | Some (body, rest') => ex_cons body <$> extract fuel' (-1) rest'
          end
      end
  end.

(** The iterations of the loop are bounded by this. *)
Definition measure (next : Z) (buffer : list byte) : nat :=
  length buffer + (if bool_decide (next = -1) then 0 else 1).

(** The fuel [onData] gives. *)
Definition enough (next : Z) (buffer : list byte) : nat := length buffer + 2.

End Framing.

(** ** Observations on a run *)

Module Observe.
Import Bytes MessageReader.

Section Outputs.
Context {Message : Type}.

(** The messages given to the callback, in order. *)
Definition callback_of (o : Output Message) : option Message :=
  match o with
  | Callback msg => Some msg
  | _ => None
  end.

Definition callbacks (out : list (Output Message)) : list Message :=
  omap callback_of out.

(** What comes of the bodies: calls of the callback and error events. *)
Definition is_delivery (o : Output Message) : bool :=
  match o with
  | Callback _ | OnError _ => true
  | _ => false
  end.

Definition deliveries (out : list (Output Message)) : list (Output Message) :=
  List.filter is_delivery out.

(** The messages of the error events, in order. *)
Definition error_of (o : Output Message) : option string :=
  match o with
  | OnError message => Some message
  | _ => None
  end.

Definition errors (out : list (Output Message)) : list string :=
  omap error_of out.

(** What a body is to come to when a content decoder [cd], if there is
    one, and then a content-type decoder [td] are applied to it: the way
    the last promise settles, and [None] when one of the two throws. *)
Definition settles {A : Type} (d : Decode A) : option (Settled A) :=
  match d with
  | Returns _ outcome => Some outcome
  | Throws _ => None
  end.

Definition content_with (cd : option ContentDecoder) (body : list byte)
    : Decode (list byte) :=
  match cd with
  | Some d => cd_decode d body
  | None => Returns true (Resolved body)
  end.

Definition decode_with (cd : option ContentDecoder) (td : @ContentTypeDecoder Message)
    (charset : string) (body : list byte) : option (Settled Message) :=
  match settles (content_with cd body) with
  | Some (Resolved value) => settles (ctd_decode td value charset)
  | Some (Rejected error) => Some (Rejected error)
  | None => None
  end.

(** The message it decodes to, and the message of the error it fails
    with. *)
Definition message_with (cd : option ContentDecoder) (td : @ContentTypeDecoder Message)
    (charset : string) (body : list byte) : option Message :=
  match decode_with cd td charset body with
  | Some (Resolved msg) => Some msg
  | _ => None
  end.

Definition failure_with (cd : option ContentDecoder) (td : @ContentTypeDecoder Message)
    (charset : string) (body : list byte) : option string :=
  match decode_with cd td charset body with
  | Some (Rejected error) => Some (asError error)
  | _ => None
  end.

(** The call of [decode] returns. *)
Definition returns {A : Type} (d : Decode A) : bool :=
  match d with
  | Returns _ _ => true
  | Throws _ => false
  end.

(** What comes of a body with these decoders, for the listener: the
    callback with the message, the error event with the reason of the
    rejection, or nothing. *)
Definition delivery (outcome : Settled Message) : Output Message :=
  match outcome with
  | Resolved msg => Callback msg
  | Rejected error => OnError (asError error)
  end.

Definition outcome_with (cd : option ContentDecoder) (td : @ContentTypeDecoder Message)
    (charset : string) (body : list byte) : option (Output Message) :=
  delivery <$> decode_with cd td charset body.

(** What comes of a promise that is not settled yet, once it is. *)
Definition eventually_with (td : @ContentTypeDecoder Message) (charset : string)
    (p : @Promise Message) : option (Output Message) :=
  match p with
  | ContentPromise (Resolved value) => delivery <$> settles (ctd_decode td value charset)
  | ContentPromise (Rejected error) => Some (OnError (asError error))
  | MessagePromise outcome => Some (delivery outcome)
  end.

(** The decoders neither throw nor suspend on this body: each of the
    promises is settled when [decode] returns. *)
Definition at_once_with (cd : option ContentDecoder) (td : @ContentTypeDecoder Message)
    (charset : string) (body : list byte) : bool :=
  match content_with cd body with
  | Returns true (Resolved value) =>
      match ctd_decode td value charset with
      | Returns true _ => true
      | _ => false
      end
  | Returns true (Rejected _) => true
  | _ => false
  end.

(** The same for the decoders and the charset of resolved options. *)
Definition at_once (o : @ResolvedMessageReaderOptions Message) (body : list byte)
    : bool :=
  at_once_with (contentDecoder o) (contentTypeDecoder o) (charset o) body.

Definition outcome (o : @ResolvedMessageReaderOptions Message) (body : list byte)
    : option (Output Message) :=
  outcome_with (contentDecoder o) (contentTypeDecoder o) (charset o) body.

Definition eventually (o : @ResolvedMessageReaderOptions Message) (p : @Promise Message)
    : option (Output Message) :=
  eventually_with (contentTypeDecoder o) (charset o) p.

(** The partial-message events: token and waiting time. *)
Definition partial_of (o : Output Message) : option (Z * Z) :=
  match o with
  | OnPartialMessage token waitingTime => Some (token, waitingTime)
  | _ => None
  end.

Definition partials (out : list (Output Message)) : list (Z * Z) :=
  omap partial_of out.

End Outputs.

(** The bytes a run receives. *)
Definition chunk_of (i : Input) : list byte :=
  match i with
  | Data chunk => chunk
  | _ => []
  end.

Definition received (inputs : list Input) : list byte :=
  concat (chunk_of <$> inputs).

(** Inputs of a stream that stays open and of an owner that keeps the
    reader: bytes, time, and the timeout setter. *)
Definition quiet (i : Input) : Prop :=
  match i with
  | Data _ | Elapse _ | SetPartialMessageTimeout _ => True
  | _ => False
  end.

(** The same, and promises of the decoders being settled. *)
Definition settling (i : Input) : Prop :=
  match i with
  | Data _ | Elapse _ | SetPartialMessageTimeout _ | Settle _ => True
  | _ => False
  end.

(** Every timeout the setter is given is disabled. *)
Definition timeout_disabled (i : Input) : Prop :=
  match i with
  | SetPartialMessageTimeout timeout => timeout ≤ 0
  | _ => True
  end.

Section Invariants.
Context {Message : Type}.

(** The content-type decoder the caller names in the options, if any. *)
Definition explicit_decoder (arg : @OptionsArg Message) : option (@ContentTypeDecoder Message) :=
  match arg with
  | Options o => opt_contentTypeDecoder o
  | _ => None
  end.

(** The content decoder and the charset the caller names; the charset is
    utf-8 when none is named. *)
Definition explicit_contentDecoder (arg : @OptionsArg Message) : option ContentDecoder :=
  match arg with
  | Options o => opt_contentDecoder o
  | _ => None
  end.

Definition explicit_charset (arg : @OptionsArg Message) : string :=
  match arg with
  | NoOptions => "utf-8"
  | Encoding charset => charset
  | Options o => default "utf-8"%string (opt_charset o)
  end.

(** What a reader made with the options [arg] is to make of a body: the
    content decoder the options name is applied, if there is one, and then
    the content-type decoder they name, or the JSON decoder of the runtime
    when they name none. *)
Definition reader_at_once (json : @ContentTypeDecoder Message) (arg : @OptionsArg Message)
    (body : list byte) : bool :=
  at_once_with (explicit_contentDecoder arg) (default json (explicit_decoder arg))
    (explicit_charset arg) body.

Definition reader_message (json : @ContentTypeDecoder Message) (arg : @OptionsArg Message)
    (body : list byte) : option Message :=
  message_with (explicit_contentDecoder arg) (default json (explicit_decoder arg))
    (explicit_charset arg) body.

Definition reader_failure (json : @ContentTypeDecoder Message) (arg : @OptionsArg Message)
    (body : list byte) : option string :=
  failure_with (explicit_contentDecoder arg) (default json (explicit_decoder arg))
    (explicit_charset arg) body.

Definition reader_outcome (json : @ContentTypeDecoder Message) (arg : @OptionsArg Message)
    (body : list byte) : option (Output Message) :=
  outcome_with (explicit_contentDecoder arg) (default json (explicit_decoder arg))
    (explicit_charset arg) body.

Definition reader_eventually (json : @ContentTypeDecoder Message)
    (arg : @OptionsArg Message) (p : @Promise Message) : option (Output Message) :=
  eventually_with (default json (explicit_decoder arg)) (explicit_charset arg) p.

(** The content decoder of the options, if there is one, returns a promise
    for this body. *)
Definition reader_returns (arg : @OptionsArg Message) (body : list byte) : bool :=
  returns (content_with (explicit_contentDecoder arg) body).

(** The reader holds the handle of every pending timer: there is at most
    one, and it is pending only while a body is awaited. *)
Definition tracked (r : @ReadableStreamMessageReader Message) (h : Host) : Prop :=
  match partialMessageTimer r with
  | None => timers h = []
  | Some handle =>
      ∃ t, timers h = [t] ∧ timer_handle t = handle
           ∧ timer_token t = messageToken r ∧ nextMessageLength r ≠ -1
  end.

(** The loop of [onData] has stopped on this state: there is no complete
    header block, or no complete body. *)
Definition stopped (next : Z) (buffer : list byte) : Prop :=
  ∃ fuel, Framing.extract fuel next buffer
          = Some (Framing.mkExtracted [] next buffer None).

(** What the timer operations leave alone in the reader. *)
Definition same_but_timer (r r' : @ReadableStreamMessageReader Message) : Prop :=
  errorEmitter r' = errorEmitter r ∧ closeEmitter r' = closeEmitter r
  ∧ partialMessageEmitter r' = partialMessageEmitter r ∧ options r' = options r
  ∧ nextMessageLength r' = nextMessageLength r ∧ messageToken r' = messageToken r
  ∧ buffer r' = buffer r ∧ _partialMessageTimeout r' = _partialMessageTimeout r.

(** An output made of partial-message events only. *)
Definition only_partials (out : list (Output Message)) : Prop :=
  Forall (λ o, is_Some (partial_of o)) out.

(** Every partial-message event of the output carries the token [0]. *)
Definition tokens_zero (out : list (Output Message)) : Prop :=
  Forall (λ p : Z * Z, p.1 = 0) (partials out).

(** The number of times a timer that is due in [k] milliseconds, and is
    set again for [T] milliseconds each time it runs, runs in [d]
    milliseconds. *)
Definition firings (d k : nat) (T : Z) : nat :=
  if bool_decide (d < k)%nat then O
  else S (Z.to_nat ((Z.of_nat d - Z.of_nat k) / T)).

End Invariants.

End Observe.

(** ** Decoders and messages for the examples *)

Module Examples.
Import Bytes Wire MessageReader.

(** A decoder in the way of the JSON decoder: the message is the text of
    an object, and anything else is rejected with a syntax error. *)
Definition json_decoder : @ContentTypeDecoder (list byte) :=
  mkContentTypeDecoder "application/json"
    (λ body _, Returns true
                 match body with
                 | x7b :: _ => Resolved body
                 | _ => Rejected (JsError "Unexpected token in JSON")
                 end).

(** The same decoder doing its work later: the promise it returns is
    settled by a later task. *)
Definition slow_json_decoder : @ContentTypeDecoder (list byte) :=
  mkContentTypeDecoder "application/json"
    (λ body _, Returns false
                 match body with
                 | x7b :: _ => Resolved body
                 | _ => Rejected (JsError "Unexpected token in JSON")
                 end).


Definition rejecting_decoder : ContentDecoder :=
  mkContentDecoder "gzip" (λ _, Returns true (Rejected (JsError "incorrect header check"))).



Definition options_rejecting : @OptionsArg (list byte) :=
  Options (mkOptions None (Some rejecting_decoder) None None None).

(** Two decoders that tell which of them decoded a body. *)
Definition tagging_json : @ContentTypeDecoder string :=
  mkContentTypeDecoder "application/json"
    (λ _ _, Returns true (Resolved "decoded as json"%string)).

Definition tagging_custom : @ContentTypeDecoder string :=
  mkContentTypeDecoder "application/x-custom"
    (λ _ _, Returns true (Resolved "decoded as custom"%string)).

Definition bytes (s : string) : list byte := list_byte_of_string s.

Definition header_2 : list byte := bytes "Content-Length: 2" ++ CRLF ++ CRLF.


Definition bad_length : list byte := bytes "Content-Length: two" ++ CRLF ++ CRLF.

Definition frame_a : Frame := mkFrame None (bytes "{}").
Definition frame_b : Frame :=
  mkFrame (Some (bytes "application/vscode-jsonrpc; charset=utf-8")) (bytes "{b:1}").
Definition frame_bad : Frame := mkFrame None (bytes "oops").
Definition frame_custom : Frame := mkFrame (Some (bytes "application/x-custom")) (bytes "{}").

(** Two messages on the wire, and the same bytes in four chunks: the first
    cut is in the first header block, the second in the first body, the
    third in the second body. *)
Definition stream_ab : list byte := encode_frames [frame_a; frame_b].

Definition chunks_ab : list Input :=
  [Data (take 9 stream_ab); Elapse 20; Data (take 13 (drop 9 stream_ab));
   SetPartialMessageTimeout 5; Data (take 81 (drop 22 stream_ab)); Elapse 7;
   Data (drop 103 stream_ab)].

(** A message whose body does not decode, between two that do. *)
Definition stream_bad : list byte := encode_frames [frame_a; frame_bad; frame_b].

(** The world a run leaves. *)
Definition world_after (inputs : list Input) : @World (list byte) :=
  default (start json_decoder NoOptions) (run (start json_decoder NoOptions) inputs).

(** Ten seconds, the timeout of a new reader. *)
Definition ten_seconds : nat := Z.to_nat 10000.

(** The first byte of a body of two after its header block, and the
    second. *)
Definition first_half : list byte := header_2 ++ bytes "{".
Definition second_half : list byte := bytes "}".

(** A body of four bytes that comes one byte at a time. *)
Definition header_4 : list byte := bytes "Content-Length: 4" ++ CRLF ++ CRLF.

(** Options that register the custom decoder next to the default one. *)
Definition options_custom : @OptionsArg string :=
  Options (mkOptions None None None None (Some [tagging_custom])).

End Examples.

(** ** The decoders a caller registers *)

Module Registry.
Import MessageReader.

Section Given.
Context {Message : Type}.

(** The decoder a map keyed by names ends up with for [name] when a list
    of decoders is entered in it from the left: the last one of this
    name. *)
Definition last_named {D : Type} (name_of : D → string) (name : string)
    (decoders : list D) : option D :=
  last (filter (λ d, name_of d = name) decoders).

(** The content decoders in the order [fromOptions] enters them in the
    map: the single decoder of the options, then the list. *)
Definition given_contentDecoders (arg : @OptionsArg Message) : list ContentDecoder :=
  match arg with
  | Options o =>
      option_list (opt_contentDecoder o) ++ default [] (opt_contentDecoders o)
  | _ => []
  end.

(** The same for the content-type decoders; the JSON decoder of the runtime
    comes last, and only when the options name no single decoder. *)
Definition given_contentTypeDecoders (json : @ContentTypeDecoder Message)
    (arg : @OptionsArg Message) : list (@ContentTypeDecoder Message) :=
  match arg with
  | Options o =>
      option_list (opt_contentTypeDecoder o)
      ++ default [] (opt_contentTypeDecoders o)
      ++ match opt_contentTypeDecoder o with Some _ => [] | None => [json] end
  | _ => [json]
  end.

End Given.

End Registry.

(** ** More observations on a run *)

Module Traces.
Import Bytes MessageReader.

Section Outputs.
Context {Message : Type}.

(** The message a body decodes to, if it does. *)
Definition decoded (o : @ResolvedMessageReaderOptions Message) (body : list byte)
    : option Message :=
  Observe.message_with (contentDecoder o) (contentTypeDecoder o) (charset o) body.

(** The message of the error its decoding fails with, if it fails. *)
Definition failure (o : @ResolvedMessageReaderOptions Message) (body : list byte)
    : option string :=
  Observe.failure_with (contentDecoder o) (contentTypeDecoder o) (charset o) body.

(** The error and close events of an output. *)
Definition is_error_or_close (o : Output Message) : bool :=
  match o with
  | OnError _ | OnClose => true
  | _ => false
  end.

Definition errors_and_closes (out : list (Output Message)) : list (Output Message) :=
  List.filter is_error_or_close out.

End Outputs.

(** Chunks that come one after the other, each followed by a wait of so
    many milliseconds. *)
Definition trickle (chunks : list (list byte * nat)) : list Input :=
  flat_map (λ c, [Data c.1; Elapse c.2]) chunks.

End Traces.

(** ** Tokens and requests for the examples *)

Module TokenExamples.
Import SemanticTokens.

Definition empty_builder : SemanticTokensBuilder := mkBuilder 0 0 0 [] 0 None.

(** Two tokens on line 0, and the same with a third on line 2. *)
Definition tokens_first : list Token :=
  [mkToken 0 0 3 1 0; mkToken 0 5 2 1 0].

Definition tokens_second : list Token :=
  [mkToken 0 0 3 1 0; mkToken 0 5 2 1 0; mkToken 2 4 6 2 1].

Definition tokens_third : list Token := [mkToken 1 1 1 1 1].

(** The first request is answered with [build] at time 1. *)
Definition first_result : SemanticTokensBuilder * SemanticTokens :=
  build (foldl pushToken (initialize 1 empty_builder) tokens_first).

(** The second request names the first result, at time 2. *)
Definition second_request : SemanticTokensBuilder :=
  foldl pushToken (previousResult 2 (resultId first_result.2) first_result.1)
    tokens_second.

End TokenExamples.

Module ReaderExamples.
Import Bytes Wire MessageReader Examples.

(** Three messages, the second with a body that does not decode, while the
    stream reports an error, the owner disposes the reader and the stream
    closes. *)
Definition eventful : list Input :=
  [Data (take 30 stream_bad); StreamError (JsObject None); Dispose;
   Data (drop 30 stream_bad); StreamClose].

(** A message, and the first 50 bytes of the next one. *)
Definition one_and_a_half : list Input :=
  [Data (encode_frames [frame_a]); Elapse 5; Data (take 50 (encode_frame frame_b))].

(** A body of four bytes, a byte every 9 milliseconds. *)
Definition slow_body : list (list byte * nat) :=
  [(header_4 ++ bytes "{", 9%nat); (bytes "a", 9%nat); (bytes "b", 9%nat);
   (bytes "}", 9%nat)].

(** A Content-Length with a parameter after the number. *)
Definition length_with_parameter : list byte :=
  bytes "Content-Length: 2;q=1" ++ CRLF ++ CRLF ++ bytes "{}".

(** The same bytes at once, and the reader disposed after them. *)
Definition one_and_a_half_at_once : list Input :=
  [Data (encode_frames [frame_a] ++ take 50 (encode_frame frame_b)); Dispose].

End ReaderExamples.

(** * Theorems *)

(** ** Numbers *)

Module JsNumberFacts.

(** Within 2^53 a double is the integer itself. *)
Lemma to_double_exact x : Z.abs x ≤ 2 ^ 53 → JsNumber.to_double x = x.
Proof. intros H. unfold JsNumber.to_double. by rewrite bool_decide_eq_true_2. Qed.

(** Rounding does not make a number zero. *)
Lemma to_double_zero x : JsNumber.to_double x = 0 ↔ x = 0.
Proof.
  split; [|by intros ->].
  unfold JsNumber.to_double. case_bool_decide as Hx; [done|]. cbv zeta.
  set (a := Z.abs x) in *.
  assert (0 < a) as Ha by lia.
  pose proof (Z.log2_spec a Ha) as [Hlo _].
  assert (53 ≤ Z.log2 a) as Hlog.
  { apply Z.log2_le_pow2; [done|]. lia. }
  set (ulp := 2 ^ (Z.log2 a - 52)).
  assert (0 < ulp) as Hulp by (apply Z.pow_pos_nonneg; lia).
  assert (ulp ≤ a) as Hle.
  { etrans; [|exact Hlo]. apply Z.pow_le_mono_r; lia. }
  assert (1 ≤ a / ulp) as Hm by (apply Z.div_le_lower_bound; lia).
  intros H. apply Z.mul_eq_0 in H as [H|H]; [destruct x; simpl in *; lia|].
  apply Z.mul_eq_0 in H as [H|H]; [|lia].
  repeat case_bool_decide; try lia. destruct (Z.even _); lia.
Qed.

Lemma sub_zero a b : JsNumber.sub a b = 0 ↔ a = b.
Proof. unfold JsNumber.sub. rewrite to_double_zero. lia. Qed.

End JsNumberFacts.

(** ** Semantic tokens *)

Module SemanticTokensFacts.
Import SemanticTokens DiffSpec TokenEncoding JsNumberFacts.

Lemma store_at_end {A : Type} (a : list (option A)) (v : A) :
  JsArray.store a (length a) v = a ++ [Some v].
Proof.
  unfold JsArray.store. rewrite bool_decide_eq_false_2 by lia.
  by rewrite Nat.sub_diag.
Qed.

Lemma initialize_ok now b : builder_ok (initialize now b).
Proof. reflexivity. Qed.

Lemma store_at n {A : Type} (a : list (option A)) (v : A) :
  n = length a → JsArray.store a n v = a ++ [Some v].
Proof. intros ->. apply store_at_end. Qed.

Lemma pushToken_data b t :
  builder_ok b →
  _data (pushToken b t) = _data b ++ (Some <$> delta_slots (builder_prev b) t)
  ∧ builder_ok (pushToken b t)
  ∧ builder_prev (pushToken b t) = Some (position t).
Proof.
  destruct b as [i pl pc d n prev], t as [l c len ty md].
  unfold builder_ok, builder_prev, pushToken, push, append_slot. simpl.
  intros ->.
  set (p := if bool_decide (0 < length d)%nat then _ else _).
  assert (Hp : Some <$> delta_slots
                 (if bool_decide (0 < length d)%nat then Some (pl, pc) else None)
                 (mkToken l c len ty md)
               = [Some p.1; Some p.2; Some len; Some ty; Some md]).
  { unfold p. case_bool_decide; simpl; [|done].
    destruct (decide (l = pl)) as [->|Hne].
    - rewrite (bool_decide_eq_true_2 (JsNumber.sub pl pl = 0)) by by apply sub_zero.
      by rewrite (bool_decide_eq_true_2 (pl = pl)).
    - rewrite (bool_decide_eq_false_2 (JsNumber.sub l pl = 0)) by by rewrite sub_zero.
      by rewrite (bool_decide_eq_false_2 (l = pl)). }
  rewrite Hp. clearbody p. clear Hp. destruct p as [v1 v2]. simpl.
  rewrite (store_at _ d) by done.
  rewrite (store_at _ (d ++ _)) by (rewrite length_app; simpl; lia).
  rewrite (store_at _ ((d ++ _) ++ _)) by (rewrite !length_app; simpl; lia).
  rewrite (store_at _ (((d ++ _) ++ _) ++ _)) by (rewrite !length_app; simpl; lia).
  rewrite (store_at _ ((((d ++ _) ++ _) ++ _) ++ _)) by (rewrite !length_app; simpl; lia).
  rewrite <- !app_assoc. simpl. split; [done|]. split.
  - rewrite !length_app. simpl. lia.
  - done.
Qed.

Lemma push_all_data ts : ∀ b,
  builder_ok b →
  _data (foldl pushToken b ts)
  = _data b ++ (Some <$> delta_encode (builder_prev b) ts).
Proof.
  induction ts as [|t ts IH]; intros b Hok; simpl.
  - by rewrite app_nil_r.
  - destruct (pushToken_data b t Hok) as (E & O & P).
    rewrite IH by done. rewrite E, P, fmap_app. by rewrite <- app_assoc.
Qed.

Lemma delta_slots_length prev t : length (delta_slots prev t) = 5%nat.
Proof. by destruct prev as [[??]|]. Qed.

Lemma delta_encode_length ts : ∀ prev,
  length (delta_encode prev ts) = (5 * length ts)%nat.
Proof.
  induction ts as [|t ts IH]; intros prev; simpl; [done|].
  rewrite length_app, delta_slots_length, IH. lia.
Qed.

Lemma delta_encode_group ts : ∀ prev i t,
  ts !! i = Some t →
  take 5 (drop (5 * i) (delta_encode prev ts))
  = delta_slots (match i with O => prev | S _ => previous ts i end) t.
Proof.
  induction ts as [|t0 ts IH]; intros prev i t Hi; [done|].
  destruct i as [|i]; simpl in Hi.
  - inversion Hi; subst. simpl delta_encode.
    rewrite Nat.mul_0_r, drop_0.
    rewrite take_app_length' by (by rewrite delta_slots_length). done.
  - simpl delta_encode.
    replace (5 * S i)%nat with (length (delta_slots prev t0) + 5 * i)%nat
      by (rewrite delta_slots_length; lia).
    rewrite drop_app_add. rewrite (IH _ i t Hi).
    destruct i as [|i]; simpl; [done|]. done.
Qed.

(** Between positions that doubles hold exactly, the stored slots are the
    slots of the protocol. *)
Lemma delta_slots_protocol prev t :
  safe_token t →
  (∀ line char, prev = Some (line, char) →
     0 ≤ line ≤ JsNumber.MAX_SAFE_INTEGER ∧ 0 ≤ char ≤ JsNumber.MAX_SAFE_INTEGER) →
  delta_slots prev t = protocol_slots prev t.
Proof.
  intros [Hl Hc] Hp. destruct prev as [[line char]|]; [|done].
  destruct (Hp line char eq_refl) as [Hl' Hc'].
  unfold JsNumber.MAX_SAFE_INTEGER in *.
  unfold delta_slots, protocol_slots, JsNumber.sub.
  rewrite !to_double_exact by lia. done.
Qed.

Lemma delta_encode_group_protocol ts : ∀ prev i t,
  Forall safe_token ts →
  (∀ line char, prev = Some (line, char) →
     0 ≤ line ≤ JsNumber.MAX_SAFE_INTEGER ∧ 0 ≤ char ≤ JsNumber.MAX_SAFE_INTEGER) →
  ts !! i = Some t →
  take 5 (drop (5 * i) (delta_encode prev ts))
  = protocol_slots (match i with O => prev | S _ => previous ts i end) t.
Proof.
  intros prev i t Hs Hp Hi. rewrite (delta_encode_group ts prev i t Hi).
  apply delta_slots_protocol.
  - by apply (Forall_lookup_1 _ _ _ _ Hs Hi).
  - destruct i as [|j]; [done|]. simpl. intros line char Hj.
    destruct (ts !! j) as [t'|] eqn:E; [|done]. simpl in Hj.
    inversion Hj; subst. by apply (Forall_lookup_1 _ _ _ _ Hs E).
Qed.

Lemma protocol_decode_encode ts : ∀ prev line char,
  default (0, 0) prev = (line, char) →
  delta_decode line char (Some <$> protocol_encode prev ts) = Some ts.
Proof.
  induction ts as [|t ts IH]; intros prev line char Hprev; [done|].
  specialize (IH (Some (position t)) (tk_line t) (tk_char t) eq_refl).
  destruct t as [l c len ty md]. unfold position in IH. simpl in IH.
  cbn [protocol_encode]. rewrite fmap_app. unfold position.
  cbn [tk_line tk_char].
  destruct prev as [[pl pc]|]; simpl in Hprev; inversion Hprev; subst;
    cbn [protocol_slots tk_line tk_char tk_length tk_type tk_modifiers
         fmap list_fmap app delta_decode].
  - replace (line + (l - line)) with l by lia.
    destruct (decide (l = line)) as [->|n].
    + rewrite (bool_decide_eq_true_2 (line = line)) by done.
      rewrite (bool_decide_eq_true_2 (line - line = 0)) by lia.
      replace (char + (c - char)) with c by lia. by rewrite IH.
    + rewrite (bool_decide_eq_false_2 (l = line)) by done.
      rewrite (bool_decide_eq_false_2 (l - line = 0)) by lia. by rewrite IH.
  - replace (0 + l) with l by lia.
    replace (if bool_decide (l = 0) then 0 + c else c) with c
      by (case_bool_decide; lia).
    by rewrite IH.
Qed.

Lemma delta_encode_protocol ts : ∀ prev,
  Forall safe_token ts →
  (∀ line char, prev = Some (line, char) →
     0 ≤ line ≤ JsNumber.MAX_SAFE_INTEGER ∧ 0 ≤ char ≤ JsNumber.MAX_SAFE_INTEGER) →
  delta_encode prev ts
  = protocol_encode prev ts.
Proof.
  induction ts as [|t ts IH]; intros prev Hs Hp; [done|].
  inversion Hs as [|?? Ht Hs']; subst. cbn [delta_encode protocol_encode].
  rewrite (delta_slots_protocol prev t Ht Hp). f_equal.
  apply IH; [done|]. intros line char [= <- <-]. exact Ht.
Qed.

(** Reading back what [push] stored for positions that doubles hold
    exactly gives the tokens. *)
Lemma delta_decode_encode ts : ∀ prev line char,
  Forall safe_token ts →
  (∀ line char, prev = Some (line, char) →
     0 ≤ line ≤ JsNumber.MAX_SAFE_INTEGER ∧ 0 ≤ char ≤ JsNumber.MAX_SAFE_INTEGER) →
  default (0, 0) prev = (line, char) →
  delta_decode line char (Some <$> delta_encode prev ts) = Some ts.
Proof.
  intros prev line char Hs Hp Hprev.
  rewrite (delta_encode_protocol ts prev Hs Hp).
  by apply protocol_decode_encode.
Qed.

(** C10, with the bound that the doubles of JavaScript put on it. After
    [k] calls of [push] on a builder that is new, or was initialised again
    by [previousResult], with lines and characters that are non-negative
    safe integers, the built data array has [5 * k] elements; the five
    slots of token [i] are the line relative to token [i - 1] (the line
    itself for the first token), the character relative to token [i - 1]
    exactly when both are on one line (the character itself otherwise),
    then length, type and modifiers; and reading the array back gives the
    pushed tokens, so every absolute position is recovered. *)
Theorem build_delta_encoding (now : Z) (b0 : SemanticTokensBuilder) (ts : list Token) :
  Forall safe_token ts →
  let data := tokens_data (build (foldl pushToken (initialize now b0) ts)).2 in
  length data = (5 * length ts)%nat
  ∧ (∀ i t, ts !! i = Some t →
       take 5 (drop (5 * i) data) = Some <$> protocol_slots (previous ts i) t)
  ∧ delta_decode 0 0 data = Some ts.
Proof.
  intros Hs. cbv zeta. unfold build. cbn [snd tokens_data].
  rewrite push_all_data by apply initialize_ok.
  change (_data (initialize now b0)) with (@nil (option Z)).
  change (builder_prev (initialize now b0)) with (@None (Z * Z)).
  rewrite app_nil_l. split; [|split].
  - by rewrite length_fmap, delta_encode_length.
  - intros i t Hi. rewrite <- fmap_drop, <- fmap_take.
    rewrite (delta_encode_group_protocol ts None i t Hs) by done. by destruct i.
  - by apply (delta_decode_encode ts None).
Qed.

(** C10 as stated fails beyond 2^53: the slots are not the differences,
    and the positions are not recovered. After a token on line 1, a token on
    line 2^53 + 2 is stored with the line 2^53, which is what the
    difference 2^53 + 1 is rounded to, and reading the array back gives the
    line 2^53 + 1. *)
Lemma delta_rounded_beyond_safe_integers :
  let ts := [mkToken 1 0 1 0 0; mkToken (2 ^ 53 + 2) 0 1 0 0] in
  let data := tokens_data (build (foldl pushToken (new_builder 0) ts)).2 in
  data !! 5%nat = Some (Some (2 ^ 53))
  ∧ 2 ^ 53 ≠ (2 ^ 53 + 2) - 1
  ∧ delta_decode 0 0 data = Some [mkToken 1 0 1 0 0; mkToken (2 ^ 53 + 1) 0 1 0 0]
  ∧ delta_decode 0 0 data ≠ Some ts.
Proof.
  cbv zeta. split; [by vm_compute|]. split; [by vm_compute|].
  split; [by vm_compute|]. by vm_compute.
Qed.

(** The constructor and [previousResult] both leave an initialised
    builder. *)
Lemma initialised_builders now id' b :
  new_builder now = initialize now (mkBuilder 0 0 0 [] 0 None)
  ∧ ∃ b', previousResult now id' b = initialize now b'.
Proof. split; [done|]. unfold previousResult. eauto. Qed.

(** [computeDiff] gives at most one edit. *)
Lemma computeDiff_at_most_one {A : Type} `{EqDecision A} (o m : list A) :
  (length (computeDiff o m) ≤ 1)%nat.
Proof. unfold computeDiff. repeat case_match; simpl; lia. Qed.

Lemma scanStart_same {A : Type} `{EqDecision A} (l : list A) fuel : ∀ i,
  0 ≤ i ≤ Z.of_nat (length l) →
  Z.of_nat (length l) - i ≤ Z.of_nat fuel →
  scanStart fuel l l i = Z.of_nat (length l).
Proof.
  induction fuel as [|fuel IH]; intros i Hi Hf; simpl.
  - lia.
  - rewrite (bool_decide_eq_true_2 (_ = _)) by done. rewrite andb_true_r, andb_diag.
    case_bool_decide; [apply IH; lia | lia].
Qed.

(** Equal sequences need no edit. *)
Lemma computeDiff_same {A : Type} `{EqDecision A} (l : list A) :
  computeDiff l l = [].
Proof.
  unfold computeDiff. rewrite scanStart_same by lia.
  by rewrite !bool_decide_eq_false_2 by lia.
Qed.

Section DiffFacts.
Context {A : Type} `{EqDecision A}.

Lemma get_nat (l : list A) (i : nat) : JsArray.get l (Z.of_nat i) = l !! i.
Proof.
  unfold JsArray.get. rewrite bool_decide_eq_true_2 by lia. by rewrite Nat2Z.id.
Qed.

(** The first loop stops at the end of the common prefix. *)
Lemma scanStart_spec (o m : list A) fuel : ∀ i : nat,
  (i ≤ length o)%nat → (i ≤ length m)%nat → take i o = take i m →
  (length o - i ≤ fuel)%nat →
  ∃ s : nat, scanStart fuel o m (Z.of_nat i) = Z.of_nat s
    ∧ (i ≤ s)%nat ∧ (s ≤ length o)%nat ∧ (s ≤ length m)%nat
    ∧ take s o = take s m
    ∧ ((s < length o)%nat → (s < length m)%nat → o !! s ≠ m !! s).
Proof.
  induction fuel as [|fuel IH]; intros i Ho Hm Ht Hf.
  - exists i. simpl. repeat split; try done; lia.
  - simpl. rewrite !get_nat.
    destruct (decide (i < length m)%nat) as [Hlm|Hlm];
      [|exists i; rewrite (bool_decide_eq_false_2 (_ < Z.of_nat (length m))) by lia;
        simpl; repeat split; try done; lia].
    destruct (decide (i < length o)%nat) as [Hlo|Hlo];
      [|exists i; rewrite (bool_decide_eq_false_2 (_ < Z.of_nat (length o))) by lia;
        rewrite andb_false_r; simpl; repeat split; try done; lia].
    destruct (decide (o !! i = m !! i)) as [Heq|Hne];
      [|exists i; rewrite (bool_decide_eq_false_2 (o !! i = m !! i)) by done;
        rewrite andb_false_r; repeat split; try done; lia].
    rewrite !bool_decide_eq_true_2 by (done || lia). simpl.
    replace (Z.of_nat i + 1) with (Z.of_nat (S i)) by lia.
    destruct (lookup_lt_is_Some_2 o i Hlo) as [x Hx].
    destruct (IH (S i)) as (s & Hs & H1 & H2 & H3 & H4 & H5); try lia.
    { rewrite (take_S_r o i x Hx), (take_S_r m i x) by congruence. by rewrite Ht. }
    exists s. repeat split; try done; lia.
Qed.

(** The second loop counts elements of a common suffix, and stops at the
    first pair that differs, or at the front of a sequence. *)
Lemma scanEnd_spec (o m : list A) fuel : ∀ j : nat,
  (j ≤ length o)%nat → (j ≤ length m)%nat →
  drop (length o - j) o = drop (length m - j) m →
  (length o - j ≤ fuel)%nat →
  ∃ e : nat, scanEnd fuel o m (Z.of_nat j) = Z.of_nat e
    ∧ (j ≤ e)%nat ∧ (e ≤ length o)%nat ∧ (e ≤ length m)%nat
    ∧ drop (length o - e) o = drop (length m - e) m
    ∧ ((e < length o)%nat → (e < length m)%nat →
       o !! (length o - 1 - e)%nat ≠ m !! (length m - 1 - e)%nat).
Proof.
  induction fuel as [|fuel IH]; intros j Ho Hm Hd Hf.
  - exists j. simpl. repeat split; try done; lia.
  - simpl.
    destruct (decide (j < length m)%nat) as [Hlm|Hlm];
      [|exists j; rewrite (bool_decide_eq_false_2 (_ < Z.of_nat (length m))) by lia;
        simpl; repeat split; try done; lia].
    destruct (decide (j < length o)%nat) as [Hlo|Hlo];
      [|exists j; rewrite (bool_decide_eq_false_2 (_ < Z.of_nat (length o))) by lia;
        rewrite andb_false_r; simpl; repeat split; try done; lia].
    replace (Z.of_nat (length o) - 1 - Z.of_nat j)
      with (Z.of_nat (length o - 1 - j)) by lia.
    replace (Z.of_nat (length m) - 1 - Z.of_nat j)
      with (Z.of_nat (length m - 1 - j)) by lia.
    rewrite !get_nat.
    destruct (decide (o !! (length o - 1 - j)%nat = m !! (length m - 1 - j)%nat))
      as [Heq|Hne];
      [|exists j; rewrite (bool_decide_eq_false_2 (_ = _)) by done;
        rewrite andb_false_r; repeat split; try done; lia].
    rewrite !bool_decide_eq_true_2 by (done || lia). simpl.
    replace (Z.of_nat j + 1) with (Z.of_nat (S j)) by lia.
    destruct (lookup_lt_is_Some_2 o (length o - 1 - j)) as [x Hx]; [lia|].
    destruct (IH (S j)) as (e & He & H1 & H2 & H3 & H4 & H5); try lia.
    { replace (length o - S j)%nat with (length o - 1 - j)%nat by lia.
      replace (length m - S j)%nat with (length m - 1 - j)%nat by lia.
      rewrite (drop_S o x _ Hx), (drop_S m x) by congruence.
      replace (S (length o - 1 - j)) with (length o - j)%nat by lia.
      replace (S (length m - 1 - j)) with (length m - j)%nat by lia.
      by rewrite Hd. }
    exists e. repeat split; try done; lia.
Qed.

Lemma slice_nat (l : list A) (a b : nat) :
  (a ≤ length l)%nat →
  JsArray.slice l (Z.of_nat a) (Z.of_nat b) = take (b - a) (drop a l).
Proof.
  intros Ha. unfold JsArray.slice, JsArray.relative.
  rewrite !bool_decide_eq_false_2 by lia.
  replace (Z.to_nat (Z.min (Z.of_nat a) (Z.of_nat (length l)))) with a by lia.
  destruct (decide (b ≤ length l)%nat).
  - f_equal. lia.
  - rewrite !take_ge by (rewrite length_drop; lia). done.
Qed.

Lemma splice_nat (l items : list A) (a d : nat) :
  (a + d ≤ length l)%nat →
  JsArray.splice l (Z.of_nat a) (Z.of_nat d) items
  = take a l ++ items ++ drop (a + d) l.
Proof.
  intros Ha. unfold JsArray.splice, JsArray.relative.
  rewrite bool_decide_eq_false_2 by lia. do 3 f_equal; lia.
Qed.

(** [computeDiff] is right as long as the suffix the second loop counts
    does not reach into the prefix the first loop has found, by more than
    the one element the code gives back. *)
Theorem computeDiff_correct (o m : list A) :
  commonPrefix o m + commonSuffix o m
  ≤ Z.min (Z.of_nat (length o)) (Z.of_nat (length m)) + 1 →
  applyEdits o (computeDiff o m) = m.
Proof.
  unfold commonPrefix, commonSuffix, computeDiff.
  destruct (scanStart_spec o m (length o) 0) as (s & Hs & _ & S2 & S3 & S4 & S5);
    [lia|lia|done|lia|].
  destruct (scanEnd_spec o m (length o) 0) as (e & He & _ & E2 & E3 & E4 & _);
    [lia|lia|by rewrite !Nat.sub_0_r, !drop_all|lia|].
  change 0 with (Z.of_nat 0). rewrite Hs, He. intros Hov.
  unfold applyEdits.
  destruct (decide (s < length m)%nat) as [Hsm|Hsm].
  - rewrite (bool_decide_eq_true_2 (_ < Z.of_nat (length m))) by lia.
    destruct (decide (s < length o)%nat) as [Hso|Hso].
    + rewrite (bool_decide_eq_true_2 (_ < Z.of_nat (length o))) by lia.
      cbn [andb foldl]. unfold applyEdit. cbn [start deleteCount data default].
      unfold Datatypes.id.
      destruct e as [|e'].
      * (* nothing in common at the back *)
        replace (Z.of_nat (length m) - (Z.of_nat 0 - 1))
          with (Z.of_nat (S (length m))) by lia.
        rewrite slice_nat by lia.
        unfold JsArray.splice, JsArray.relative.
        rewrite bool_decide_eq_false_2 by lia.
        replace (Z.to_nat (Z.min (Z.of_nat s) (Z.of_nat (length o)))) with s by lia.
        rewrite (drop_ge o) by lia. rewrite app_nil_r.
        rewrite (take_ge (drop s m)) by (rewrite length_drop; lia).
        rewrite S4. apply take_drop.
      * replace (Z.of_nat (length m) - (Z.of_nat (S e') - 1))
          with (Z.of_nat (length m - e')) by lia.
        replace (Z.of_nat (length o) - (Z.of_nat (S e') - 1) - Z.of_nat s)
          with (Z.of_nat (length o - e' - s)) by lia.
        rewrite slice_nat by lia. rewrite splice_nat by lia.
        replace (s + (length o - e' - s))%nat with (length o - S e' + 1)%nat by lia.
        rewrite <- (drop_drop o 1), E4, drop_drop.
        replace (length m - S e' + 1)%nat with (s + (length m - e' - s))%nat by lia.
        rewrite <- (drop_drop m (length m - e' - s) s).
        rewrite take_drop, S4. apply take_drop.
    + rewrite (bool_decide_eq_false_2 (_ < Z.of_nat (length o))) by lia.
      cbn [andb foldl]. unfold applyEdit. cbn [start deleteCount data default].
      unfold Datatypes.id.
      unfold JsArray.slice_from. rewrite slice_nat by lia.
      change 0 with (Z.of_nat 0). rewrite splice_nat by lia.
      rewrite (take_ge (drop s m)) by (rewrite length_drop; lia).
      rewrite (drop_ge o) by lia. rewrite app_nil_r, S4. apply take_drop.
  - rewrite (bool_decide_eq_false_2 (_ < Z.of_nat (length m))) by lia.
    cbn [andb]. rewrite (take_ge m) in S4 by lia.
    destruct (decide (s < length o)%nat) as [Hso|Hso].
    + rewrite (bool_decide_eq_true_2 (_ < Z.of_nat (length o))) by lia.
      cbn [foldl]. unfold applyEdit. cbn [start deleteCount data default].
      unfold Datatypes.id.
      replace (Z.of_nat (length o) - Z.of_nat s) with (Z.of_nat (length o - s)) by lia.
      rewrite splice_nat by lia. rewrite (drop_ge o) by lia.
      by rewrite !app_nil_r.
    + rewrite (bool_decide_eq_false_2 (_ < Z.of_nat (length o))) by lia.
      cbn [foldl]. by rewrite take_ge in S4 by lia.
Qed.

End DiffFacts.

(** C9. [computeDiff] misses its contract when the common suffix of the two
    sequences reaches into their common prefix: the second loop is not
    limited by [startIndex]. From [1; 1; 1; 1; 2] to [1; 1; 2] the prefix
    is [1; 1] and the loop counts the suffix [1; 1; 2]: the edit deletes
    one element at index 2, and applying it gives [1; 1; 1; 2]. In the
    other direction the edit has the delete count -1. *)
Theorem computeDiff_overlap :
  computeDiff [1; 1; 1; 1; 2] [1; 1; 2] = [mkEdit 2 1 (Some [])]
  ∧ applyEdits [1; 1; 1; 1; 2] (computeDiff [1; 1; 1; 1; 2] [1; 1; 2]) = [1; 1; 1; 2]
  ∧ applyEdits [1; 1; 1; 1; 2] (computeDiff [1; 1; 1; 1; 2] [1; 1; 2]) ≠ [1; 1; 2]
  ∧ computeDiff [1; 1; 2] [1; 1; 1; 1; 2] = [mkEdit 2 (-1) (Some [1])].
Proof.
  split; [by vm_compute|]. split; [by vm_compute|].
  split; [by vm_compute|]. by vm_compute.
Qed.

End SemanticTokensFacts.

(** ** Bytes, lines and numbers *)

Module BytesFacts.
Import Bytes Wire.

Lemma starts_with_length p : ∀ l,
  starts_with p l = true → (length p ≤ length l)%nat.
Proof.
  induction p as [|a p IH]; intros [|b l] H; simpl in *; try lia; try done.
  apply andb_true_iff in H as [_ H]. apply IH in H. lia.
Qed.

Lemma starts_with_app p : ∀ l x,
  starts_with p l = true → starts_with p (l ++ x) = true.
Proof.
  induction p as [|a p IH]; intros [|b l] x H; simpl in *; try done.
  apply andb_true_iff in H as [H1 H2]. rewrite H1. simpl. by apply IH.
Qed.

Lemma starts_with_app_false p : ∀ l x,
  starts_with p l = false → (length p ≤ length l)%nat →
  starts_with p (l ++ x) = false.
Proof.
  induction p as [|a p IH]; intros [|b l] x H Hlen; simpl in *; try done; try lia.
  apply andb_false_iff in H as [H|H].
  - by rewrite H.
  - rewrite (IH l x H) by lia. apply andb_false_r.
Qed.

Lemma starts_with_self p r : starts_with p (p ++ r) = true.
Proof.
  induction p as [|a p IH]; simpl; [done|].
  by rewrite bool_decide_eq_true_2, IH.
Qed.

Lemma split_at_unfold sep l :
  split_at sep l =
  if starts_with sep l then Some ([], drop (length sep) l)
  else match l with
       | [] => None
       | b :: l' =>
           match split_at sep l' with
           | Some (before, after) => Some (b :: before, after)
           | None => None
           end
       end.
Proof. by destruct l. Qed.

(** What [split_at] finds is made of the part before, the separator and
    the part after. *)
Lemma split_at_Some sep : ∀ l before after,
  split_at sep l = Some (before, after) → l = before ++ sep ++ after.
Proof.
  assert (Hsw : ∀ p l, starts_with p l = true → l = p ++ drop (length p) l).
  { induction p as [|a p IH]; intros [|b l] H; simpl in *; try done.
    apply andb_true_iff in H as [H1 H2]. apply bool_decide_eq_true in H1.
    subst. f_equal. by apply IH. }
  induction l as [|b l IH]; intros before after H; rewrite split_at_unfold in H.
  - destruct (starts_with sep []) eqn:E; [|done].
    inversion H; subst. by apply Hsw in E.
  - destruct (starts_with sep (b :: l)) eqn:E.
    + inversion H; subst. by apply Hsw in E.
    + destruct (split_at sep l) as [[h r]|] eqn:E'; [|done].
      inversion H; subst. simpl. f_equal. by apply IH.
Qed.

Lemma split_at_length sep l before after :
  split_at sep l = Some (before, after) →
  length l = (length before + length sep + length after)%nat.
Proof.
  intros H. apply split_at_Some in H. subst. rewrite !length_app. lia.
Qed.

(** Bytes that arrive later do not change what was found. *)
Lemma split_at_app sep : ∀ l before after x,
  split_at sep l = Some (before, after) →
  split_at sep (l ++ x) = Some (before, after ++ x).
Proof.
  induction l as [|b l IH]; intros before after x H.
  - rewrite split_at_unfold in H.
    destruct (starts_with sep []) eqn:E; [|done].
    inversion H; subst. rewrite split_at_unfold.
    rewrite (starts_with_app _ _ x E).
    apply starts_with_length in E. by rewrite drop_app_le.
  - rewrite split_at_unfold in H. simpl app.
    rewrite (split_at_unfold sep (b :: l ++ x)).
    destruct (starts_with sep (b :: l)) eqn:E.
    + inversion H; subst. change (b :: l ++ x) with ((b :: l) ++ x).
      rewrite (starts_with_app _ _ x E).
      apply starts_with_length in E. by rewrite drop_app_le.
    + destruct (split_at sep l) as [[h r]|] eqn:E'; [|done].
      inversion H; subst.
      change (b :: l ++ x) with ((b :: l) ++ x).
      rewrite starts_with_app_false; [|done|].
      * by rewrite (IH h after x eq_refl).
      * apply split_at_length in E'. simpl. lia.
Qed.

Lemma free_of_cons c b l :
  free_of c (b :: l) = true ↔ b ≠ c ∧ free_of c l = true.
Proof.
  unfold free_of. simpl. rewrite andb_true_iff, bool_decide_eq_true. done.
Qed.

Lemma free_of_app c l1 l2 :
  free_of c (l1 ++ l2) = true ↔ free_of c l1 = true ∧ free_of c l2 = true.
Proof. unfold free_of. rewrite forallb_app, andb_true_iff. done. Qed.

(** A separator is not found inside bytes that lack its first byte. *)
Lemma split_at_skip c sep : ∀ l rest,
  free_of c l = true →
  split_at (c :: sep) (l ++ rest) =
  match split_at (c :: sep) rest with
  | Some (before, after) => Some (l ++ before, after)
  | None => None
  end.
Proof.
  induction l as [|b l IH]; intros rest H.
  - simpl. by destruct (split_at (c :: sep) rest) as [[??]|].
  - apply free_of_cons in H as [Hb Hl]. simpl app.
    rewrite split_at_unfold. simpl starts_with.
    rewrite (bool_decide_eq_false_2 (c = b)) by congruence. simpl.
    rewrite (IH rest Hl). by destruct (split_at (c :: sep) rest) as [[??]|].
Qed.

Lemma split_at_here sep rest : split_at sep (sep ++ rest) = Some ([], rest).
Proof.
  rewrite split_at_unfold, starts_with_self. by rewrite drop_app_length.
Qed.

Lemma split_at_first c sep l rest :
  free_of c l = true →
  split_at (c :: sep) (l ++ (c :: sep) ++ rest) = Some (l, rest).
Proof.
  intros H. rewrite (split_at_skip c sep l _ H), split_at_here.
  by rewrite app_nil_r.
Qed.

(** The end of a line that is followed by another header line is not the
    end of the block. *)
Lemma split_at_block_crlf b l :
  b ≠ CR →
  split_at (CRLF ++ CRLF) (CRLF ++ b :: l) =
  match split_at (CRLF ++ CRLF) (b :: l) with
  | Some (before, after) => Some (CRLF ++ before, after)
  | None => None
  end.
Proof.
  intros Hb. rewrite split_at_unfold.
  change (starts_with (CRLF ++ CRLF) (CRLF ++ b :: l))
    with (bool_decide (CR = CR) && (bool_decide (LF = LF)
          && (bool_decide (CR = b) && starts_with [LF] l))).
  rewrite (bool_decide_eq_false_2 (CR = b)) by congruence.
  rewrite !bool_decide_eq_true_2 by done. simpl andb. cbv iota.
  change (CRLF ++ b :: l) with (CR :: LF :: b :: l). cbv iota.
  rewrite (split_at_unfold _ (LF :: b :: l)).
  change (starts_with (CRLF ++ CRLF) (LF :: b :: l))
    with (bool_decide (CR = LF) && starts_with (LF :: CRLF) (b :: l)).
  rewrite (bool_decide_eq_false_2 (CR = LF)) by done. simpl andb. cbv iota.
  by destruct (split_at (CRLF ++ CRLF) (b :: l)) as [[??]|].
Qed.

Lemma split_lines_line : ∀ l,
  free_of CR l = true → split_lines false l = [l].
Proof.
  induction l as [|b l IH]; intros H; [done|].
  apply free_of_cons in H as [Hb Hl]. simpl.
  rewrite (bool_decide_eq_false_2 (CR = b)) by congruence. simpl.
  by rewrite (IH Hl).
Qed.

Lemma split_lines_crlf : ∀ l rest,
  free_of CR l = true →
  split_lines false (l ++ CRLF ++ rest) = l :: split_lines false rest.
Proof.
  induction l as [|b l IH]; intros rest H.
  - reflexivity.
  - apply free_of_cons in H as [Hb Hl].
    change ((b :: l) ++ CRLF ++ rest) with (b :: (l ++ CRLF ++ rest)).
    cbn [split_lines]. cbn [starts_with CRLF].
    rewrite (bool_decide_eq_false_2 (CR = b)) by congruence. simpl andb. cbv iota.
    by rewrite (IH rest Hl).
Qed.

Lemma digit_cases d : 0 ≤ d < 10 →
  d = 0 ∨ d = 1 ∨ d = 2 ∨ d = 3 ∨ d = 4 ∨ d = 5 ∨ d = 6 ∨ d = 7 ∨ d = 8 ∨ d = 9.
Proof. lia. Qed.

Ltac by_digit H :=
  destruct H as (?d & ?Hd & ->);
  match goal with
  | Hd : 0 ≤ ?d < 10 |- _ =>
      destruct (digit_cases d Hd) as [->|[->|[->|[->|[->|[->|[->|[->|[->| ->]]]]]]]]]
  end.

Lemma digit_value_digit d : 0 ≤ d < 10 → digit_value (digit_byte d) = Some d.
Proof.
  intros Hd.
  destruct (digit_cases d Hd) as [->|[->|[->|[->|[->|[->|[->|[->|[->| ->]]]]]]]]];
    reflexivity.
Qed.

Lemma digit_not_space b : is_digit b → is_space b = false.
Proof. intros H. by_digit H; reflexivity. Qed.

Lemma digit_not_byte b c :
  is_digit b → digit_value c = None ∨ (∃ v, digit_value c = Some v ∧ 10 ≤ v) → b ≠ c.
Proof.
  intros H Hc ->. destruct H as (d & Hd & E).
  rewrite E, digit_value_digit in Hc by done.
  destruct Hc as [Hc | (v & Hc & Hv)]; [done|]. inversion Hc; lia.
Qed.

Lemma decimal_aux_digits fuel : ∀ n acc,
  0 ≤ n → Forall is_digit acc → Forall is_digit (decimal_aux fuel n acc).
Proof.
  induction fuel as [|fuel IH]; intros n acc Hn Hacc; simpl; [done|].
  assert (is_digit (digit_byte (n mod 10))).
  { exists (n mod 10). split; [|done]. apply Z.mod_pos_bound. lia. }
  case_bool_decide.
  - by constructor.
  - apply IH; [|by constructor]. apply Z.div_pos; lia.
Qed.

Lemma decimal_aux_nonempty fuel n acc :
  decimal_aux (S fuel) n acc ≠ [].
Proof.
  revert n acc. induction fuel as [|fuel IH]; intros n acc; simpl.
  - by case_bool_decide.
  - case_bool_decide; [done|]. apply (IH (n / 10)).
Qed.

Lemma decimal_digits n : Forall is_digit (decimal n).
Proof. apply decimal_aux_digits; [lia | constructor]. Qed.

Lemma decimal_nonempty n : decimal n ≠ [].
Proof. apply decimal_aux_nonempty. Qed.

(** Reading the printed digits back. *)
Lemma scan_decimal_aux fuel : ∀ n acc,
  0 ≤ n < Z.of_nat fuel →
  ∃ k, ∀ a, scan_digits 10 (decimal_aux fuel n acc) a
            = scan_digits 10 acc (Some (default 0 a * k + n)).
Proof.
  induction fuel as [|fuel IH]; intros n acc Hn; [lia|].
  simpl decimal_aux. case_bool_decide as Hlt.
  - exists 10. intros a. simpl.
    rewrite Z.mod_small by lia. rewrite digit_value_digit by lia.
    by rewrite bool_decide_eq_true_2 by lia.
  - destruct (IH (n / 10) (digit_byte (n mod 10) :: acc)) as [k Hk].
    { split; [apply Z.div_pos; lia|].
      assert (n / 10 < n) by (apply Z.div_lt; lia). lia. }
    exists (k * 10). intros a. rewrite Hk. simpl.
    assert (0 ≤ n mod 10 < 10) by (apply Z.mod_pos_bound; lia).
    rewrite digit_value_digit by done.
    rewrite bool_decide_eq_true_2 by lia.
    do 2 f_equal. pose proof (Z.div_mod n 10). lia.
Qed.

Lemma scan_decimal n : scan_digits 10 (decimal n) None = Some (Z.of_nat n).
Proof.
  destruct (scan_decimal_aux (S n) (Z.of_nat n) []) as [k Hk]; [lia|].
  unfold decimal. rewrite Hk. simpl. done.
Qed.

Lemma trim_start_id l : Forall is_digit l → trim_start l = l.
Proof.
  intros [|b l' Hb _]; [done|]. simpl. by rewrite digit_not_space.
Qed.

Lemma trim_decimal n : trim (x20 :: decimal n) = decimal n.
Proof.
  unfold trim. simpl. rewrite (trim_start_id (decimal n)) by apply decimal_digits.
  rewrite trim_start_id; [apply rev_involutive|].
  apply List.Forall_rev, decimal_digits.
Qed.

(** [parseInt] reads a printed byte count back. *)
Lemma parseInt_decimal n :
  Z.of_nat n ≤ JsNumber.MAX_SAFE_INTEGER →
  parseInt (string_of_list_byte (decimal n)) = Some (Z.of_nat n).
Proof.
  intros Hn. unfold parseInt. rewrite list_byte_of_string_of_list_byte.
  rewrite trim_start_id by apply decimal_digits.
  pose proof (decimal_digits n) as Hd. pose proof (decimal_nonempty n) as Hne.
  pose proof (scan_decimal n) as Hs.
  destruct (decimal n) as [|b l]; [done|].
  inversion Hd as [|?? Hb Hl]; subst.
  rewrite (bool_decide_eq_false_2 (b = x2d))
    by (apply digit_not_byte; [done | by left]).
  rewrite (bool_decide_eq_false_2 (b = x2b))
    by (apply digit_not_byte; [done | by left]).
  assert (Hx : starts_with [x30; x78] (b :: l) || starts_with [x30; x58] (b :: l) = false).
  { destruct l as [|c l]; simpl; [by rewrite !andb_false_r|].
    inversion Hl as [|?? Hc _]; subst.
    rewrite (bool_decide_eq_false_2 (x78 = c))
      by (apply not_eq_sym, digit_not_byte; [done | by left]).
    rewrite (bool_decide_eq_false_2 (x58 = c))
      by (apply not_eq_sym, digit_not_byte; [done | by left]).
    by rewrite !andb_false_r. }
  rewrite Hx, Hs. f_equal.
  rewrite JsNumberFacts.to_double_exact; unfold JsNumber.MAX_SAFE_INTEGER in Hn; lia.
Qed.

Lemma digits_free_of c l :
  Forall is_digit l → digit_value c = None → free_of c l = true.
Proof.
  induction 1 as [|b l Hb _ IH]; intros Hc; [done|].
  apply free_of_cons. split; [|by apply IH].
  apply digit_not_byte; [done | by left].
Qed.

End BytesFacts.

(** ** Framing *)

Module FramingFacts.
Import Bytes Wire MessageReader Framing BytesFacts.

Lemma tryReadHeaders_app buffer headers rest x :
  tryReadHeaders buffer = Some (headers, rest) →
  tryReadHeaders (buffer ++ x) = Some (headers, rest ++ x).
Proof.
  unfold tryReadHeaders. intros H.
  destruct (split_at (CRLF ++ CRLF) buffer) as [[block r]|] eqn:E; [|done].
  inversion H; subst. by rewrite (split_at_app _ _ _ _ x E).
Qed.

Lemma tryReadHeaders_shorter buffer headers rest :
  tryReadHeaders buffer = Some (headers, rest) →
  (length rest < length buffer)%nat.
Proof.
  unfold tryReadHeaders. intros H.
  destruct (split_at (CRLF ++ CRLF) buffer) as [[block r]|] eqn:E; [|done].
  inversion H; subst. apply split_at_length in E. simpl in E. lia.
Qed.

Lemma tryReadBody_app buffer len body rest x :
  tryReadBody buffer len = Some (body, rest) →
  tryReadBody (buffer ++ x) len = Some (body, rest ++ x).
Proof.
  unfold tryReadBody. intros H. case_bool_decide as Hlen; [done|].
  inversion H; subst.
  rewrite bool_decide_eq_false_2 by (rewrite length_app; lia).
  assert (Z.to_nat len ≤ length buffer)%nat by lia.
  by rewrite take_app_le, drop_app_le.
Qed.

Lemma tryReadBody_shorter buffer len body rest :
  tryReadBody buffer len = Some (body, rest) →
  (length rest ≤ length buffer)%nat.
Proof.
  unfold tryReadBody. intros H. case_bool_decide; [done|].
  inversion H; subst. rewrite length_drop. lia.
Qed.

Lemma tryReadBody_None buffer len :
  tryReadBody buffer len = None → Z.of_nat (length buffer) < len.
Proof. unfold tryReadBody. by case_bool_decide. Qed.

Lemma tryReadBody_exact body rest :
  tryReadBody (body ++ rest) (Z.of_nat (length body)) = Some (body, rest).
Proof.
  unfold tryReadBody.
  rewrite bool_decide_eq_false_2 by (rewrite length_app; lia).
  rewrite Nat2Z.id. by rewrite take_app_length, drop_app_length.
Qed.

Lemma readLength_app next buffer x :
  match readLength next buffer with
  | NeedMoreHeader => True
  | Throw message rest => readLength next (buffer ++ x) = Throw message (rest ++ x)
  | KnownLength len rest => readLength next (buffer ++ x) = KnownLength len (rest ++ x)
  end.
Proof.
  unfold readLength. case_bool_decide; [|done].
  destruct (tryReadHeaders buffer) as [[hs rest]|] eqn:E; [|done].
  rewrite (tryReadHeaders_app _ _ _ x E).
  destruct (hs !! "Content-Length"%string) as [v|]; [|done].
  case_bool_decide; [done|]. by destruct (parseInt v).
Qed.

Lemma readLength_shorter next buffer :
  match readLength next buffer with
  | NeedMoreHeader => True
  | Throw _ rest => (length rest ≤ length buffer)%nat
  | KnownLength len rest => (Framing.measure (-1) rest < Framing.measure next buffer)%nat
                            ∨ (next ≠ -1 ∧ len = next ∧ rest = buffer)
  end.
Proof.
  unfold readLength, Framing.measure. case_bool_decide as Hn.
  - destruct (tryReadHeaders buffer) as [[hs rest]|] eqn:E; [|done].
    apply tryReadHeaders_shorter in E.
    destruct (hs !! "Content-Length"%string) as [v|]; [|lia].
    case_bool_decide; [lia|]. destruct (parseInt v); [|lia].
    left. rewrite bool_decide_eq_true_2 by done. lia.
  - by right.
Qed.

(** Enough fuel: the loop ends. *)
Lemma extract_total fuel : ∀ next buffer,
  (Framing.measure next buffer < fuel)%nat → is_Some (extract fuel next buffer).
Proof.
  induction fuel as [|fuel IH]; intros next buffer Hm; [lia|].
  simpl. pose proof (readLength_shorter next buffer) as Hs.
  destruct (readLength next buffer) as [| |len rest]; [done|done|].
  destruct (tryReadBody rest len) as [[body rest']|] eqn:Eb; [|done].
  apply tryReadBody_shorter in Eb.
  destruct (IH (-1) rest') as [e He]; [|by rewrite He].
  unfold Framing.measure in *. rewrite bool_decide_eq_true_2 in * by done.
  destruct Hs as [Hs|(Hn & -> & ->)].
  - lia.
  - rewrite bool_decide_eq_false_2 in Hm by done. lia.
Qed.

(** More fuel changes nothing. *)
Lemma extract_more_fuel fuel : ∀ next buffer e fuel',
  extract fuel next buffer = Some e → (fuel ≤ fuel')%nat →
  extract fuel' next buffer = Some e.
Proof.
  induction fuel as [|fuel IH]; intros next buffer e fuel' H Hle; [done|].
  destruct fuel' as [|fuel']; [lia|]. simpl in *.
  destruct (readLength next buffer) as [| |len rest]; [done|done|].
  destruct (tryReadBody rest len) as [[body rest']|]; [|done].
  destruct (extract fuel (-1) rest') as [e'|] eqn:E; [|done].
  rewrite (IH _ _ e' fuel' E) by lia. done.
Qed.

Lemma extract_det fuel fuel' next buffer e e' :
  extract fuel next buffer = Some e → extract fuel' next buffer = Some e' → e = e'.
Proof.
  intros H H'. destruct (decide (fuel ≤ fuel')%nat).
  - rewrite (extract_more_fuel _ _ _ _ _ H) in H' by done. congruence.
  - rewrite (extract_more_fuel _ _ _ _ _ H') in H by lia. congruence.
Qed.

Lemma extract_enough next buffer :
  is_Some (extract (enough next buffer) next buffer).
Proof.
  apply extract_total. unfold Framing.measure, enough. case_bool_decide; lia.
Qed.

(** With the length known, the header step is the identity. *)
Lemma extract_known fuel next buffer len rest :
  readLength next buffer = KnownLength len rest →
  len ≠ -1 →
  extract fuel next buffer = extract fuel len rest.
Proof.
  intros H Hlen. destruct fuel as [|fuel]; [done|]. simpl. rewrite H.
  unfold readLength. by rewrite bool_decide_eq_false_2.
Qed.

(** Chunking: when the loop has stopped without an error on a buffer,
    feeding it the next bytes takes up where it stopped, and the two calls
    together do what one call does on all the bytes; when it has thrown,
    one call on all the bytes throws at the same place. *)
Lemma extract_app fuel : ∀ next buffer e x,
  extract fuel next buffer = Some e →
  match ex_thrown e with
  | Some message =>
      ∃ fuel', extract fuel' next (buffer ++ x)
               = Some (mkExtracted (ex_bodies e) (ex_next e) (ex_buffer e ++ x)
                         (Some message))
  | None =>
      ∀ fuel2 e2, extract fuel2 (ex_next e) (ex_buffer e ++ x) = Some e2 →
      ∃ fuel', extract fuel' next (buffer ++ x)
               = Some (mkExtracted (ex_bodies e ++ ex_bodies e2) (ex_next e2)
                         (ex_buffer e2) (ex_thrown e2))
  end.
Proof.
  induction fuel as [|fuel IH]; intros next buffer e x H; [done|].
  simpl in H. pose proof (readLength_app next buffer x) as Happ.
  destruct (readLength next buffer) as [|message rest|len rest] eqn:Er.
  - inversion H; subst; simpl. intros fuel2 e2 H2. exists fuel2.
    rewrite H2. by destruct e2.
  - inversion H; subst; simpl. exists 1%nat. simpl. by rewrite Happ.
  - destruct (tryReadBody rest len) as [[body rest']|] eqn:Eb.
    + destruct (extract fuel (-1) rest') as [e'|] eqn:E; [|done].
      inversion H; subst; simpl. specialize (IH _ _ _ x E).
      pose proof (tryReadBody_app _ _ _ _ x Eb) as Eb'.
      destruct (ex_thrown e') as [message|].
      * destruct IH as [fuel' IH]. exists (S fuel'). simpl.
        by rewrite Happ, Eb', IH.
      * intros fuel2 e2 H2. destruct (IH fuel2 e2 H2) as [fuel' IH'].
        exists (S fuel'). simpl. by rewrite Happ, Eb', IH'.
    + inversion H; subst; simpl. intros fuel2 e2 H2. exists fuel2.
      apply tryReadBody_None in Eb.
      rewrite (extract_known fuel2 next (buffer ++ x) len (rest ++ x)) by (done || lia).
      rewrite H2. by destruct e2.
Qed.

(** The header block of a framed message, read back. *)
Lemma content_length_line_free f : free_of CR (content_length_line f) = true.
Proof.
  unfold content_length_line. apply free_of_app. split; [reflexivity|].
  apply digits_free_of; [apply decimal_digits | reflexivity].
Qed.

Lemma content_type_line_free value :
  free_of CR value = true → free_of CR (content_type_line value) = true.
Proof. intros H. apply free_of_app. by split. Qed.

Lemma content_type_line_cons value rest :
  content_type_line value ++ rest
  = x43 :: (list_byte_of_string "ontent-Type: " ++ value ++ rest).
Proof. reflexivity. Qed.

Lemma split_header_block f rest :
  well_framed f →
  split_at (CRLF ++ CRLF) (encode_frame f ++ rest)
  = Some (header_block f, body f ++ rest).
Proof.
  intros [_ Hwf]. unfold encode_frame, header_block in *.
  set (sep := LF :: CRLF).
  change (CRLF ++ CRLF) with (CR :: sep).
  destruct (content_type f) as [value|].
  - rewrite <- !app_assoc.
    rewrite (split_at_skip CR _ _ _ (content_length_line_free f)).
    rewrite content_type_line_cons.
    change (CR :: sep) with (CRLF ++ CRLF).
    rewrite split_at_block_crlf by done.
    rewrite <- content_type_line_cons.
    change (CRLF ++ CRLF) with (CR :: sep).
    change (CRLF ++ CRLF ++ body f ++ rest) with ((CR :: sep) ++ body f ++ rest).
    by rewrite (split_at_first CR _ _ _ (content_type_line_free _ Hwf)).
  - rewrite app_nil_r, <- !app_assoc.
    change (CRLF ++ CRLF ++ body f ++ rest) with ((CR :: sep) ++ body f ++ rest).
    by rewrite (split_at_first CR _ _ _ (content_length_line_free f)).
Qed.

Lemma parse_content_length f :
  parse_header (content_length_line f)
  = Some ("Content-Length"%string, string_of_list_byte (decimal (length (body f)))).
Proof.
  unfold parse_header, content_length_line.
  change (list_byte_of_string "Content-Length: " ++ decimal (length (body f)))
    with (list_byte_of_string "Content-Length" ++ [x3a] ++
            (x20 :: decimal (length (body f)))).
  rewrite split_at_first by reflexivity.
  by rewrite trim_decimal.
Qed.

Lemma parse_content_type value :
  ∃ v, parse_header (content_type_line value) = Some ("Content-Type"%string, v).
Proof.
  unfold parse_header, content_type_line.
  change (list_byte_of_string "Content-Type: " ++ value)
    with (list_byte_of_string "Content-Type" ++ [x3a] ++ (x20 :: value)).
  rewrite split_at_first by reflexivity. eauto.
Qed.

Lemma tryReadHeaders_frame f rest :
  well_framed f →
  ∃ headers,
    tryReadHeaders (encode_frame f ++ rest) = Some (headers, body f ++ rest)
    ∧ headers !! "Content-Length"%string
      = Some (string_of_list_byte (decimal (length (body f)))).
Proof.
  intros Hwf. unfold tryReadHeaders. rewrite (split_header_block f rest Hwf).
  eexists; split; [reflexivity|].
  destruct Hwf as [_ Hwf]. unfold header_block in *.
  destruct (content_type f) as [value|].
  - rewrite (split_lines_crlf _ _ (content_length_line_free f)).
    rewrite split_lines_line by by apply content_type_line_free.
    simpl. unfold add_header. rewrite parse_content_length.
    destruct (parse_content_type value) as [v ->].
    rewrite lookup_insert_ne by done. apply lookup_insert_eq.
  - rewrite app_nil_r, (split_lines_line _ (content_length_line_free f)).
    simpl. unfold add_header. rewrite parse_content_length.
    apply lookup_insert_eq.
Qed.

Lemma readLength_frame f rest :
  well_framed f →
  readLength (-1) (encode_frame f ++ rest)
  = KnownLength (Z.of_nat (length (body f))) (body f ++ rest).
Proof.
  intros Hwf. unfold readLength. rewrite bool_decide_eq_true_2 by done.
  destruct (tryReadHeaders_frame f rest Hwf) as (hs & -> & ->).
  rewrite parseInt_decimal by apply Hwf. rewrite bool_decide_eq_false_2; [done|].
  pose proof (decimal_nonempty (length (body f))).
  by destruct (decimal (length (body f))).
Qed.

(** One call on framed messages takes out their bodies, in order. *)
Lemma extract_frames fs :
  Forall well_framed fs →
  ∃ fuel, extract fuel (-1) (encode_frames fs)
          = Some (mkExtracted (body <$> fs) (-1) [] None).
Proof.
  induction 1 as [|f fs Hf _ [fuel IH]].
  - by exists 1%nat.
  - exists (S fuel). unfold encode_frames in *. rewrite fmap_cons.
    cbn [concat extract].
    rewrite (readLength_frame f _ Hf), tryReadBody_exact. by rewrite IH.
Qed.

(** Framed messages before other bytes: their bodies are taken out first. *)
Lemma extract_frames_then fs : ∀ rest fuel e,
  Forall well_framed fs →
  extract fuel (-1) rest = Some e →
  ∃ fuel', extract fuel' (-1) (encode_frames fs ++ rest)
           = Some (mkExtracted ((body <$> fs) ++ ex_bodies e) (ex_next e)
                     (ex_buffer e) (ex_thrown e)).
Proof.
  induction fs as [|f fs IH]; intros rest fuel e Hwf He.
  - exists fuel. simpl. rewrite He. by destruct e.
  - inversion Hwf as [|?? Hf Hfs]; subst.
    destruct (IH rest fuel e Hfs He) as [fuel' IH'].
    exists (S fuel'). unfold encode_frames in *. rewrite fmap_cons.
    cbn [concat extract]. rewrite <- app_assoc.
    rewrite (readLength_frame f _ Hf), tryReadBody_exact. by rewrite IH'.
Qed.

End FramingFacts.
(** ** The reader *)

Module ReaderFacts.
Import Bytes Wire MessageReader Framing Observe Traces BytesFacts FramingFacts.

Section Facts.
Context {Message : Type} (json : @ContentTypeDecoder Message).

#[local] Abbreviation Reader := (@ReadableStreamMessageReader Message).
#[local] Abbreviation World := (@World Message).

Lemma clearPartialMessageTimer_same (r : Reader) h :
  same_but_timer r (clearPartialMessageTimer r h).1
  ∧ clock (clearPartialMessageTimer r h).2 = clock h.
Proof.
  unfold clearPartialMessageTimer, same_but_timer.
  by destruct (partialMessageTimer r).
Qed.

Lemma setPartialMessageTimer_same (r : Reader) h :
  same_but_timer r (setPartialMessageTimer r h).1
  ∧ clock (setPartialMessageTimer r h).2 = clock h.
Proof.
  unfold setPartialMessageTimer.
  pose proof (clearPartialMessageTimer_same r h) as [Hs Hc].
  destruct (clearPartialMessageTimer r h) as [r1 h1]. simpl in *.
  case_bool_decide; [done|]. simpl. unfold same_but_timer in *. simpl. done.
Qed.

(** The loop of [onData] ends whenever [extract] does: every call of
    [onData] returns or throws. *)
Lemma onData_loop_total fuel : ∀ (r : Reader) h,
  is_Some (extract fuel (nextMessageLength r) (buffer r)) →
  is_Some (onData_loop fuel r h).
Proof.
  induction fuel as [|fuel IH]; intros r h; [by intros [? ?]|].
  cbn [extract onData_loop].
  destruct (readLength (nextMessageLength r) (buffer r)) as [|message rest|len rest];
    [done|done|].
  cbn [buffer nextMessageLength set_nextMessageLength set_buffer].
  destruct (tryReadBody rest len) as [[body rest']|].
  - intros He. apply fmap_is_Some in He.
    set (r1 := set_buffer rest' (set_nextMessageLength len (set_buffer rest r))).
    pose proof (clearPartialMessageTimer_same r1 h) as [Hs _].
    destruct (clearPartialMessageTimer r1 h) as [r2 h2]. simpl in Hs.
    destruct Hs as (_ & _ & _ & _ & _ & _ & H7 & _).
    destruct (startDecode _ body); [|done].
    specialize (IH (set_nextMessageLength (-1) r2) h2).
    cbn [buffer nextMessageLength set_nextMessageLength] in IH.
    rewrite H7 in IH. destruct (IH He) as [res ->]. done.
  - intros _. by destruct (setPartialMessageTimer _ _).
Qed.

Lemma onData_total (r : Reader) h chunk : is_Some (onData r h chunk).
Proof.
  unfold onData. apply onData_loop_total. cbn [buffer nextMessageLength set_buffer].
  apply (extract_enough (nextMessageLength r) (buffer r ++ chunk)).
Qed.

(** [onData] leaves the emitters, the options, the token, the timeout and
    the clock alone. *)
Lemma onData_loop_same fuel : ∀ (r : Reader) h res,
  onData_loop fuel r h = Some res →
  errorEmitter (res_reader res) = errorEmitter r
  ∧ closeEmitter (res_reader res) = closeEmitter r
  ∧ partialMessageEmitter (res_reader res) = partialMessageEmitter r
  ∧ options (res_reader res) = options r
  ∧ messageToken (res_reader res) = messageToken r
  ∧ _partialMessageTimeout (res_reader res) = _partialMessageTimeout r
  ∧ clock (res_host res) = clock h.
Proof.
  induction fuel as [|fuel IH]; intros r h res H; [done|].
  cbn [onData_loop] in H.
  destruct (readLength (nextMessageLength r) (buffer r)) as [|message rest|len rest].
  - by inversion H; subst.
  - by inversion H; subst.
  - cbn [buffer nextMessageLength set_nextMessageLength set_buffer] in H.
    destruct (tryReadBody rest len) as [[body rest']|].
    + set (r1 := set_buffer rest' (set_nextMessageLength len (set_buffer rest r))) in *.
      pose proof (clearPartialMessageTimer_same r1 h) as [Hs Hc].
      destruct (clearPartialMessageTimer r1 h) as [r2 h2]. simpl in Hs, Hc.
      destruct Hs as (H1 & H2 & H3 & H4 & H5 & H6 & H7 & H8).
      destruct (startDecode _ body) as [at_once outcome|error].
      * destruct (onData_loop fuel _ _) as [res'|] eqn:E; [|done].
        inversion H; subst. cbn [res_reader res_host].
        destruct (IH _ _ _ E) as (I1 & I2 & I3 & I4 & I5 & I6 & I7).
        cbn [errorEmitter closeEmitter partialMessageEmitter options messageToken
             _partialMessageTimeout set_nextMessageLength] in I1, I2, I3, I4, I5, I6.
        rewrite I1, I2, I3, I4, I5, I6, I7, H1, H2, H3, H4, H6, H8, Hc. done.
      * inversion H; subst. cbn [res_reader res_host].
        cbn [errorEmitter closeEmitter partialMessageEmitter options messageToken
             _partialMessageTimeout set_nextMessageLength].
        rewrite H1, H2, H3, H4, H6, H8, Hc. done.
    + set (r1 := set_nextMessageLength len (set_buffer rest r)) in *.
      pose proof (setPartialMessageTimer_same r1 h) as [Hs Hc].
      destruct (setPartialMessageTimer r1 h) as [r2 h2]. simpl in Hs, Hc.
      destruct Hs as (H1 & H2 & H3 & H4 & H5 & H6 & H7 & H8).
      inversion H; subst. cbn [res_reader res_host].
      rewrite H1, H2, H3, H4, H6, H8, Hc. done.
Qed.

(** As long as no content decoder throws, [onData_loop] computes [extract]
    on the length and the buffer, and makes one promise for each body. *)
Lemma onData_loop_extract fuel : ∀ (r : Reader) h e,
  extract fuel (nextMessageLength r) (buffer r) = Some e →
  Forall (λ body, is_Some (settles (startDecode (options r) body))) (ex_bodies e) →
  ∃ res, onData_loop fuel r h = Some res
    ∧ Forall2 (λ body p, startDecode (options r) body = Returns p.1 p.2)
        (ex_bodies e) (res_promises res)
    ∧ nextMessageLength (res_reader res) = ex_next e
    ∧ buffer (res_reader res) = ex_buffer e
    ∧ res_thrown res = JsError <$> ex_thrown e.
Proof.
  induction fuel as [|fuel IH]; intros r h e He Hd; [done|].
  cbn [extract onData_loop] in *.
  destruct (readLength (nextMessageLength r) (buffer r)) as [|message rest|len rest].
  - inversion He; subst. eexists; split; [reflexivity|]. split; [constructor|done].
  - inversion He; subst. eexists; split; [reflexivity|]. split; [constructor|done].
  - cbn [buffer nextMessageLength set_nextMessageLength set_buffer].
    destruct (tryReadBody rest len) as [[body rest']|].
    + set (r1 := set_buffer rest' (set_nextMessageLength len (set_buffer rest r))).
      pose proof (clearPartialMessageTimer_same r1 h) as [Hs Hc].
      destruct (clearPartialMessageTimer r1 h) as [r2 h2]. simpl in Hs, Hc.
      destruct Hs as (H1 & H2 & H3 & H4 & H5 & H6 & H7 & H8).
      destruct (extract fuel (-1) rest') as [e'|] eqn:E; [|done].
      inversion He; subst e. clear He. cbn [ex_cons ex_bodies] in Hd.
      apply Forall_cons in Hd as [Hb Hd].
      cbn [options set_nextMessageLength]. rewrite H4. cbn [options r1 set_buffer
        set_nextMessageLength].
      destruct (startDecode (options r) body) as [at_once outcome|error] eqn:Es;
        [|by destruct Hb].
      specialize (IH (set_nextMessageLength (-1) r2) h2 e').
      cbn [buffer nextMessageLength set_nextMessageLength options] in IH.
      rewrite H7, H4 in IH. cbn [buffer options r1 set_buffer set_nextMessageLength] in IH.
      destruct (IH E Hd) as (res & -> & I1 & I2 & I3 & I4).
      eexists; split; [reflexivity|]. cbn [res_promises res_reader res_thrown ex_cons
        ex_bodies ex_next ex_buffer ex_thrown].
      split; [by constructor|done].
    + set (r1 := set_nextMessageLength len (set_buffer rest r)).
      pose proof (setPartialMessageTimer_same r1 h) as [Hs Hc].
      destruct (setPartialMessageTimer r1 h) as [r2 h2]. simpl in Hs, Hc.
      destruct Hs as (H1 & H2 & H3 & H4 & H5 & H6 & H7 & H8).
      inversion He; subst. eexists; split; [reflexivity|].
      cbn [res_promises res_reader res_thrown ex_bodies ex_next ex_buffer ex_thrown].
      rewrite H5, H7. split; [constructor|done].
Qed.

Lemma same_but_timer_refl (r : Reader) : same_but_timer r r.
Proof. by unfold same_but_timer. Qed.

Lemma same_but_timer_trans (r1 r2 r3 : Reader) :
  same_but_timer r1 r2 → same_but_timer r2 r3 → same_but_timer r1 r3.
Proof.
  unfold same_but_timer.
  intros (A1 & A2 & A3 & A4 & A5 & A6 & A7 & A8) (B1 & B2 & B3 & B4 & B5 & B6 & B7 & B8).
  rewrite B1, B2, B3, B4, B5, B6, B7, B8. done.
Qed.

(** *** The reactions *)

Lemma callbacks_app (a b : list (Output Message)) :
  callbacks (a ++ b) = callbacks a ++ callbacks b.
Proof. apply omap_app. Qed.

Lemma errors_app (a b : list (Output Message)) :
  errors (a ++ b) = errors a ++ errors b.
Proof. apply omap_app. Qed.

Lemma fireError_same (r r' : Reader) error :
  errorEmitter r' = errorEmitter r → fireError r' error = fireError r error.
Proof. unfold fireError. by intros ->. Qed.

Lemma onContent_same (r r' : Reader) outcome :
  options r' = options r → errorEmitter r' = errorEmitter r →
  onContent r' outcome = onContent r outcome.
Proof. unfold onContent, fireError. by intros -> ->. Qed.

Lemma onMessage_same (r r' : Reader) outcome :
  errorEmitter r' = errorEmitter r → onMessage r' outcome = onMessage r outcome.
Proof. unfold onMessage, fireError. by intros ->. Qed.

Lemma runJobs_same (r r' : Reader) promises :
  options r' = options r → errorEmitter r' = errorEmitter r →
  runJobs r' promises = runJobs r promises.
Proof.
  intros Ho He. unfold runJobs.
  assert (onContent r' <$> settled_now promises = onContent r <$> settled_now promises)
    as ->.
  { apply list_fmap_ext. intros _ c _. by apply onContent_same. }
  do 3 f_equal. apply list_fmap_ext. intros _ c _. by apply onMessage_same.
Qed.

(** The reactions call the callback and fire the error event, and nothing
    else; on a disposed reader they call the callback only. *)
Lemma fireError_deliveries (r : Reader) error :
  Forall (λ o, is_delivery o = true) (fireError r error).
Proof. unfold fireError, emitter_fire. destruct (disposed _); repeat constructor. Qed.

Lemma onMessage_deliveries (r : Reader) outcome :
  Forall (λ o, is_delivery o = true) (onMessage r outcome).
Proof.
  destruct outcome; [repeat constructor|apply fireError_deliveries].
Qed.

Lemma onContent_deliveries (r : Reader) outcome :
  Forall (λ o, is_delivery o = true) (onContent r outcome).1.
Proof.
  destruct outcome as [value|error]; [|apply fireError_deliveries].
  cbn [onContent]. destruct (ctd_decode _ _ _); constructor.
Qed.

Lemma runJobs_deliveries (r : Reader) promises :
  Forall (λ o, is_delivery o = true) (runJobs r promises).1.
Proof.
  unfold runJobs. cbn [fst]. apply Forall_app_2; apply Forall_concat, Forall_fmap.
  - apply Forall_fmap, Forall_forall. intros c _. apply onContent_deliveries.
  - apply Forall_forall. intros c _. apply onMessage_deliveries.
Qed.

Lemma fireError_disposed (r : Reader) error :
  disposed (errorEmitter r) = true → fireError r error = [].
Proof. unfold fireError, emitter_fire. by intros ->. Qed.

Lemma onContent_disposed (r : Reader) outcome :
  disposed (errorEmitter r) = true →
  Forall (λ o, is_Some (callback_of o)) (onContent r outcome).1.
Proof.
  intros Hd. destruct outcome as [value|error]; cbn [onContent].
  - destruct (ctd_decode _ _ _); constructor.
  - rewrite fireError_disposed by done. constructor.
Qed.

Lemma onMessage_disposed (r : Reader) outcome :
  disposed (errorEmitter r) = true →
  Forall (λ o, is_Some (callback_of o)) (onMessage r outcome).
Proof.
  intros Hd. destruct outcome as [msg|error]; cbn [onMessage].
  - repeat constructor. by eexists.
  - rewrite fireError_disposed by done. constructor.
Qed.

Lemma runJobs_disposed (r : Reader) promises :
  disposed (errorEmitter r) = true →
  Forall (λ o, is_Some (callback_of o)) (runJobs r promises).1.
Proof.
  intros Hd. unfold runJobs. cbn [fst].
  apply Forall_app_2; apply Forall_concat, Forall_fmap.
  - apply Forall_fmap, Forall_forall. intros c _. by apply onContent_disposed.
  - apply Forall_forall. intros c _. by apply onMessage_disposed.
Qed.

(** Decoders that settle their promises at once: the job queue is empty
    when the task ends, the callback has the messages in the order of the
    bodies, and every failure is an error event. *)
Lemma at_once_content (o : @ResolvedMessageReaderOptions Message) body p :
  startDecode o body = Returns p.1 p.2 → at_once o body = true →
  p.1 = true
  ∧ match p.2 with
    | Resolved value =>
        ∃ outcome, ctd_decode (contentTypeDecoder o) value (charset o)
                   = Returns true outcome
                   ∧ decoded o body = match outcome with
                                      | Resolved msg => Some msg
                                      | Rejected _ => None
                                      end
                   ∧ failure o body = match outcome with
                                      | Resolved _ => None
                                      | Rejected error => Some (asError error)
                                      end
    | Rejected error => decoded o body = None ∧ failure o body = Some (asError error)
    end.
Proof.
  unfold at_once, at_once_with, decoded, failure, message_with, failure_with,
    decode_with.
  change (content_with (contentDecoder o) body) with (startDecode o body).
  intros ->. destruct p as [[] [value|error]]; cbn [fst snd settles]; try done.
  destruct (ctd_decode _ _ _) as [[] outcome|]; try done.
  intros _. split; [done|]. exists outcome. cbn [settles]. by destruct outcome.
Qed.

Lemma errors_fireError (r : Reader) error :
  errors (fireError r error) = if disposed (errorEmitter r) then [] else [asError error].
Proof. unfold fireError, emitter_fire. by destruct (disposed _). Qed.

Lemma callbacks_fireError (r : Reader) error : callbacks (fireError r error) = [].
Proof. unfold fireError, emitter_fire. by destruct (disposed _). Qed.

Lemma settled_now_cons {A : Type} (a : bool) (x : A) l :
  settled_now ((a, x) :: l) = if a then x :: settled_now l else settled_now l.
Proof. by destruct a. Qed.

Lemma settled_later_cons {A : Type} (a : bool) (x : A) l :
  settled_later ((a, x) :: l) = if a then settled_later l else x :: settled_later l.
Proof. by destruct a. Qed.

Lemma reactions_at_once (r : Reader) bodies : ∀ promises,
  Forall2 (λ body p, startDecode (options r) body = Returns p.1 p.2) bodies promises →
  Forall (λ body, at_once (options r) body = true) bodies →
  settled_later promises = []
  ∧ settled_later (omap snd (onContent r <$> settled_now promises)) = []
  ∧ callbacks (concat (fst <$> (onContent r <$> settled_now promises))) = []
  ∧ callbacks (concat (onMessage r
                         <$> settled_now (omap snd (onContent r <$> settled_now promises))))
    = omap (decoded (options r)) bodies
  ∧ errors (concat (fst <$> (onContent r <$> settled_now promises)))
    ++ errors (concat (onMessage r
                         <$> settled_now (omap snd (onContent r <$> settled_now promises))))
    ≡ₚ if disposed (errorEmitter r) then [] else omap (failure (options r)) bodies.
Proof.
  induction bodies as [|body bodies IH]; intros promises H2 Ha.
  - inversion H2; subst. cbn. repeat split; try done. by destruct (disposed _).
  - inversion H2 as [|? p ? promises' Hp H2']; subst. clear H2.
    apply Forall_cons in Ha as [Hb Ha].
    destruct (IH promises' H2' Ha) as (I1 & I2 & I3 & I4 & I5). clear IH.
    destruct (at_once_content _ _ _ Hp Hb) as [Hp1 Hp2].
    destruct p as [a c]. cbn [fst snd] in Hp1, Hp2. subst a.
    rewrite settled_now_cons, settled_later_cons, !fmap_cons.
    cbn [omap list_omap concat].
    destruct c as [value|error].
    + destruct Hp2 as (outcome & Hd & Hdec & Hfail).
      cbn [onContent]. rewrite Hd. cbn [fst snd app].
      rewrite settled_now_cons, settled_later_cons, fmap_cons. cbn [concat].
      split; [done|]. split; [done|]. split; [done|].
      rewrite callbacks_app, errors_app, I4, Hdec, Hfail.
      split.
      * destruct outcome as [msg|error]; cbn [onMessage]; [done|].
        by rewrite callbacks_fireError.
      * destruct outcome as [msg|error]; cbn [onMessage]; [done|].
        rewrite errors_fireError. destruct (disposed _); [done|].
        cbn [app]. rewrite <- I5. by rewrite Permutation_middle.
    + destruct Hp2 as [Hdec Hfail]. cbn [onContent fst snd].
      split; [done|]. split; [done|].
      rewrite callbacks_app, errors_app, callbacks_fireError, errors_fireError, I3, Hdec,
        Hfail.
      split; [done|]. split; [done|].
      destruct (disposed _); [done|]. cbn [app]. by rewrite <- I5.
Qed.

Lemma runJobs_at_once (r : Reader) bodies promises :
  Forall2 (λ body p, startDecode (options r) body = Returns p.1 p.2) bodies promises →
  Forall (λ body, at_once (options r) body = true) bodies →
  (runJobs r promises).2 = []
  ∧ callbacks (runJobs r promises).1 = omap (decoded (options r)) bodies
  ∧ errors (runJobs r promises).1
    ≡ₚ if disposed (errorEmitter r) then [] else omap (failure (options r)) bodies.
Proof.
  intros H2 Ha. destruct (reactions_at_once r bodies promises H2 Ha)
    as (I1 & I2 & I3 & I4 & I5).
  unfold runJobs. cbn [fst snd].
  rewrite I1, I2, callbacks_app, errors_app, I3, I4. done.
Qed.

Lemma at_once_settles (o : @ResolvedMessageReaderOptions Message) body :
  at_once o body = true → is_Some (settles (startDecode o body)).
Proof.
  unfold at_once, at_once_with.
  change (content_with (contentDecoder o) body) with (startDecode o body).
  destruct (startDecode o body); [by eexists|done].
Qed.

(** *** Steps *)

(** Every [Data] input is handled: the loop of [onData] has fuel enough. *)
Lemma step_data_any (w : World) chunk :
  ∃ res, onData (reader w) (host w) chunk = Some res
    ∧ step w (Data chunk)
      = Some (mkWorld (res_reader res) (res_host res)
                (pending w ++ (runJobs (res_reader res) (res_promises res)).2)
                (output w ++ (runJobs (res_reader res) (res_promises res)).1)
                (match res_thrown res with
                 | Some error => Some error
                 | None => crashed w
                 end)).
Proof.
  destruct (onData_total (reader w) (host w) chunk) as [res H]. exists res.
  split; [done|]. unfold step. rewrite H. by destruct (runJobs _ _).
Qed.

Lemma step_total (w : World) i : is_Some (step w i).
Proof.
  destruct i; try done. destruct (step_data_any w chunk) as (res & _ & ->). done.
Qed.

Lemma run_total inputs : ∀ w : World, is_Some (run w inputs).
Proof.
  induction inputs as [|i inputs IH]; intros w; simpl; [done|].
  destruct (step_total w i) as [w' ->]. apply IH.
Qed.

(** A [Data] input whose bodies are decoded at once, in terms of
    [extract]. *)
Lemma step_data (w : World) chunk e :
  extract (enough (nextMessageLength (reader w)) (buffer (reader w) ++ chunk))
    (nextMessageLength (reader w)) (buffer (reader w) ++ chunk) = Some e →
  Forall (λ body, at_once (options (reader w)) body = true) (ex_bodies e) →
  ∃ w' out, step w (Data chunk) = Some w'
    ∧ output w' = output w ++ out
    ∧ callbacks out = omap (decoded (options (reader w))) (ex_bodies e)
    ∧ errors out ≡ₚ (if disposed (errorEmitter (reader w)) then []
                     else omap (failure (options (reader w))) (ex_bodies e))
    ∧ Forall (λ o, is_delivery o = true) out
    ∧ pending w' = pending w
    ∧ nextMessageLength (reader w') = ex_next e
    ∧ buffer (reader w') = ex_buffer e
    ∧ crashed w' = match ex_thrown e with
                   | Some message => Some (JsError message)
                   | None => crashed w
                   end
    ∧ errorEmitter (reader w') = errorEmitter (reader w)
    ∧ closeEmitter (reader w') = closeEmitter (reader w)
    ∧ partialMessageEmitter (reader w') = partialMessageEmitter (reader w)
    ∧ options (reader w') = options (reader w)
    ∧ messageToken (reader w') = messageToken (reader w)
    ∧ _partialMessageTimeout (reader w') = _partialMessageTimeout (reader w)
    ∧ clock (host w') = clock (host w).
Proof.
  intros He Ha. destruct (step_data_any w chunk) as (res & Hres & ->).
  unfold onData in Hres. unfold enough in He.
  destruct (onData_loop_same _ _ _ _ Hres) as (S1 & S2 & S3 & S4 & S5 & S6 & S7).
  cbn [errorEmitter closeEmitter partialMessageEmitter options messageToken
       _partialMessageTimeout set_buffer] in S1, S2, S3, S4, S5, S6.
  destruct (onData_loop_extract
              (length (buffer (set_buffer (buffer (reader w) ++ chunk) (reader w))) + 2)
              (set_buffer (buffer (reader w) ++ chunk) (reader w)) (host w) e)
    as (res' & Hres' & I1 & I2 & I3 & I4).
  { exact He. }
  { cbn [options set_buffer]. eapply Forall_impl; [exact Ha|].
    intros body. apply at_once_settles. }
  rewrite Hres in Hres'. inversion Hres'; subst res'. clear Hres'.
  cbn [options set_buffer] in I1.
  destruct (runJobs_at_once (res_reader res) (ex_bodies e) (res_promises res))
    as (J1 & J2 & J3).
  { by rewrite S4. }
  { by rewrite S4. }
  eexists _, (runJobs (res_reader res) (res_promises res)).1.
  split; [reflexivity|]. cbn [reader host output pending crashed].
  rewrite J1, J2, S1, S2, S3, S4, S5, S6, S7, I2, I3, I4, app_nil_r.
  rewrite S1, S4 in J3.
  split; [done|]. split; [done|]. split; [done|].
  split; [apply runJobs_deliveries|]. split; [done|]. split; [done|]. split; [done|].
  split; [by destruct (ex_thrown e)|]. done.
Qed.

(** Time: the timers leave all but the timer handle alone, and put out
    partial-message events only. *)

Lemma only_partials_app (a b : list (Output Message)) :
  only_partials a → only_partials b → only_partials (a ++ b).
Proof. apply Forall_app_2. Qed.

Lemma firePartialMessage_partials (r : Reader) token waitingTime :
  only_partials (firePartialMessage r token waitingTime).
Proof.
  unfold firePartialMessage, emitter_fire, only_partials.
  destruct (disposed _); repeat constructor. by eexists.
Qed.

Lemma timer_callback_same token timeout (r : Reader) h :
  same_but_timer r (timer_callback token timeout r h).1.1
  ∧ clock (timer_callback token timeout r h).1.2 = clock h
  ∧ only_partials (timer_callback token timeout r h).2.
Proof.
  unfold timer_callback. case_bool_decide.
  - pose proof (setPartialMessageTimer_same (set_partialMessageTimer None r) h)
      as [Hs Hc].
    destruct (setPartialMessageTimer (set_partialMessageTimer None r) h) as [r' h'].
    simpl in *. split; [|split]; [|done|apply firePartialMessage_partials].
    eapply same_but_timer_trans; [|exact Hs]. by unfold same_but_timer.
  - simpl. split; [by unfold same_but_timer|]. split; [done|constructor].
Qed.

Lemma fire_timer_same (w : World) t :
  same_but_timer (reader w) (reader (fire_timer w t))
  ∧ clock (host (fire_timer w t)) = clock (host w)
  ∧ crashed (fire_timer w t) = crashed w
  ∧ ∃ ps, output (fire_timer w t) = output w ++ ps ∧ only_partials ps.
Proof.
  unfold fire_timer. case_bool_decide.
  - pose proof (timer_callback_same (timer_token t) (timer_timeout t) (reader w)
                  (clearTimeout (host w) (timer_handle t))) as (Hs & Hc & Hp).
    destruct (timer_callback (timer_token t) (timer_timeout t) (reader w)
                (clearTimeout (host w) (timer_handle t))) as [[r h] out].
    simpl in *.
    split; [done|]. split; [done|]. split; [done|]. by exists out.
  - split; [apply same_but_timer_refl|]. split; [done|]. split; [done|].
    exists []. split; [by rewrite app_nil_r | constructor].
Qed.

Lemma fire_timers_same ts : ∀ w : World,
  same_but_timer (reader w) (reader (foldl fire_timer w ts))
  ∧ clock (host (foldl fire_timer w ts)) = clock (host w)
  ∧ crashed (foldl fire_timer w ts) = crashed w
  ∧ ∃ ps, output (foldl fire_timer w ts) = output w ++ ps ∧ only_partials ps.
Proof.
  induction ts as [|t ts IH]; intros w; simpl.
  - split; [apply same_but_timer_refl|]. split; [done|]. split; [done|].
    exists []. split; [by rewrite app_nil_r | constructor].
  - destruct (fire_timer_same w t) as (S1 & C1 & K1 & ps1 & O1 & P1).
    destruct (IH (fire_timer w t)) as (S2 & C2 & K2 & ps2 & O2 & P2).
    split; [by eapply same_but_timer_trans|]. split; [congruence|].
    split; [congruence|]. exists (ps1 ++ ps2).
    split; [by rewrite O2, O1, app_assoc | by apply only_partials_app].
Qed.

Lemma tick_same (w : World) :
  same_but_timer (reader w) (reader (tick w))
  ∧ clock (host (tick w)) = clock (host w) + 1
  ∧ crashed (tick w) = crashed w
  ∧ ∃ ps, output (tick w) = output w ++ ps ∧ only_partials ps.
Proof.
  unfold tick.
  set (w0 := mkWorld (reader w) _ (pending w) (output w) (crashed w)).
  set (due := filter _ _).
  destruct (fire_timers_same due w0) as (S1 & C1 & K1 & ps & O1 & P1).
  split; [exact S1|]. split; [exact C1|]. split; [exact K1|]. by exists ps.
Qed.

Lemma elapse_same ms : ∀ w : World,
  same_but_timer (reader w) (reader (elapse ms w))
  ∧ clock (host (elapse ms w)) = clock (host w) + Z.of_nat ms
  ∧ crashed (elapse ms w) = crashed w
  ∧ ∃ ps, output (elapse ms w) = output w ++ ps ∧ only_partials ps.
Proof.
  induction ms as [|ms IH]; intros w.
  - simpl. split; [apply same_but_timer_refl|]. split; [lia|]. split; [done|].
    exists []. split; [by rewrite app_nil_r | constructor].
  - cbn [elapse].
    destruct (tick_same w) as (S1 & C1 & K1 & ps1 & O1 & P1).
    destruct (IH (tick w)) as (S2 & C2 & K2 & ps2 & O2 & P2).
    split; [by eapply same_but_timer_trans|]. split; [lia|].
    split; [congruence|]. exists (ps1 ++ ps2).
    split; [by rewrite O2, O1, app_assoc | by apply only_partials_app].
Qed.

(** Time settles no promise. *)
Lemma fire_timer_pending (w : World) t : pending (fire_timer w t) = pending w.
Proof.
  unfold fire_timer. case_bool_decide; [|done].
  by destruct (timer_callback _ _ _ _) as [[r h] out].
Qed.

Lemma tick_pending (w : World) : pending (tick w) = pending w.
Proof.
  unfold tick.
  set (w0 := mkWorld (reader w) _ (pending w) (output w) (crashed w)).
  set (due := filter _ _).
  change (pending w) with (pending w0). generalize w0. clear.
  induction due as [|t due IH]; intros w1; [done|].
  simpl. by rewrite IH, fire_timer_pending.
Qed.

Lemma elapse_pending ms : ∀ w : World, pending (elapse ms w) = pending w.
Proof.
  induction ms as [|ms IH]; intros w; [done|].
  cbn [elapse]. by rewrite IH, tick_pending.
Qed.

Lemma deliveries_app (a b : list (Output Message)) :
  deliveries (a ++ b) = deliveries a ++ deliveries b.
Proof. apply List.filter_app. Qed.

Lemma deliveries_partials (ps : list (Output Message)) :
  only_partials ps → deliveries ps = [].
Proof.
  induction 1 as [|o ps [x Ho] _ IH]; [done|].
  destruct o; done.
Qed.

Lemma callbacks_partials (ps : list (Output Message)) :
  only_partials ps → callbacks ps = [].
Proof.
  induction 1 as [|o ps [x Ho] _ IH]; [done|].
  destruct o; done.
Qed.

Lemma errors_partials (ps : list (Output Message)) :
  only_partials ps → errors ps = [].
Proof.
  induction 1 as [|o ps [x Ho] _ IH]; [done|].
  destruct o; done.
Qed.


(** Where the loop stops. *)
Lemma extract_stopped fuel : ∀ next buffer e,
  extract fuel next buffer = Some e → ex_thrown e = None →
  stopped (ex_next e) (ex_buffer e).
Proof.
  induction fuel as [|fuel IH]; intros next buffer e H Ht; [done|].
  cbn [extract] in H.
  destruct (readLength next buffer) as [|message rest|len rest] eqn:Er.
  - inversion H; subst. exists 1%nat. cbn [extract ex_next ex_buffer].
    by rewrite Er.
  - by inversion H; subst.
  - destruct (tryReadBody rest len) as [[body rest']|] eqn:Eb.
    + destruct (extract fuel (-1) rest') as [e'|] eqn:E; [|done].
      inversion H; subst. apply (IH _ _ _ E Ht).
    + inversion H; subst. exists 1%nat. cbn [extract ex_next ex_buffer].
      pose proof (tryReadBody_None _ _ Eb).
      unfold readLength. rewrite bool_decide_eq_false_2 by lia. by rewrite Eb.
Qed.

Lemma stopped_start : stopped (-1) [].
Proof. by exists 1%nat. Qed.

Lemma received_cons i (inputs : list Input) :
  received (i :: inputs) = chunk_of i ++ received inputs.
Proof. reflexivity. Qed.

(** The chunks of a run, whatever they are and whenever they come, are
    handled as one call of [onData] on all the bytes would handle them,
    when the bodies are decoded at once. *)
Lemma run_quiet inputs : ∀ (w : World) fuel e,
  stopped (nextMessageLength (reader w)) (buffer (reader w)) →
  Forall quiet inputs →
  extract fuel (nextMessageLength (reader w)) (buffer (reader w) ++ received inputs)
  = Some e →
  ex_thrown e = None →
  Forall (λ body, at_once (options (reader w)) body = true) (ex_bodies e) →
  ∃ w', run w inputs = Some w'
    ∧ crashed w' = crashed w
    ∧ pending w' = pending w
    ∧ nextMessageLength (reader w') = ex_next e
    ∧ buffer (reader w') = ex_buffer e
    ∧ callbacks (output w')
      = callbacks (output w) ++ omap (decoded (options (reader w))) (ex_bodies e)
    ∧ errors (output w')
      ≡ₚ errors (output w)
         ++ (if disposed (errorEmitter (reader w)) then []
             else omap (failure (options (reader w))) (ex_bodies e))
    ∧ options (reader w') = options (reader w)
    ∧ errorEmitter (reader w') = errorEmitter (reader w).
Proof.
  induction inputs as [|i inputs IH]; intros w fuel e Hstop Hq He Ht Ha.
  - unfold received in He. simpl in He. rewrite app_nil_r in He.
    destruct Hstop as [fuel0 H0]. rewrite (extract_det _ _ _ _ _ _ He H0).
    exists w. simpl. rewrite !app_nil_r. repeat split; try done.
    by destruct (disposed _); rewrite app_nil_r.
  - inversion Hq as [|?? Hi Hq']; subst. rewrite received_cons in He.
    destruct i as [chunk| | |ms|timeout| |]; try done; cbn [chunk_of] in He.
    + (* bytes *)
      destruct (extract_enough (nextMessageLength (reader w)) (buffer (reader w) ++ chunk))
        as [e1 He1].
      pose proof (extract_app _ _ _ _ (received inputs) He1) as Happ.
      rewrite <- app_assoc in Happ.
      destruct (ex_thrown e1) as [message|] eqn:Ht1.
      { destruct Happ as [fuel' Happ].
        pose proof (extract_det _ _ _ _ _ _ He Happ) as ->. done. }
      destruct (extract_enough (ex_next e1) (ex_buffer e1 ++ received inputs))
        as [e2 He2].
      destruct (Happ _ _ He2) as [fuel' Happ'].
      pose proof (extract_det _ _ _ _ _ _ He Happ') as ->.
      cbn [ex_thrown ex_next ex_buffer ex_bodies] in *.
      apply Forall_app in Ha as [Ha1 Ha2].
      destruct (step_data w chunk e1 He1 Ha1)
        as (w1 & out & Hs & O1 & CB1 & ER1 & _ & PE1 & N1 & B1 & C1 & E1 & _ & _ & P1 & _).
      rewrite Ht1 in C1.
      destruct (IH w1 (enough (ex_next e1) (ex_buffer e1 ++ received inputs)) e2)
        as (w' & Hr & C' & PE' & N' & B' & CB' & ER' & O' & E'); try done.
      * rewrite N1, B1. by apply (extract_stopped _ _ _ _ He1).
      * rewrite N1, B1. exact He2.
      * by rewrite P1.
      * exists w'. cbn [run]. rewrite Hs. split; [done|].
        split; [congruence|]. split; [congruence|]. split; [done|]. split; [done|].
        split; [|split; [|split; congruence]].
        -- rewrite CB', O1, callbacks_app, CB1, P1, omap_app. by rewrite app_assoc.
        -- rewrite ER', O1, errors_app, ER1, P1, E1.
           destruct (disposed _); [by rewrite !app_nil_r|].
           by rewrite omap_app, app_assoc.
    + (* time *)
      destruct (elapse_same ms w) as (Hsame & _ & K1 & ps & O1 & P1).
      destruct Hsame as (S1 & S2 & S3 & S4 & S5 & S6 & S7 & S8).
      rewrite app_nil_l in He.
      destruct (IH (elapse ms w) fuel e)
        as (w' & Hr & C' & PE' & N' & B' & CB' & ER' & O' & E'); try done.
      * by rewrite S5, S7.
      * by rewrite S5, S7.
      * by rewrite S4.
      * exists w'. cbn [run step]. split; [done|].
        split; [congruence|]. split; [by rewrite PE', elapse_pending|].
        split; [done|]. split; [done|].
        split; [|split; [|split; congruence]].
        -- by rewrite CB', O1, callbacks_app, (callbacks_partials ps P1), app_nil_r, S4.
        -- by rewrite ER', O1, errors_app, (errors_partials ps P1), app_nil_r, S4, S1.
    + (* the setter *)
      rewrite app_nil_l in He.
      destruct (IH (mkWorld (set_partialMessageTimeout timeout (reader w)) (host w)
                      (pending w) (output w) (crashed w)) fuel e)
        as (w' & Hr & C' & PE' & N' & B' & CB' & ER' & O' & E'); try done.
      exists w'. cbn [run step]. done.
Qed.

Lemma start_stopped opts :
  crashed (start json opts) = None
  ∧ stopped (nextMessageLength (reader (start json opts)))
      (buffer (reader (start json opts)))
  ∧ options (reader (start json opts)) = fromOptions json opts
  ∧ errorEmitter (reader (start json opts)) = emitter_new
  ∧ output (start json opts) = []
  ∧ pending (start json opts) = [].
Proof. repeat split. apply stopped_start. Qed.

(** The decoders and the charset of a reader are those its options name,
    and the JSON decoder when they name no content-type decoder. *)
Lemma fromOptions_explicit opts :
  contentDecoder (fromOptions json opts) = explicit_contentDecoder opts
  ∧ contentTypeDecoder (fromOptions json opts) = default json (explicit_decoder opts)
  ∧ charset (fromOptions json opts) = explicit_charset opts.
Proof.
  destruct opts as [|c|o]; [done|done|]. unfold fromOptions.
  cbn [explicit_contentDecoder explicit_decoder explicit_charset].
  by destruct (opt_contentDecoder o), (opt_contentTypeDecoder o).
Qed.

Lemma reader_decoders opts body :
  at_once (fromOptions json opts) body = reader_at_once json opts body
  ∧ decoded (fromOptions json opts) body = reader_message json opts body
  ∧ failure (fromOptions json opts) body = reader_failure json opts body.
Proof.
  unfold at_once, decoded, failure, reader_at_once, reader_message, reader_failure.
  destruct (fromOptions_explicit opts) as (-> & -> & ->). done.
Qed.

(** Framed messages, in any chunks and at any times, with decoders that
    settle at once: the callback gets the messages that decode, in order,
    every failure is an error event, nothing is thrown, and the reader is
    left waiting for a header. *)
Lemma run_frames opts (frames : list Frame) (inputs : list Input) :
  Forall well_framed frames →
  Forall (λ f, reader_at_once json opts (body f) = true) frames →
  Forall quiet inputs →
  received inputs = encode_frames frames →
  ∃ w, run (start json opts) inputs = Some w
    ∧ crashed w = None
    ∧ pending w = []
    ∧ nextMessageLength (reader w) = -1
    ∧ buffer (reader w) = []
    ∧ callbacks (output w) = omap (λ f, reader_message json opts (body f)) frames
    ∧ errors (output w) ≡ₚ omap (λ f, reader_failure json opts (body f)) frames.
Proof.
  intros Hwf Ha Hq Hrecv.
  destruct (extract_frames frames Hwf) as [fuel He].
  destruct (start_stopped opts) as (Hc & Hs & Ho & Hee & Hout & Hpe).
  destruct (run_quiet inputs (start json opts) fuel
              (mkExtracted (body <$> frames) (-1) [] None) Hs Hq) as
    (w & Hr & C & PE & N & B & CB & ER & _); [by rewrite Hrecv|done| |].
  { cbn [ex_bodies]. rewrite Ho. apply Forall_fmap. eapply Forall_impl; [exact Ha|].
    intros f Hf. cbn. by destruct (reader_decoders opts (body f)) as (-> & _). }
  exists w. split; [done|]. split; [congruence|]. split; [congruence|].
  split; [done|]. split; [done|].
  rewrite Hout, Ho, Hee in *. cbn [ex_bodies app emitter_new disposed] in *.
  split.
  - rewrite CB. cbn [callbacks omap list_omap app].
    apply list_omap_ext, Forall2_fmap_l, Forall_Forall2_diag, Forall_forall.
    intros f _. exact (proj1 (proj2 (reader_decoders opts (body f)))).
  - rewrite ER. cbn [errors omap list_omap app].
    erewrite list_omap_ext; [done|].
    apply Forall2_fmap_l, Forall_Forall2_diag, Forall_forall.
    intros f _. exact (proj2 (proj2 (reader_decoders opts (body f)))).
Qed.

(** *** Promises that settle later *)

Lemma deliveries_all (out : list (Output Message)) :
  Forall (λ o, is_delivery o = true) out → deliveries out = out.
Proof.
  induction 1 as [|o out Ho _ IH]; [done|].
  unfold deliveries in *. cbn [List.filter]. by rewrite Ho, IH.
Qed.

Lemma onMessage_delivery (r : Reader) outcome :
  disposed (errorEmitter r) = false → onMessage r outcome = [delivery outcome].
Proof.
  intros Hd. destruct outcome as [msg|error]; [done|].
  cbn [onMessage delivery]. unfold fireError, emitter_fire. by rewrite Hd.
Qed.

Lemma insert_second {A : Type} (x : A) (a b c d rest : list A) :
  a ++ b ++ c ++ d ≡ₚ rest → a ++ (x :: b) ++ c ++ d ≡ₚ x :: rest.
Proof. intros <-. cbn [app]. symmetry. apply Permutation_middle. Qed.

Lemma insert_third {A : Type} (x : A) (a b c d rest : list A) :
  a ++ b ++ c ++ d ≡ₚ rest → a ++ b ++ (x :: c) ++ d ≡ₚ x :: rest.
Proof.
  intros <-. rewrite !(app_assoc a b). cbn [app]. symmetry. apply Permutation_middle.
Qed.

Lemma insert_fourth {A : Type} (x : A) (a b c d rest : list A) :
  a ++ b ++ c ++ d ≡ₚ rest → a ++ b ++ c ++ x :: d ≡ₚ x :: rest.
Proof.
  intros <-. rewrite !(app_assoc a b), !(app_assoc (a ++ b) c). symmetry.
  apply Permutation_middle.
Qed.

(** Nothing is lost in the job queue: what comes of every promise [p] is
    put out, or is still to come. *)
Lemma reactions_conserve (r : Reader) promises :
  disposed (errorEmitter r) = false →
  concat (fst <$> (onContent r <$> settled_now promises))
  ++ concat (onMessage r
               <$> settled_now (omap snd (onContent r <$> settled_now promises)))
  ++ omap (eventually (options r)) (ContentPromise <$> settled_later promises)
  ++ omap (eventually (options r))
       (MessagePromise
          <$> settled_later (omap snd (onContent r <$> settled_now promises)))
  ≡ₚ omap (λ p, eventually (options r) (ContentPromise p.2)) promises.
Proof.
  intros Hd. induction promises as [|[a c] promises IH]; [done|].
  rewrite settled_now_cons, settled_later_cons.
  cbn [omap list_omap snd]. destruct a.
  - rewrite !fmap_cons. cbn [concat omap list_omap].
    destruct c as [value|error]; cbn [onContent].
    + unfold eventually at 3. cbn [eventually_with].
      destruct (ctd_decode _ value _) as [a outcome|error]; cbn [fst snd app settles fmap
        option_fmap option_map].
      * rewrite settled_now_cons, settled_later_cons. destruct a.
        -- rewrite fmap_cons. cbn [concat]. rewrite onMessage_delivery by done.
           cbn [app]. by apply insert_second.
        -- rewrite fmap_cons. cbn [omap list_omap eventually eventually_with].
           by apply insert_fourth.
      * exact IH.
    + unfold eventually at 3. cbn [eventually_with fst snd].
      unfold fireError, emitter_fire. rewrite Hd. cbn [app].
      by apply Permutation_skip.
  - rewrite fmap_cons. cbn [omap list_omap].
    destruct (eventually (options r) (ContentPromise c)); [|exact IH].
    by apply insert_third.
Qed.

Lemma runJobs_conserve (r : Reader) promises :
  disposed (errorEmitter r) = false →
  (runJobs r promises).1 ++ omap (eventually (options r)) (runJobs r promises).2
  ≡ₚ omap (λ p, eventually (options r) (ContentPromise p.2)) promises.
Proof.
  intros Hd. rewrite <- (reactions_conserve r promises Hd).
  unfold runJobs. cbn [fst snd]. by rewrite omap_app, <- !app_assoc.
Qed.

Lemma outcome_content (o : @ResolvedMessageReaderOptions Message) body a c :
  startDecode o body = Returns a c → outcome o body = eventually o (ContentPromise c).
Proof.
  unfold outcome, outcome_with, decode_with, eventually.
  change (content_with (contentDecoder o) body) with (startDecode o body).
  intros ->. cbn [settles eventually_with]. by destruct c.
Qed.

Lemma promises_outcomes (o : @ResolvedMessageReaderOptions Message) bodies promises :
  Forall2 (λ body p, startDecode o body = Returns p.1 p.2) bodies promises →
  omap (λ p, eventually o (ContentPromise p.2)) promises = omap (outcome o) bodies.
Proof.
  intros H. symmetry. apply list_omap_ext. eapply Forall2_impl; [exact H|].
  intros body [a c] Hp. by apply (outcome_content o body a c).
Qed.

(** A [Data] input whose bodies are given to decoders that return, in
    terms of [extract]. *)
Lemma step_data_returns (w : World) chunk e :
  extract (enough (nextMessageLength (reader w)) (buffer (reader w) ++ chunk))
    (nextMessageLength (reader w)) (buffer (reader w) ++ chunk) = Some e →
  Forall (λ body, is_Some (settles (startDecode (options (reader w)) body)))
    (ex_bodies e) →
  disposed (errorEmitter (reader w)) = false →
  ∃ w', step w (Data chunk) = Some w'
    ∧ deliveries (output w') ++ omap (eventually (options (reader w))) (pending w')
      ≡ₚ (deliveries (output w) ++ omap (eventually (options (reader w))) (pending w))
         ++ omap (outcome (options (reader w))) (ex_bodies e)
    ∧ nextMessageLength (reader w') = ex_next e
    ∧ buffer (reader w') = ex_buffer e
    ∧ crashed w' = match ex_thrown e with
                   | Some message => Some (JsError message)
                   | None => crashed w
                   end
    ∧ errorEmitter (reader w') = errorEmitter (reader w)
    ∧ options (reader w') = options (reader w).
Proof.
  intros He Ha Hd. destruct (step_data_any w chunk) as (res & Hres & ->).
  unfold onData in Hres. unfold enough in He.
  destruct (onData_loop_same _ _ _ _ Hres) as (S1 & S2 & S3 & S4 & S5 & S6 & S7).
  cbn [errorEmitter closeEmitter partialMessageEmitter options messageToken
       _partialMessageTimeout set_buffer] in S1, S2, S3, S4, S5, S6.
  destruct (onData_loop_extract
              (length (buffer (set_buffer (buffer (reader w) ++ chunk) (reader w))) + 2)
              (set_buffer (buffer (reader w) ++ chunk) (reader w)) (host w) e He Ha)
    as (res' & Hres' & I1 & I2 & I3 & I4).
  rewrite Hres in Hres'. inversion Hres'; subst res'. clear Hres'.
  cbn [options set_buffer] in I1.
  eexists. split; [reflexivity|]. cbn [reader host output pending crashed].
  rewrite I2, I3, I4, S1, S4.
  split; [|split; [done|split; [done|split; [by destruct (ex_thrown e)|done]]]].
  rewrite deliveries_app, (deliveries_all _ (runJobs_deliveries _ _)), omap_app.
  rewrite <- (promises_outcomes _ _ _ I1).
  pose proof (runJobs_conserve (res_reader res) (res_promises res)) as Hj.
  rewrite S1, S4 in Hj. rewrite <- (Hj Hd).
  set (out := (runJobs _ _).1). set (later := omap _ (runJobs _ _).2).
  set (D := deliveries (output w)). set (P := omap _ (pending w)).
  rewrite <- !app_assoc. apply Permutation_app_head.
  rewrite !app_assoc. apply Permutation_app_tail, Permutation_app_comm.
Qed.

(** A promise settles. *)
Lemma settle_same (w : World) i :
  reader (settle w i) = reader w ∧ host (settle w i) = host w
  ∧ crashed (settle w i) = crashed w
  ∧ ∃ out, output (settle w i) = output w ++ out
      ∧ Forall (λ o, is_delivery o = true) out
      ∧ (disposed (errorEmitter (reader w)) = true
         → Forall (λ o, is_Some (callback_of o)) out).
Proof.
  unfold settle. destruct (pending w !! i) as [[c|c]|].
  - pose proof (runJobs_deliveries (reader w) [(true, c)]) as Hj.
    pose proof (runJobs_disposed (reader w) [(true, c)]) as Hj'.
    destruct (runJobs (reader w) [(true, c)]) as [out later].
    repeat split; try done. by exists out.
  - repeat split; try done. exists (onMessage (reader w) c).
    split; [done|]. split; [apply onMessage_deliveries|apply onMessage_disposed].
  - repeat split; try done. exists []. rewrite app_nil_r. repeat split; constructor.
Qed.

Lemma settle_conserve (w : World) i :
  disposed (errorEmitter (reader w)) = false →
  deliveries (output (settle w i))
  ++ omap (eventually (options (reader w))) (pending (settle w i))
  ≡ₚ deliveries (output w) ++ omap (eventually (options (reader w))) (pending w).
Proof.
  intros Hd. unfold settle. destruct (pending w !! i) as [p|] eqn:Hp; [|done].
  transitivity (deliveries (output w)
                ++ omap (eventually (options (reader w))) (p :: delete i (pending w))).
  2:{ apply Permutation_app_head, omap_Permutation. symmetry.
      by apply delete_Permutation. }
  destruct p as [c|c].
  - pose proof (runJobs_conserve (reader w) [(true, c)] Hd) as Hj.
    pose proof (runJobs_deliveries (reader w) [(true, c)]) as Hdel.
    destruct (runJobs (reader w) [(true, c)]) as [out later].
    cbn [fst snd output pending omap list_omap] in *.
    rewrite deliveries_app, (deliveries_all _ Hdel), omap_app.
    set (D := deliveries (output w)) in *. set (P := omap _ (delete i _)) in *.
    set (L := omap _ later) in *.
    transitivity (D ++ (out ++ L) ++ P).
    { rewrite <- !app_assoc. do 2 apply Permutation_app_head.
      apply Permutation_app_comm. }
    apply Permutation_app_head. rewrite Hj.
    by destruct (eventually _ _).
  - cbn [output pending omap list_omap eventually eventually_with].
    rewrite deliveries_app, onMessage_delivery by done.
    rewrite (deliveries_all [delivery c]) by (destruct c; repeat constructor).
    rewrite <- app_assoc. by apply Permutation_app_head.
Qed.

(** The chunks of a run, with decoders that return promises and settle
    them when they like: every body that is taken out comes to its outcome,
    or its promise is pending. *)
Lemma run_settling inputs : ∀ (w : World) fuel e,
  stopped (nextMessageLength (reader w)) (buffer (reader w)) →
  Forall settling inputs →
  extract fuel (nextMessageLength (reader w)) (buffer (reader w) ++ received inputs)
  = Some e →
  ex_thrown e = None →
  Forall (λ body, is_Some (settles (startDecode (options (reader w)) body)))
    (ex_bodies e) →
  disposed (errorEmitter (reader w)) = false →
  ∃ w', run w inputs = Some w'
    ∧ crashed w' = crashed w
    ∧ nextMessageLength (reader w') = ex_next e
    ∧ buffer (reader w') = ex_buffer e
    ∧ deliveries (output w') ++ omap (eventually (options (reader w))) (pending w')
      ≡ₚ (deliveries (output w) ++ omap (eventually (options (reader w))) (pending w))
         ++ omap (outcome (options (reader w))) (ex_bodies e).
Proof.
  induction inputs as [|i inputs IH]; intros w fuel e Hstop Hq He Ht Ha Hd.
  - unfold received in He. simpl in He. rewrite app_nil_r in He.
    destruct Hstop as [fuel0 H0]. rewrite (extract_det _ _ _ _ _ _ He H0).
    exists w. simpl. by rewrite !app_nil_r.
  - inversion Hq as [|?? Hi Hq']; subst. rewrite received_cons in He.
    destruct i as [chunk| | |ms|timeout| |k]; try done; cbn [chunk_of] in He.
    + (* bytes *)
      destruct (extract_enough (nextMessageLength (reader w)) (buffer (reader w) ++ chunk))
        as [e1 He1].
      pose proof (extract_app _ _ _ _ (received inputs) He1) as Happ.
      rewrite <- app_assoc in Happ.
      destruct (ex_thrown e1) as [message|] eqn:Ht1.
      { destruct Happ as [fuel' Happ].
        pose proof (extract_det _ _ _ _ _ _ He Happ) as ->. done. }
      destruct (extract_enough (ex_next e1) (ex_buffer e1 ++ received inputs))
        as [e2 He2].
      destruct (Happ _ _ He2) as [fuel' Happ'].
      pose proof (extract_det _ _ _ _ _ _ He Happ') as ->.
      cbn [ex_thrown ex_next ex_buffer ex_bodies] in *.
      apply Forall_app in Ha as [Ha1 Ha2].
      destruct (step_data_returns w chunk e1 He1 Ha1 Hd)
        as (w1 & Hs & D1 & N1 & B1 & C1 & E1 & O1).
      rewrite Ht1 in C1.
      destruct (IH w1 (enough (ex_next e1) (ex_buffer e1 ++ received inputs)) e2)
        as (w' & Hr & C' & N' & B' & D'); try done.
      * rewrite N1, B1. by apply (extract_stopped _ _ _ _ He1).
      * rewrite N1, B1. exact He2.
      * by rewrite O1.
      * by rewrite E1.
      * exists w'. cbn [run]. rewrite Hs. split; [done|].
        split; [congruence|]. split; [done|]. split; [done|].
        rewrite O1 in D'. rewrite D', D1, omap_app. by rewrite !app_assoc.
    + (* time *)
      destruct (elapse_same ms w) as (Hsame & _ & K1 & ps & O1 & P1).
      destruct Hsame as (S1 & S2 & S3 & S4 & S5 & S6 & S7 & S8).
      rewrite app_nil_l in He.
      destruct (IH (elapse ms w) fuel e) as (w' & Hr & C' & N' & B' & D'); try done.
      * by rewrite S5, S7.
      * by rewrite S5, S7.
      * by rewrite S4.
      * by rewrite S1.
      * exists w'. cbn [run step]. split; [done|].
        split; [congruence|]. split; [done|]. split; [done|].
        rewrite S4 in D'. rewrite D', elapse_pending, O1, deliveries_app.
        by rewrite (deliveries_partials ps P1), app_nil_r.
    + (* the setter *)
      rewrite app_nil_l in He.
      destruct (IH (mkWorld (set_partialMessageTimeout timeout (reader w)) (host w)
                      (pending w) (output w) (crashed w)) fuel e)
        as (w' & Hr & C' & N' & B' & D'); try done.
      exists w'. cbn [run step]. done.
    + (* a promise settles *)
      rewrite app_nil_l in He.
      destruct (settle_same w k) as (R1 & H1 & K1 & _).
      pose proof (settle_conserve w k Hd) as Hcons.
      destruct (IH (settle w k) fuel e) as (w' & Hr & C' & N' & B' & D'); try done.
      * by rewrite R1.
      * by rewrite R1.
      * by rewrite R1.
      * by rewrite R1.
      * exists w'. cbn [run step]. split; [done|].
        split; [congruence|]. split; [done|]. split; [done|].
        rewrite R1 in D'. by rewrite D', Hcons.
Qed.

Lemma reader_outcomes opts body p :
  outcome (fromOptions json opts) body = reader_outcome json opts body
  ∧ eventually (fromOptions json opts) p = reader_eventually json opts p
  ∧ startDecode (fromOptions json opts) body
    = content_with (explicit_contentDecoder opts) body.
Proof.
  unfold outcome, eventually, reader_outcome, reader_eventually, startDecode.
  destruct (fromOptions_explicit opts) as (-> & -> & ->). done.
Qed.




(** Framed messages, in any chunks and at any times, with decoders that
    settle when they like. *)
Lemma run_frames_settling opts (frames : list Frame) (inputs : list Input) :
  Forall well_framed frames →
  Forall (λ f, reader_returns opts (body f) = true) frames →
  Forall settling inputs →
  received inputs = encode_frames frames →
  ∃ w, run (start json opts) inputs = Some w
    ∧ crashed w = None
    ∧ nextMessageLength (reader w) = -1
    ∧ buffer (reader w) = []
    ∧ deliveries (output w) ++ omap (reader_eventually json opts) (pending w)
      ≡ₚ omap (λ f, reader_outcome json opts (body f)) frames.
Proof.
  intros Hwf Ha Hq Hrecv.
  destruct (extract_frames frames Hwf) as [fuel He].
  destruct (start_stopped opts) as (Hc & Hs & Ho & Hee & Hout & Hpe).
  destruct (run_settling inputs (start json opts) fuel
              (mkExtracted (body <$> frames) (-1) [] None) Hs Hq) as
    (w & Hr & C & N & B & D); [by rewrite Hrecv|done| |by rewrite Hee|].
  { cbn [ex_bodies]. rewrite Ho. apply Forall_fmap. eapply Forall_impl; [exact Ha|].
    intros f Hf. cbn.
    destruct (reader_outcomes opts (body f) (MessagePromise (Rejected (JsObject None))))
      as (_ & _ & ->).
    unfold reader_returns in Hf. by destruct (content_with _ _). }
  exists w. split; [done|]. split; [congruence|]. split; [done|]. split; [done|].
  rewrite Hout, Hpe, Ho in D. cbn [ex_bodies app deliveries List.filter omap list_omap] in D.
  assert (omap (eventually (fromOptions json opts)) (pending w)
          = omap (reader_eventually json opts) (pending w)) as <-.
  { apply list_omap_ext, Forall_Forall2_diag, Forall_forall. intros p _.
    exact (proj1 (proj2 (reader_outcomes opts [] p))). }
  rewrite D. erewrite list_omap_ext; [done|].
  apply Forall2_fmap_l, Forall_Forall2_diag, Forall_forall. intros f _.
  exact (proj1 (reader_outcomes opts (body f) (MessagePromise (Rejected (JsObject None))))).
Qed.

(** C1, as the code has it. The bytes of N well-framed messages, delivered
    in chunks split at any byte boundaries and at any times, make the
    reader call the listen callback with exactly the N decoded messages,
    in the original order, when the decoders settle their promises as they
    return; no error event is fired and nothing is thrown. The callback is
    called in a reaction to the promise, so with decoders that settle
    later the order is the one in which the promises settle. *)
Theorem framing_robustness opts (frames : list Frame) (msgs : list Message)
    (inputs : list Input) :
  Forall well_framed frames →
  Forall2 (λ f m, reader_at_once json opts (body f) = true
                  ∧ reader_message json opts (body f) = Some m) frames msgs →
  Forall quiet inputs →
  received inputs = encode_frames frames →
  ∃ w, run (start json opts) inputs = Some w
    ∧ crashed w = None
    ∧ pending w = []
    ∧ callbacks (output w) = msgs
    ∧ errors (output w) = []
    ∧ length (callbacks (output w)) = length frames.
Proof.
  intros Hwf Hdec Hq Hrecv.
  destruct (run_frames opts frames inputs Hwf) as (w & Hr & C & P & _ & _ & CB & ER);
    [|done|done|].
  { clear -Hdec. induction Hdec as [|f m frames msgs [Hf _] _ IH]; by constructor. }
  exists w. split; [done|]. split; [done|]. split; [done|].
  assert (Hcb : callbacks (output w) = msgs).
  { rewrite CB. clear -Hdec.
    induction Hdec as [|f m frames msgs [_ Hfm] _ IH]; [done|].
    cbn [omap list_omap]. by rewrite Hfm, IH. }
  split; [done|]. split.
  - apply Permutation_nil_r. rewrite ER. clear -Hdec.
    induction Hdec as [|f m frames msgs [_ Hfm] _ IH]; [done|].
    cbn [omap list_omap]. rewrite <- IH.
    unfold reader_failure, failure_with. unfold reader_message, message_with in Hfm.
    by destruct (decode_with _ _ _ _) as [[msg|error]|].
  - rewrite Hcb. symmetry. by eapply Forall2_length.
Qed.



(** C7, as the code has it. The content-type decoder is fixed when the
    reader is made: it is the decoder the options name, and the
    application/json decoder, registered under its name, when they name
    none. Every body is given to this decoder, after the content decoder
    of the options if there is one, whatever Content-Type its header block
    gives: what is delivered, and what is still to come of the promises
    that are pending, is what this decoder makes of the bodies. *)
Theorem decoder_fixed_by_options opts (frames : list Frame) (inputs : list Input) :
  Forall well_framed frames →
  Forall (λ f, reader_returns opts (body f) = true) frames →
  Forall settling inputs →
  received inputs = encode_frames frames →
  (explicit_decoder opts = None →
     contentTypeDecoder (fromOptions json opts) = json
     ∧ contentTypeDecoders (fromOptions json opts) !! ctd_name json = Some json)
  ∧ (∀ d, explicit_decoder opts = Some d → contentTypeDecoder (fromOptions json opts) = d)
  ∧ ∃ w, run (start json opts) inputs = Some w
      ∧ deliveries (output w)
        ++ omap (eventually_with (default json (explicit_decoder opts))
                   (explicit_charset opts)) (pending w)
        ≡ₚ omap (λ f, outcome_with (explicit_contentDecoder opts)
                        (default json (explicit_decoder opts)) (explicit_charset opts)
                        (body f)) frames.
Proof.
  intros Hwf Ha Hq Hrecv. split; [|split].
  - destruct opts as [|c|o]; intros He; cbn [explicit_decoder] in He;
      unfold fromOptions.
    + split; [done|]. apply lookup_insert_eq.
    + split; [done|]. apply lookup_insert_eq.
    + rewrite He. destruct (opt_contentDecoder o); simpl;
        (split; [done|]; apply lookup_insert_eq).
  - destruct opts as [|c|o]; intros d He; cbn [explicit_decoder] in He;
      try done.
    unfold fromOptions. rewrite He. by destruct (opt_contentDecoder o).
  - destruct (run_frames_settling opts frames inputs Hwf Ha Hq Hrecv)
      as (w & Hr & _ & _ & _ & D).
    by exists w.
Qed.

End Facts.

End ReaderFacts.

(** ** The partial-message timer *)

Module TimerFacts.
Import Bytes Wire MessageReader Framing Observe BytesFacts FramingFacts ReaderFacts.

Section Facts.
Context {Message : Type} (json : @ContentTypeDecoder Message).

#[local] Abbreviation Reader := (@ReadableStreamMessageReader Message).
#[local] Abbreviation World := (@World Message).

Lemma set_timer_same (r : Reader) t :
  partialMessageTimer r = t → set_partialMessageTimer t r = r.
Proof. destruct r. simpl. by intros ->. Qed.

Lemma host_eta h : timers h = [] → mkHost (clock h) [] (next_handle h) = h.
Proof. destruct h. simpl. by intros ->. Qed.

Lemma clearPartialMessageTimer_spec (r : Reader) h :
  tracked r h →
  clearPartialMessageTimer r h
  = (set_partialMessageTimer None r, mkHost (clock h) [] (next_handle h)).
Proof.
  unfold tracked, clearPartialMessageTimer.
  destruct (partialMessageTimer r) as [handle|] eqn:E.
  - intros (t & Ht & Hh & _). unfold clearTimeout. rewrite Ht.
    rewrite filter_cons_False by (intros Hne; by apply Hne). done.
  - intros Ht. by rewrite set_timer_same, host_eta.
Qed.

Lemma setPartialMessageTimer_spec (r : Reader) h :
  tracked r h →
  setPartialMessageTimer r h =
  if bool_decide (_partialMessageTimeout r ≤ 0)
  then (set_partialMessageTimer None r, mkHost (clock h) [] (next_handle h))
  else (set_partialMessageTimer (Some (next_handle h)) r,
        mkHost (clock h)
          [mkTimer (next_handle h) (clock h + timer_delay (_partialMessageTimeout r))
             (messageToken r) (_partialMessageTimeout r)]
          (S (next_handle h))).
Proof.
  intros Ht. unfold setPartialMessageTimer.
  rewrite (clearPartialMessageTimer_spec r h Ht).
  cbn [_partialMessageTimeout set_partialMessageTimer].
  by case_bool_decide.
Qed.

Lemma tracked_none (r : Reader) h :
  partialMessageTimer r = None → timers h = [] → tracked r h.
Proof. unfold tracked. by intros -> ->. Qed.

Lemma setPartialMessageTimer_tracked (r : Reader) h :
  tracked r h → nextMessageLength r ≠ -1 →
  tracked (setPartialMessageTimer r h).1 (setPartialMessageTimer r h).2.
Proof.
  intros Ht Hn. rewrite (setPartialMessageTimer_spec r h Ht).
  case_bool_decide; simpl.
  - by apply tracked_none.
  - unfold tracked. simpl. eexists. repeat split; done.
Qed.

(** [onData] keeps the timer tracked. *)
Lemma onData_loop_tracked fuel : ∀ (r : Reader) h res,
  tracked r h → onData_loop fuel r h = Some res →
  tracked (res_reader res) (res_host res).
Proof.
  induction fuel as [|fuel IH]; intros r h res Ht H; [done|].
  cbn [onData_loop] in H.
  destruct (readLength (nextMessageLength r) (buffer r)) as [|message rest|len rest] eqn:Er.
  - by inversion H; subst.
  - inversion H; subst. exact Ht.
  - assert (Ht1 : tracked (set_nextMessageLength len (set_buffer rest r)) h).
    { unfold tracked in *. cbn [partialMessageTimer set_nextMessageLength set_buffer
                                 nextMessageLength messageToken].
      destruct (partialMessageTimer r) as [handle|]; [|done].
      destruct Ht as (t & H1 & H2 & H3 & H4). exists t. repeat split; try done.
      unfold readLength in Er. rewrite bool_decide_eq_false_2 in Er by done.
      by inversion Er; subst. }
    cbn [buffer nextMessageLength set_nextMessageLength set_buffer] in H.
    destruct (tryReadBody rest len) as [[body rest']|] eqn:Eb.
    + set (r1 := set_buffer rest' (set_nextMessageLength len (set_buffer rest r))) in *.
      assert (Ht2 : tracked r1 h) by exact Ht1.
      rewrite (clearPartialMessageTimer_spec r1 h Ht2) in H.
      destruct (startDecode _ body) as [at_once outcome|error].
      * destruct (onData_loop fuel _ _) as [res'|] eqn:E; [|done].
        inversion H; subst. cbn [res_reader res_host].
        refine (IH _ _ _ _ E). by apply tracked_none.
      * inversion H; subst. cbn [res_reader res_host]. by apply tracked_none.
    + pose proof (tryReadBody_None _ _ Eb) as Hlen.
      set (r1 := set_nextMessageLength len (set_buffer rest r)) in *.
      pose proof (setPartialMessageTimer_tracked r1 h Ht1) as Ht2.
      destruct (setPartialMessageTimer r1 h) as [r2 h2].
      inversion H; subst. apply Ht2. simpl. lia.
Qed.

(** A timer runs. *)
Lemma fire_timer_armed (w : World) t :
  partialMessageTimer (reader w) = Some (timer_handle t) →
  timers (host w) = [t] →
  timer_token t = messageToken (reader w) →
  fire_timer w t =
  let r := set_partialMessageTimer None (reader w) in
  let h := mkHost (clock (host w)) [] (next_handle (host w)) in
  mkWorld (setPartialMessageTimer r h).1 (setPartialMessageTimer r h).2 (pending w)
    (output w ++ firePartialMessage r (timer_token t) (timer_timeout t))
    (crashed w).
Proof.
  intros Hp Ht Htok. unfold fire_timer. rewrite Ht.
  rewrite bool_decide_eq_true_2 by (simpl; set_solver).
  unfold clearTimeout. rewrite Ht.
  rewrite filter_cons_False by (intros Hne; by apply Hne).
  unfold timer_callback.
  rewrite bool_decide_eq_true_2 by done.
  cbv zeta. by destruct (setPartialMessageTimer _ _).
Qed.

Lemma fire_timer_tracked (w : World) t :
  tracked (reader w) (host w) →
  tracked (reader (fire_timer w t)) (host (fire_timer w t)).
Proof.
  intros Ht. unfold fire_timer. case_bool_decide as Hin; [|done].
  unfold tracked in Ht.
  destruct (partialMessageTimer (reader w)) as [handle|] eqn:Ep.
  2:{ rewrite Ht in Hin. simpl in Hin. set_solver. }
  destruct Ht as (t0 & Ht0 & Hh & Htok & Hn).
  assert (Hc : clearTimeout (host w) (timer_handle t)
               = mkHost (clock (host w)) [] (next_handle (host w))).
  { unfold clearTimeout. rewrite Ht0 in *. simpl in Hin.
    apply list_elem_of_singleton in Hin.
    by rewrite filter_cons_False by (intros Hne; by apply Hne). }
  rewrite Hc. unfold timer_callback. case_bool_decide.
  - pose proof (setPartialMessageTimer_tracked
                  (set_partialMessageTimer None (reader w))
                  (mkHost (clock (host w)) [] (next_handle (host w)))) as Hs.
    destruct (setPartialMessageTimer _ _) as [r' h']. simpl in *.
    apply Hs; [by apply tracked_none | done].
  - simpl. by apply tracked_none.
Qed.

Lemma tick_tracked (w : World) :
  tracked (reader w) (host w) → tracked (reader (tick w)) (host (tick w)).
Proof.
  intros Ht. unfold tick. cbv zeta.
  match goal with
  | |- context [foldl fire_timer ?w0 ?due] =>
      assert (Ht0 : tracked (reader w0) (host w0));
      [|generalize dependent w0; generalize due]
  end.
  { unfold tracked in *. simpl. by destruct (partialMessageTimer (reader w)). }
  intros due. induction due as [|t due IH]; intros w0 Ht0; [done|].
  simpl. apply IH. by apply fire_timer_tracked.
Qed.

Lemma elapse_tracked ms : ∀ w : World,
  tracked (reader w) (host w) →
  tracked (reader (elapse ms w)) (host (elapse ms w)).
Proof.
  induction ms as [|ms IH]; intros w Ht; [done|].
  cbn [elapse]. by apply IH, tick_tracked.
Qed.

Lemma step_tracked (w w' : World) i :
  tracked (reader w) (host w) → step w i = Some w' →
  tracked (reader w') (host w').
Proof.
  intros Ht. destruct i as [chunk|error| |ms|timeout| |k].
  - destruct (step_data_any w chunk) as (res & E & ->). unfold onData in E.
    intros [= <-]. simpl. refine (onData_loop_tracked _ _ _ _ _ E).
    unfold tracked in *. simpl. exact Ht.
  - by intros [= <-].
  - by intros [= <-].
  - intros [= <-]. by apply elapse_tracked.
  - by intros [= <-].
  - by intros [= <-].
  - intros [= <-]. by destruct (settle_same w k) as (-> & -> & _).
Qed.

Lemma start_tracked opts :
  tracked (reader (start json opts)) (host (start json opts)).
Proof. by apply tracked_none. Qed.

Lemma run_tracked inputs : ∀ w w' : World,
  tracked (reader w) (host w) → run w inputs = Some w' →
  tracked (reader w') (host w').
Proof.
  induction inputs as [|i inputs IH]; intros w w' Ht H; simpl in H.
  - by inversion H; subst.
  - destruct (step w i) as [w1|] eqn:E; [|done].
    apply (IH w1 w' (step_tracked _ _ _ Ht E) H).
Qed.

(** One millisecond, with the timer tracked. *)
Lemma tick_idle (w : World) :
  timers (host w) = [] →
  tick w = mkWorld (reader w)
             (mkHost (clock (host w) + 1) [] (next_handle (host w)))
             (pending w) (output w) (crashed w).
Proof. intros Ht. unfold tick. simpl. rewrite Ht. done. Qed.

Lemma tick_armed (w : World) t :
  timers (host w) = [t] →
  tick w =
  let w0 := mkWorld (reader w)
              (mkHost (clock (host w) + 1) [t] (next_handle (host w)))
              (pending w) (output w) (crashed w) in
  if bool_decide (timer_due t ≤ clock (host w) + 1) then fire_timer w0 t else w0.
Proof.
  intros Ht. unfold tick. simpl. rewrite Ht.
  case_bool_decide.
  - by rewrite filter_cons_True.
  - by rewrite filter_cons_False.
Qed.

(** What a run keeps: the channel of the partial-message events, and the
    message token. *)
Lemma step_keeps (w w' : World) i :
  step w i = Some w' →
  partialMessageEmitter (reader w') = partialMessageEmitter (reader w)
  ∧ messageToken (reader w') = messageToken (reader w).
Proof.
  destruct i as [chunk|error| |ms|timeout| |k].
  - destruct (step_data_any w chunk) as (res & E & ->). unfold onData in E.
    destruct (onData_loop_same _ _ _ _ E) as (_ & _ & P & _ & T & _).
    by intros [= <-].
  - by intros [= <-].
  - by intros [= <-].
  - intros [= <-].
    destruct (elapse_same ms w) as ((_ & _ & P & _ & _ & T & _) & _). done.
  - by intros [= <-].
  - by intros [= <-].
  - intros [= <-]. by destruct (settle_same w k) as (-> & _).
Qed.

Lemma run_keeps inputs : ∀ w w' : World,
  run w inputs = Some w' →
  partialMessageEmitter (reader w') = partialMessageEmitter (reader w)
  ∧ messageToken (reader w') = messageToken (reader w).
Proof.
  induction inputs as [|i inputs IH]; intros w w' H; simpl in H.
  - by inversion H; subst.
  - destruct (step w i) as [w1|] eqn:E; [|done].
    destruct (step_keeps _ _ _ E) as [P1 T1].
    destruct (IH _ _ H) as [P2 T2]. split; congruence.
Qed.

(** The tokens of the events. *)
Lemma partials_app (a b : list (Output Message)) :
  partials (a ++ b) = partials a ++ partials b.
Proof. apply omap_app. Qed.

Lemma partials_deliveries (out : list (Output Message)) :
  Forall (λ o, is_delivery o = true) out → partials out = [].
Proof.
  induction 1 as [|o out Ho _ IH]; [done|]. by destruct o.
Qed.

Lemma step_data_partials (w w' : World) chunk :
  step w (Data chunk) = Some w' → partials (output w') = partials (output w).
Proof.
  destruct (step_data_any w chunk) as (res & _ & ->). intros Hs.
  apply (inj Some) in Hs. subst w'. cbn [output].
  by rewrite partials_app, (partials_deliveries _ (runJobs_deliveries _ _)), app_nil_r.
Qed.

Lemma settle_partials (w : World) k :
  partials (output (settle w k)) = partials (output w).
Proof.
  destruct (settle_same w k) as (_ & _ & _ & out & -> & Hd & _).
  by rewrite partials_app, (partials_deliveries out Hd), app_nil_r.
Qed.

Lemma partials_fire (r : Reader) token waitingTime :
  partials (firePartialMessage r token waitingTime)
  = if disposed (partialMessageEmitter r) then [] else [(token, waitingTime)].
Proof. unfold firePartialMessage, emitter_fire. by destruct (disposed _). Qed.

Lemma tick_tokens (w : World) :
  tracked (reader w) (host w) → messageToken (reader w) = 0 →
  tokens_zero (output w) → tokens_zero (output (tick w)).
Proof.
  intros Ht Hz Ho. unfold tracked in Ht.
  destruct (partialMessageTimer (reader w)) as [handle|] eqn:Ep.
  - destruct Ht as (t & Ht & Hh & Htok & _). rewrite (tick_armed w t Ht).
    cbv zeta. case_bool_decide; [|done].
    rewrite fire_timer_armed; [|by rewrite <- Hh in Ep|done|done].
    cbn [output]. unfold tokens_zero in *.
    rewrite partials_app, partials_fire. apply Forall_app_2; [done|].
    destruct (disposed _); repeat constructor. simpl. congruence.
  - by rewrite (tick_idle w Ht).
Qed.

Lemma elapse_tokens ms : ∀ w : World,
  tracked (reader w) (host w) → messageToken (reader w) = 0 →
  tokens_zero (output w) → tokens_zero (output (elapse ms w)).
Proof.
  induction ms as [|ms IH]; intros w Ht Hz Ho; [done|].
  cbn [elapse]. apply IH.
  - by apply tick_tracked.
  - destruct (tick_same w) as ((_ & _ & _ & _ & _ & T & _) & _). congruence.
  - by apply tick_tokens.
Qed.

Lemma step_tokens (w w' : World) i :
  tracked (reader w) (host w) → messageToken (reader w) = 0 →
  tokens_zero (output w) → step w i = Some w' → tokens_zero (output w').
Proof.
  intros Ht Hz Ho.
  destruct i as [chunk|error| |ms|timeout| |k].
  - intros Hs. unfold tokens_zero in *. by rewrite (step_data_partials _ _ _ Hs).
  - intros [= <-]. cbn [output]. unfold tokens_zero in *.
    rewrite partials_app. apply Forall_app_2; [done|].
    unfold fireError, emitter_fire. destruct (disposed _); constructor.
  - intros [= <-]. cbn [output]. unfold tokens_zero in *.
    rewrite partials_app. apply Forall_app_2; [done|].
    unfold fireClose, emitter_fire. destruct (disposed _); constructor.
  - intros [= <-]. by apply elapse_tokens.
  - by intros [= <-].
  - by intros [= <-].
  - intros [= <-]. unfold tokens_zero in *. by rewrite settle_partials.
Qed.

(** In a run the message token stays [0], and this is the token of every
    partial-message event. *)
Lemma run_tokens inputs : ∀ w w' : World,
  tracked (reader w) (host w) → messageToken (reader w) = 0 →
  tokens_zero (output w) → run w inputs = Some w' →
  messageToken (reader w') = 0 ∧ tokens_zero (output w').
Proof.
  induction inputs as [|i inputs IH]; intros w w' Ht Hz Ho H; simpl in H.
  - by inversion H; subst.
  - destruct (step w i) as [w1|] eqn:E; [|done].
    apply (IH w1 w'); [by eapply step_tracked| |by eapply step_tokens|done].
    destruct (step_keeps _ _ _ E) as [_ T]. congruence.
Qed.

Lemma message_token_constant opts inputs :
  ∃ w, run (start json opts) inputs = Some w
    ∧ messageToken (reader w) = 0
    ∧ tokens_zero (output w).
Proof.
  destruct (run_total inputs (start json opts)) as [w Hr]. exists w.
  split; [done|].
  apply (run_tokens inputs (start json opts) w);
    [apply start_tracked | done | constructor | done].
Qed.

(** No timer is pending between two messages: when a body is complete the
    timer is cleared, and none is set before the next header block is
    read. *)
Lemma no_timer_between_messages opts inputs (w : World) :
  run (start json opts) inputs = Some w →
  nextMessageLength (reader w) = -1 →
  timers (host w) = [].
Proof.
  intros H Hn. pose proof (run_tracked _ _ _ (start_tracked opts) H) as Ht.
  unfold tracked in Ht. destruct (partialMessageTimer (reader w)); [|done].
  by destruct Ht as (t & _ & _ & _ & Hne).
Qed.

(** Counting the runs of the timer. *)
Lemma firings_fire d T :
  0 < T → firings (S d) 1 T = S (firings d (Z.to_nat T) T).
Proof.
  intros HT. unfold firings.
  rewrite (bool_decide_eq_false_2 (S d < 1)%nat) by lia. f_equal.
  replace (Z.of_nat (S d) - Z.of_nat 1) with (Z.of_nat d) by lia.
  case_bool_decide as Hd.
  - rewrite Z.div_small by lia. done.
  - rewrite Z2Nat.id by lia.
    replace (Z.of_nat d) with ((Z.of_nat d - T) + 1 * T) at 1 by lia.
    rewrite Z.div_add by lia.
    assert (0 ≤ (Z.of_nat d - T) / T) by (apply Z.div_pos; lia). lia.
Qed.

Lemma firings_wait d k T :
  (1 < k)%nat → firings (S d) k T = firings d (k - 1) T.
Proof.
  intros Hk. unfold firings.
  destruct (decide (S d < k)%nat).
  - by rewrite !bool_decide_eq_true_2 by lia.
  - rewrite !bool_decide_eq_false_2 by lia. do 3 f_equal. lia.
Qed.

Lemma firings_period d T :
  0 < T → (Z.to_nat T ≤ d)%nat →
  firings d (Z.to_nat T) T = Z.to_nat (Z.of_nat d / T).
Proof.
  intros HT Hd. unfold firings. rewrite bool_decide_eq_false_2 by lia.
  rewrite Z2Nat.id by lia.
  replace (Z.of_nat d) with ((Z.of_nat d - T) + 1 * T) at 2 by lia.
  rewrite Z.div_add by lia.
  assert (0 ≤ (Z.of_nat d - T) / T) by (apply Z.div_pos; lia). lia.
Qed.

Lemma timer_delay_pos delay : 1 ≤ timer_delay delay.
Proof. unfold timer_delay. case_bool_decide; lia. Qed.

Lemma timer_delay_le delay : 0 < delay → timer_delay delay ≤ delay.
Proof. unfold timer_delay. case_bool_decide; lia. Qed.

Lemma timer_delay_id delay : 0 < delay ≤ TIMEOUT_MAX → timer_delay delay = delay.
Proof. intros H. unfold timer_delay. by rewrite bool_decide_eq_true_2 by lia. Qed.

(** Time passes while a body is awaited and the timer is set: every run
    of the timer fires one event, with the token of the message and the
    timeout as the waiting time, and sets the timer again, for the delay
    [setTimeout] makes of the timeout. *)
Lemma elapse_armed d : ∀ (w : World) t k T,
  timers (host w) = [t] →
  partialMessageTimer (reader w) = Some (timer_handle t) →
  timer_token t = messageToken (reader w) →
  timer_timeout t = T →
  _partialMessageTimeout (reader w) = T →
  0 < T →
  (0 < k)%nat →
  timer_due t = clock (host w) + Z.of_nat k →
  disposed (partialMessageEmitter (reader w)) = false →
  output (elapse d w)
  = output w ++ replicate (firings d k (timer_delay T))
                  (OnPartialMessage (messageToken (reader w)) T).
Proof.
  induction d as [|d IH]; intros w t k T Ht Hp Htok Hto HT HT0 Hk Hdue Hlive;
    pose proof (timer_delay_pos T) as Hpos.
  - unfold firings. rewrite bool_decide_eq_true_2 by lia. simpl.
    by rewrite app_nil_r.
  - cbn [elapse]. rewrite (tick_armed w t Ht). cbv zeta.
    destruct (decide (k = 1%nat)) as [->|Hk1].
    + rewrite bool_decide_eq_true_2 by lia.
      rewrite fire_timer_armed by done. cbv zeta. cbn [reader host output crashed].
      rewrite setPartialMessageTimer_spec by (by apply tracked_none).
      cbn [_partialMessageTimeout set_partialMessageTimer messageToken clock next_handle].
      rewrite HT. rewrite bool_decide_eq_false_2 by lia. cbn [fst snd].
      erewrite (IH _ _ (Z.to_nat (timer_delay T)) T); cbn [reader host output timers
        partialMessageTimer set_partialMessageTimer timer_handle timer_token
        timer_timeout timer_due messageToken _partialMessageTimeout clock
        partialMessageEmitter]; try done; try lia;
        [|simpl; rewrite Z2Nat.id by lia; lia].
      rewrite firings_fire by lia.
      unfold firePartialMessage, emitter_fire.
      cbn [partialMessageEmitter set_partialMessageTimer]. rewrite Hlive.
      rewrite Htok, Hto. cbn [replicate]. by rewrite <- app_assoc.
    + rewrite bool_decide_eq_false_2 by lia.
      erewrite (IH _ t (k - 1)%nat T); cbn [reader host output timers clock];
        try done; try lia.
      by rewrite firings_wait by lia.
Qed.

Lemma onData_loop_fields fuel (r : Reader) h res :
  onData_loop fuel r h = Some res →
  partialMessageEmitter (res_reader res) = partialMessageEmitter r
  ∧ messageToken (res_reader res) = messageToken r
  ∧ _partialMessageTimeout (res_reader res) = _partialMessageTimeout r
  ∧ clock (res_host res) = clock h.
Proof.
  intros H. by destruct (onData_loop_same _ _ _ _ H) as (_ & _ & P & _ & T & TO & C).
Qed.

(** When [onData] returns with a body awaited and a positive timeout, the
    timer is set for the timeout from now. *)
Lemma onData_loop_waiting fuel : ∀ (r : Reader) h res,
  tracked r h →
  onData_loop fuel r h = Some res →
  nextMessageLength (res_reader res) ≠ -1 →
  0 < _partialMessageTimeout r →
  ∃ t, timers (res_host res) = [t]
    ∧ partialMessageTimer (res_reader res) = Some (timer_handle t)
    ∧ timer_token t = messageToken r
    ∧ timer_timeout t = _partialMessageTimeout r
    ∧ timer_due t = clock h + timer_delay (_partialMessageTimeout r).
Proof.
  induction fuel as [|fuel IH]; intros r h res Ht H Hn HT; [done|].
  cbn [onData_loop] in H.
  destruct (readLength (nextMessageLength r) (buffer r)) as [|message rest|len rest] eqn:Er.
  - inversion H; subst. simpl in Hn. unfold readLength in Er.
    by rewrite bool_decide_eq_false_2 in Er.
  - inversion H; subst. simpl in Hn. unfold readLength in Er.
    by rewrite bool_decide_eq_false_2 in Er.
  - assert (Ht1 : tracked (set_nextMessageLength len (set_buffer rest r)) h).
    { unfold tracked in *. cbn [partialMessageTimer set_nextMessageLength set_buffer
                                 nextMessageLength messageToken].
      destruct (partialMessageTimer r) as [handle|]; [|done].
      destruct Ht as (t & H1 & H2 & H3 & H4). exists t. repeat split; try done.
      unfold readLength in Er. rewrite bool_decide_eq_false_2 in Er by done.
      by inversion Er; subst. }
    cbn [buffer nextMessageLength set_nextMessageLength set_buffer] in H.
    destruct (tryReadBody rest len) as [[body rest']|] eqn:Eb.
    + set (r1 := set_buffer rest' (set_nextMessageLength len (set_buffer rest r))) in *.
      assert (Ht2 : tracked r1 h) by exact Ht1.
      rewrite (clearPartialMessageTimer_spec r1 h Ht2) in H.
      destruct (startDecode _ body) as [at_once outcome|error];
        [|by inversion H; subst].
      destruct (onData_loop fuel _ _) as [res'|] eqn:E; [|done].
      inversion H; subst. cbn [res_reader res_host res_thrown] in *.
      assert (Ht3 : tracked (set_nextMessageLength (-1) (set_partialMessageTimer None r1))
                      (mkHost (clock h) [] (next_handle h)))
        by (by apply tracked_none).
      destruct (IH _ _ _ Ht3 E Hn HT) as (t & ? & ? & ? & ? & ?).
      exists t. done.
    + rewrite (setPartialMessageTimer_spec _ _ Ht1) in H.
      cbn [_partialMessageTimeout set_nextMessageLength set_buffer messageToken] in H.
      rewrite bool_decide_eq_false_2 in H by lia.
      inversion H; subst. eexists. cbn. repeat split; done.
Qed.


(** The timer is off. *)
Lemma clearPartialMessageTimer_idle (r : Reader) h :
  timers h = [] → timers (clearPartialMessageTimer r h).2 = [].
Proof.
  intros Ht. unfold clearPartialMessageTimer.
  destruct (partialMessageTimer r); [|done]. simpl. by rewrite Ht.
Qed.

Lemma setPartialMessageTimer_disabled (r : Reader) h :
  timers h = [] → _partialMessageTimeout r ≤ 0 →
  timers (setPartialMessageTimer r h).2 = [].
Proof.
  intros Ht HT. unfold setPartialMessageTimer.
  pose proof (clearPartialMessageTimer_idle r h Ht) as Hc.
  destruct (clearPartialMessageTimer_same r h) as ((_ & _ & _ & _ & _ & _ & _ & TO) & _).
  destruct (clearPartialMessageTimer r h) as [r1 h1]. simpl in *.
  by rewrite bool_decide_eq_true_2 by lia.
Qed.

Lemma onData_loop_disabled fuel : ∀ (r : Reader) h res,
  timers h = [] → _partialMessageTimeout r ≤ 0 →
  onData_loop fuel r h = Some res → timers (res_host res) = [].
Proof.
  induction fuel as [|fuel IH]; intros r h res Ht HT H; [done|].
  cbn [onData_loop] in H.
  destruct (readLength (nextMessageLength r) (buffer r)) as [|message rest|len rest].
  - by inversion H; subst.
  - by inversion H; subst.
  - cbn [buffer nextMessageLength set_nextMessageLength set_buffer] in H.
    destruct (tryReadBody rest len) as [[body rest']|].
    + set (r1 := set_buffer rest' (set_nextMessageLength len (set_buffer rest r))) in *.
      pose proof (clearPartialMessageTimer_idle r1 h Ht) as Hc.
      destruct (clearPartialMessageTimer_same r1 h)
        as ((_ & _ & _ & _ & _ & _ & _ & TO) & _).
      destruct (clearPartialMessageTimer r1 h) as [r2 h2]. simpl in *.
      destruct (startDecode _ body) as [at_once outcome|error];
        [|by inversion H; subst].
      destruct (onData_loop fuel _ _) as [res'|] eqn:E; [|done].
      inversion H; subst. simpl. apply (IH _ _ _ Hc) in E; [done|].
      simpl. lia.
    + set (r1 := set_nextMessageLength len (set_buffer rest r)) in *.
      pose proof (setPartialMessageTimer_disabled r1 h Ht HT) as Hs.
      destruct (setPartialMessageTimer r1 h) as [r2 h2].
      by inversion H; subst.
Qed.

Lemma elapse_idle ms : ∀ w : World,
  timers (host w) = [] →
  timers (host (elapse ms w)) = [] ∧ output (elapse ms w) = output w
  ∧ reader (elapse ms w) = reader w.
Proof.
  induction ms as [|ms IH]; intros w Ht; [done|].
  cbn [elapse]. rewrite (tick_idle w Ht).
  by destruct (IH (mkWorld (reader w)
                     (mkHost (clock (host w) + 1) [] (next_handle (host w)))
                     (pending w) (output w) (crashed w)) eq_refl) as (-> & -> & ->).
Qed.

Lemma step_disabled (w w' : World) i :
  timers (host w) = [] → _partialMessageTimeout (reader w) ≤ 0 →
  timeout_disabled i → step w i = Some w' →
  timers (host w') = [] ∧ _partialMessageTimeout (reader w') ≤ 0
  ∧ partials (output w') = partials (output w).
Proof.
  intros Ht HT Hi.
  destruct i as [chunk|error| |ms|timeout| |k].
  - intros Hs. pose proof (step_data_partials _ _ _ Hs) as Hp.
    destruct (step_data_any w chunk) as (res & E & Hs'). unfold onData in E.
    rewrite Hs' in Hs. inversion Hs; subst w'. clear Hs Hs'.
    destruct (onData_loop_fields _ _ _ _ E) as (_ & _ & TO & _).
    apply onData_loop_disabled in E; [|done|done].
    cbn [host reader output] in *.
    split; [done|]. split; [by rewrite TO|done].
  - intros [= <-]. cbn [host reader output].
    split; [done|]. split; [done|].
    rewrite partials_app. unfold fireError, emitter_fire.
    destruct (disposed _); simpl; by rewrite app_nil_r.
  - intros [= <-]. cbn [host reader output].
    split; [done|]. split; [done|].
    rewrite partials_app. unfold fireClose, emitter_fire.
    destruct (disposed _); simpl; by rewrite app_nil_r.
  - intros [= <-].
    destruct (elapse_idle ms w Ht) as (H1 & H2 & H3). by rewrite H1, H2, H3.
  - by intros [= <-].
  - by intros [= <-].
  - intros [= <-]. rewrite settle_partials.
    by destruct (settle_same w k) as (-> & -> & _).
Qed.

Lemma run_disabled inputs : ∀ w w' : World,
  timers (host w) = [] → _partialMessageTimeout (reader w) ≤ 0 →
  Forall timeout_disabled inputs → run w inputs = Some w' →
  partials (output w') = partials (output w).
Proof.
  induction inputs as [|i inputs IH]; intros w w' Ht HT Hi H; simpl in H.
  - by inversion H; subst.
  - inversion Hi as [|?? Hi1 Hi2]; subst.
    destruct (step w i) as [w1|] eqn:E; [|done].
    destruct (step_disabled _ _ _ Ht HT Hi1 E) as (H1 & H2 & H3).
    rewrite <- H3. by apply IH.
Qed.

(** C4, as the code has it. A new reader has the timeout 10000; and when
    the setter is given a timeout T ≤ 0 while no timer is pending, no
    partial-message event fires from then on, whatever bytes come and
    however long the reader waits for a body, as long as the timeout stays
    disabled. *)
Theorem timeout_disabled_no_events opts (w : World) T inputs :
  timers (host w) = [] →
  T ≤ 0 →
  Forall timeout_disabled inputs →
  partialMessageTimeout (new_reader json opts) = 10000
  ∧ ∃ w', run w (SetPartialMessageTimeout T :: inputs) = Some w'
      ∧ partials (output w') = partials (output w).
Proof.
  intros Ht HT Hi. split; [done|].
  set (w1 := mkWorld (set_partialMessageTimeout T (reader w)) (host w) (pending w)
               (output w) (crashed w)).
  destruct (run_total inputs w1) as [w' Hr].
  exists w'. cbn [run step]. split; [exact Hr|].
  by apply (run_disabled inputs w1 w' Ht HT Hi Hr).
Qed.

End Facts.

End TimerFacts.

(** ** The theorems at work *)

Module Instances.
Import Bytes Wire MessageReader Framing Observe Examples.
Import BytesFacts FramingFacts ReaderFacts TimerFacts.

(** The frames of the examples are well framed. *)
Ltac framed :=
  repeat first [apply Forall_nil_2
               | apply Forall_cons_2; [split; [by vm_compute | done]|]].

(** C1 at two messages, the second with a Content-Type, in four chunks
    with a wait and a change of the timeout in between. *)
Lemma framing_robustness_witness :
  Forall well_framed [frame_a; frame_b]
  ∧ Forall2 (λ f m, reader_at_once json_decoder NoOptions (body f) = true
                    ∧ reader_message json_decoder NoOptions (body f) = Some m)
      [frame_a; frame_b] [body frame_a; body frame_b]
  ∧ Forall quiet chunks_ab
  ∧ received chunks_ab = encode_frames [frame_a; frame_b]
  ∧ ∃ w, run (start json_decoder NoOptions) chunks_ab = Some w
      ∧ crashed w = None
      ∧ pending w = []
      ∧ callbacks (output w) = [body frame_a; body frame_b]
      ∧ errors (output w) = []
      ∧ length (callbacks (output w)) = length [frame_a; frame_b].
Proof.
  assert (H1 : Forall well_framed [frame_a; frame_b]) by framed.
  assert (H2 : Forall2 (λ f m, reader_at_once json_decoder NoOptions (body f) = true
                               ∧ reader_message json_decoder NoOptions (body f) = Some m)
                 [frame_a; frame_b] [body frame_a; body frame_b])
    by (repeat constructor).
  assert (H3 : Forall quiet chunks_ab) by (repeat constructor).
  assert (H4 : received chunks_ab = encode_frames [frame_a; frame_b])
    by (vm_compute; reflexivity).
  repeat (split; [assumption|]).
  exact (framing_robustness json_decoder NoOptions _ _ _ H1 H2 H3 H4).
Defined.

(** C1 as stated fails: the order of the callbacks is the order in which
    the decoder settles its promises. The two messages come in one chunk;
    the decoder settles the promise of the second one first, and the
    callback gets the second message first. *)
Lemma callbacks_in_settlement_order :
  Forall well_framed [frame_a; frame_b]
  ∧ received [Data stream_ab; Settle 1; Settle 0] = encode_frames [frame_a; frame_b]
  ∧ ∃ w, run (start slow_json_decoder NoOptions) [Data stream_ab; Settle 1; Settle 0]
         = Some w
      ∧ pending w = []
      ∧ callbacks (output w) = [body frame_b; body frame_a]
      ∧ callbacks (output w) ≠ [body frame_a; body frame_b].
Proof.
  split; [framed|]. split; [vm_compute; reflexivity|].
  eexists. split; [vm_compute; reflexivity|]. split; [reflexivity|].
  split; [reflexivity|]. discriminate.
Qed.



(** A Content-Length that is not a number. *)
Example bad_length_throws :
  ∃ w, run (start json_decoder NoOptions) [Data (bad_length ++ stream_ab)] = Some w
    ∧ crashed w = Some (JsError "Content-Length value must be a number.")
    ∧ output w = []
    ∧ buffer (reader w) = stream_ab.
Proof. eexists. split; [vm_compute; reflexivity|]. by vm_compute. Qed.


(** The outcomes of the three messages: the second is an error event, and
    the third is delivered all the same. *)
Example decode_failure_between :
  ∃ w, run (start json_decoder NoOptions) [Data stream_bad] = Some w
    ∧ output w = [Callback (bytes "{}"); OnError "Unexpected token in JSON";
                  Callback (bytes "{b:1}")]
    ∧ crashed w = None.
Proof. eexists. split; [vm_compute; reflexivity|]. by vm_compute. Qed.

(** With the decoder that settles later, the same three messages in the
    order of the settlements. *)
Example decode_failure_settled_later :
  ∃ w, run (start slow_json_decoder NoOptions)
         [Data stream_bad; Settle 2; Settle 1; Settle 0] = Some w
    ∧ output w = [Callback (bytes "{b:1}"); OnError "Unexpected token in JSON";
                  Callback (bytes "{}")]
    ∧ pending w = [].
Proof. eexists. split; [vm_compute; reflexivity|]. by vm_compute. Qed.

(** A content decoder that rejects every body: the error events come
    first, in the reactions to its promises. *)
Example content_decoder_rejects :
  ∃ w, run (start json_decoder options_rejecting) [Data stream_ab] = Some w
    ∧ output w = [OnError "incorrect header check"; OnError "incorrect header check"]
    ∧ crashed w = None.
Proof. eexists. split; [vm_compute; reflexivity|]. by vm_compute. Qed.


(** C4 at a new reader whose timeout is set to 0 before the first bytes. *)
Lemma timeout_disabled_no_events_witness :
  timers (host (start json_decoder NoOptions)) = []
  ∧ 0 ≤ 0
  ∧ Forall timeout_disabled [Data first_half; Elapse 50; Data second_half]
  ∧ partialMessageTimeout (new_reader json_decoder NoOptions) = 10000
  ∧ ∃ w', run (start json_decoder NoOptions)
            (SetPartialMessageTimeout 0 :: [Data first_half; Elapse 50; Data second_half])
          = Some w'
      ∧ partials (output w') = partials (output (start json_decoder NoOptions)).
Proof.
  assert (H1 : timers (host (start json_decoder NoOptions)) = []) by reflexivity.
  assert (H2 : 0 ≤ 0) by lia.
  assert (H3 : Forall timeout_disabled [Data first_half; Elapse 50; Data second_half])
    by (repeat constructor).
  repeat (split; [assumption|]).
  exact (timeout_disabled_no_events json_decoder NoOptions _ 0 _ H1 H2 H3).
Defined.

(** C4 as stated fails: a timer that is pending when the setter is given
    0 still runs. The reader waits for the second byte of a body; the
    timeout is set to 0; ten seconds after the first chunk the event fires
    all the same. *)
Lemma timeout_set_while_pending :
  ∃ w1 w2,
    run (start json_decoder NoOptions) [Data first_half; SetPartialMessageTimeout 0]
    = Some w1
    ∧ partialMessageTimeout (reader w1) = 0
    ∧ nextMessageLength (reader w1) = 2
    ∧ partials (output w1) = []
    ∧ run w1 [Elapse ten_seconds] = Some w2
    ∧ partials (output w2) = [(0, 10000)].
Proof.
  eexists _, _. split; [vm_compute; reflexivity|].
  split; [reflexivity|]. split; [reflexivity|]. split; [reflexivity|].
  split; [vm_compute; reflexivity|]. by vm_compute.
Qed.



(** A timeout above the longest delay of a timer: the timer is set for one
    millisecond, and fires every millisecond. *)
Example timeout_above_timer_range :
  ∃ w, run (start json_decoder NoOptions)
         [SetPartialMessageTimeout (2 ^ 31); Data first_half; Elapse 3] = Some w
    ∧ output w = [OnPartialMessage 0 (2 ^ 31); OnPartialMessage 0 (2 ^ 31);
                  OnPartialMessage 0 (2 ^ 31)].
Proof. eexists. split; [vm_compute; reflexivity|]. reflexivity. Qed.

(** C7 at a reader with a custom decoder registered and a message that
    names it. *)
Lemma decoder_fixed_by_options_witness :
  Forall well_framed [frame_custom]
  ∧ Forall (λ f, reader_returns options_custom (body f) = true) [frame_custom]
  ∧ Forall settling [Data (encode_frame frame_custom)]
  ∧ received [Data (encode_frame frame_custom)] = encode_frames [frame_custom]
  ∧ (explicit_decoder options_custom = None →
       contentTypeDecoder (fromOptions tagging_json options_custom) = tagging_json
       ∧ contentTypeDecoders (fromOptions tagging_json options_custom)
           !! ctd_name tagging_json = Some tagging_json)
  ∧ (∀ d, explicit_decoder options_custom = Some d →
          contentTypeDecoder (fromOptions tagging_json options_custom) = d)
  ∧ ∃ w, run (start tagging_json options_custom) [Data (encode_frame frame_custom)]
         = Some w
      ∧ deliveries (output w)
        ++ omap (eventually_with (default tagging_json (explicit_decoder options_custom))
                   (explicit_charset options_custom)) (pending w)
        ≡ₚ omap (λ f, outcome_with (explicit_contentDecoder options_custom)
                        (default tagging_json (explicit_decoder options_custom))
                        (explicit_charset options_custom) (body f)) [frame_custom].
Proof.
  assert (H1 : Forall well_framed [frame_custom]) by framed.
  assert (H0 : Forall (λ f, reader_returns options_custom (body f) = true)
                 [frame_custom]) by (repeat constructor).
  assert (H2 : Forall settling [Data (encode_frame frame_custom)])
    by (repeat constructor).
  assert (H3 : received [Data (encode_frame frame_custom)] = encode_frames [frame_custom])
    by (vm_compute; reflexivity).
  repeat (split; [assumption|]).
  exact (decoder_fixed_by_options tagging_json options_custom _ _ H1 H0 H2 H3).
Defined.

(** C7 as stated fails: the Content-Type of a message does not select the
    decoder. The custom decoder is registered under the name the header
    gives, and the body is decoded by the default decoder all the same. *)
Lemma content_type_header_ignored :
  contentTypeDecoders (fromOptions tagging_json options_custom)
    !! "application/x-custom"%string = Some tagging_custom
  ∧ content_type frame_custom = Some (bytes "application/x-custom")
  ∧ ∃ w, run (start tagging_json options_custom) [Data (encode_frame frame_custom)]
         = Some w
      ∧ callbacks (output w) = ["decoded as json"%string]
      ∧ callbacks (output w) ≠ ["decoded as custom"%string].
Proof.
  split; [vm_compute; reflexivity|]. split; [reflexivity|].
  eexists. split; [vm_compute; reflexivity|]. split; [reflexivity|]. discriminate.
Qed.

(** C5. The message token is never renewed: [onData] does not count the
    messages. In every run the token stays 0, and 0 is the token of every
    partial-message event; the events of two messages in a row carry the
    same token. *)
Theorem message_token_never_renewed :
  (∀ (Message : Type) (json : @ContentTypeDecoder Message) opts inputs,
     ∃ w, run (start json opts) inputs = Some w
       ∧ messageToken (reader w) = 0
       ∧ tokens_zero (output w))
  ∧ ∃ w, run (start json_decoder NoOptions)
           [Data first_half; Elapse ten_seconds; Data second_half;
            Data first_half; Elapse ten_seconds; Data second_half] = Some w
      ∧ output w = [OnPartialMessage 0 10000; Callback (bytes "{}");
                    OnPartialMessage 0 10000; Callback (bytes "{}")].
Proof.
  split; [intros; apply message_token_constant|].
  eexists. split; [vm_compute; reflexivity|]. reflexivity.
Qed.

(** C8. [dispose] disposes the emitters of the error and close events and
    leaves the emitter of the partial-message events, and the timer, as
    they are: after [dispose] an error and the close of the stream reach
    nobody, and the partial-message event still fires. *)
Theorem dispose_leaves_partial_message_channel :
  (∀ (Message : Type) (r : @ReadableStreamMessageReader Message),
     disposed (errorEmitter (dispose r)) = true
     ∧ disposed (closeEmitter (dispose r)) = true
     ∧ partialMessageEmitter (dispose r) = partialMessageEmitter r
     ∧ partialMessageTimer (dispose r) = partialMessageTimer r)
  ∧ ∃ w, run (start json_decoder NoOptions)
           [Data first_half; Dispose; StreamError (JsError "EPIPE"); StreamClose;
            Elapse ten_seconds] = Some w
      ∧ disposed (partialMessageEmitter (reader w)) = false
      ∧ output w = [OnPartialMessage 0 10000].
Proof.
  split; [by intros|].
  eexists. split; [vm_compute; reflexivity|]. split; reflexivity.
Qed.

End Instances.

(** * Further properties of the code *)

(** ** The edits of [computeDiff] *)

Module DiffProperties.
Import SemanticTokens DiffSpec TokenEncoding SemanticTokensFacts.

Section Diff.
Context {A : Type} `{EqDecision A}.

(** The first loop finds the one index up to which the sequences agree and
    at which they differ, or one of them ends. *)
Lemma commonPrefix_unique (o m : list A) (s : nat) :
  (s ≤ length o)%nat → (s ≤ length m)%nat → take s o = take s m →
  ((s < length o)%nat → (s < length m)%nat → o !! s ≠ m !! s) →
  commonPrefix o m = Z.of_nat s.
Proof.
  intros Ho Hm Ht Hd. unfold commonPrefix.
  destruct (scanStart_spec o m (length o) 0) as (s' & Hs & _ & S2 & S3 & S4 & S5);
    [lia|lia|done|lia|].
  change 0 with (Z.of_nat 0). rewrite Hs. f_equal.
  destruct (decide (s' < s)%nat) as [Hlt|Hge].
  - exfalso. apply S5; [lia|lia|].
    rewrite <- (lookup_take_lt o s s'), <- (lookup_take_lt m s s') by lia.
    by rewrite Ht.
  - destruct (decide (s < s')%nat) as [Hgt|?]; [|lia].
    exfalso. apply Hd; [lia|lia|].
    rewrite <- (lookup_take_lt o s' s), <- (lookup_take_lt m s' s) by lia.
    by rewrite S4.
Qed.

Lemma lookup_from_end (l : list A) (e i : nat) :
  (i < e)%nat → (e ≤ length l)%nat →
  l !! (length l - 1 - i)%nat = drop (length l - e) l !! (e - 1 - i)%nat.
Proof.
  intros Hi He. rewrite lookup_drop. f_equal. lia.
Qed.

(** The second loop finds the one count of elements the sequences share at
    the back. *)
Lemma commonSuffix_unique (o m : list A) (e : nat) :
  (e ≤ length o)%nat → (e ≤ length m)%nat →
  drop (length o - e) o = drop (length m - e) m →
  ((e < length o)%nat → (e < length m)%nat →
   o !! (length o - 1 - e)%nat ≠ m !! (length m - 1 - e)%nat) →
  commonSuffix o m = Z.of_nat e.
Proof.
  intros Ho Hm Ht Hd. unfold commonSuffix.
  destruct (scanEnd_spec o m (length o) 0) as (e' & He & _ & E2 & E3 & E4 & E5);
    [lia|lia|by rewrite !Nat.sub_0_r, !drop_all|lia|].
  change 0 with (Z.of_nat 0). rewrite He. f_equal.
  destruct (decide (e' < e)%nat) as [Hlt|Hge].
  - exfalso. apply E5; [lia|lia|].
    rewrite (lookup_from_end o e e'), (lookup_from_end m e e') by lia.
    by rewrite Ht.
  - destruct (decide (e < e')%nat) as [Hgt|?]; [|lia].
    exfalso. apply Hd; [lia|lia|].
    rewrite (lookup_from_end o e' e), (lookup_from_end m e' e) by lia.
    by rewrite E4.
Qed.

(** [commonPrefix] and [commonSuffix] are counts within both sequences. *)
Lemma commonPrefix_nat (o m : list A) :
  ∃ s : nat, commonPrefix o m = Z.of_nat s
    ∧ (s ≤ length o)%nat ∧ (s ≤ length m)%nat ∧ take s o = take s m
    ∧ ((s < length o)%nat → (s < length m)%nat → o !! s ≠ m !! s).
Proof.
  unfold commonPrefix.
  destruct (scanStart_spec o m (length o) 0) as (s & Hs & _ & S2 & S3 & S4 & S5);
    [lia|lia|done|lia|].
  exists s. by rewrite <- Hs.
Qed.

Lemma commonSuffix_nat (o m : list A) :
  ∃ e : nat, commonSuffix o m = Z.of_nat e
    ∧ (e ≤ length o)%nat ∧ (e ≤ length m)%nat
    ∧ drop (length o - e) o = drop (length m - e) m.
Proof.
  unfold commonSuffix.
  destruct (scanEnd_spec o m (length o) 0) as (e & He & _ & E2 & E3 & E4 & _);
    [lia|lia|by rewrite !Nat.sub_0_r, !drop_all|lia|].
  exists e. by rewrite <- He.
Qed.

(** [computeDiff] by its branches, with the counts of the two loops. *)
Lemma computeDiff_branches (o m : list A) :
  computeDiff o m =
  let s := commonPrefix o m in
  let L := Z.of_nat (length o) in
  let M := Z.of_nat (length m) in
  if bool_decide (s < M) && bool_decide (s < L) then
    [mkEdit s (L - (commonSuffix o m - 1) - s)
       (Some (JsArray.slice m s (M - (commonSuffix o m - 1))))]
  else if bool_decide (s < M) then [mkEdit s 0 (Some (JsArray.slice_from m s))]
  else if bool_decide (s < L) then [mkEdit s (L - s) None]
  else [].
Proof. reflexivity. Qed.

(** X1. [computeDiff] returns no edit exactly when the two sequences are
    equal. *)
Theorem computeDiff_nil_iff (o m : list A) : computeDiff o m = [] ↔ o = m.
Proof.
  split; [|intros ->; apply computeDiff_same].
  rewrite computeDiff_branches. cbn zeta.
  destruct (commonPrefix_nat o m) as (s & -> & S2 & S3 & S4 & _).
  repeat case_bool_decide; cbn [andb]; try discriminate. intros _.
  rewrite (take_ge o), (take_ge m) in S4 by lia. done.
Qed.

(** X2. When the modified sequence is the original with elements added at
    its end, the one edit starts at the end of the original, deletes
    nothing and carries the added elements. *)
Theorem computeDiff_append (o x : list A) :
  x ≠ [] →
  computeDiff o (o ++ x) = [mkEdit (Z.of_nat (length o)) 0 (Some x)].
Proof.
  intros Hx. rewrite computeDiff_branches. cbn zeta.
  assert (0 < length x)%nat by (destruct x; [done | simpl; lia]).
  rewrite (commonPrefix_unique o (o ++ x) (length o));
    [|lia|rewrite length_app; lia|by rewrite take_app_length, take_ge by lia|lia].
  rewrite length_app.
  rewrite (bool_decide_eq_true_2 (_ < Z.of_nat (_ + _)%nat)) by lia.
  rewrite (bool_decide_eq_false_2 (Z.of_nat (length o) < Z.of_nat (length o))) by lia.
  cbn [andb]. unfold JsArray.slice_from.
  rewrite slice_nat by (rewrite length_app; lia).
  rewrite drop_app_length, take_ge by (rewrite length_app; lia). done.
Qed.

(** X3. When the modified sequence is the original without some elements at
    its end, the one edit starts at the end of the modified sequence,
    deletes the elements after it and has no [data]. *)
Theorem computeDiff_truncate (m x : list A) :
  x ≠ [] →
  computeDiff (m ++ x) m = [mkEdit (Z.of_nat (length m)) (Z.of_nat (length x)) None].
Proof.
  intros Hx. rewrite computeDiff_branches. cbn zeta.
  assert (0 < length x)%nat by (destruct x; [done | simpl; lia]).
  rewrite (commonPrefix_unique (m ++ x) m (length m));
    [|rewrite length_app; lia|lia|by rewrite take_app_length, take_ge by lia|lia].
  rewrite length_app.
  rewrite (bool_decide_eq_true_2 (_ < Z.of_nat (_ + _)%nat)) by lia.
  rewrite (bool_decide_eq_false_2 (Z.of_nat (length m) < Z.of_nat (length m))) by lia.
  cbn [andb]. do 2 f_equal. lia.
Qed.

Lemma take_length_take (l : list A) (n : nat) :
  take (length (take n l)) l = take n l.
Proof.
  rewrite length_take. destruct (decide (n ≤ length l)%nat).
  - f_equal. lia.
  - rewrite Nat.min_r by lia. by rewrite !take_ge by lia.
Qed.

(** X4. An edit of [computeDiff] starts at the first index at which the
    sequences differ (one of them may end there), and its [data], if it
    has any, is a run of the modified sequence from this index. *)
Theorem computeDiff_start (o m : list A) (e : SemanticTokensEdit A) :
  e ∈ computeDiff o m →
  ∃ s : nat, start e = Z.of_nat s ∧ take s o = take s m ∧ o !! s ≠ m !! s
    ∧ ∀ d, data e = Some d → d = take (length d) (drop s m).
Proof.
  rewrite computeDiff_branches. cbn zeta.
  destruct (commonPrefix_nat o m) as (s & -> & S2 & S3 & S4 & S5).
  intros He. exists s.
  repeat case_bool_decide; cbn [andb] in He;
    try (apply list_elem_of_singleton in He; subst e; cbn [start data];
         split; [done|]; split; [done|]).
  - split; [apply S5; lia|]. intros d [= <-].
    unfold JsArray.slice, JsArray.relative.
    rewrite (bool_decide_eq_false_2 (Z.of_nat s < 0)) by lia.
    replace (Z.to_nat (Z.min (Z.of_nat s) (Z.of_nat (length m)))) with s by lia.
    by rewrite take_length_take.
  - split.
    + rewrite (lookup_ge_None_2 o s) by lia.
      destruct (lookup_lt_is_Some_2 m s) as [y ->]; [lia|done].
    + intros d [= <-]. unfold JsArray.slice_from, JsArray.slice, JsArray.relative.
      rewrite (bool_decide_eq_false_2 (Z.of_nat s < 0)) by lia.
      replace (Z.to_nat (Z.min (Z.of_nat s) (Z.of_nat (length m)))) with s by lia.
      by rewrite take_length_take.
  - split; [|done].
    rewrite (lookup_ge_None_2 m s) by lia.
    destruct (lookup_lt_is_Some_2 o s) as [y ->]; [lia|done].
  - by apply elem_of_nil in He.
Qed.

(** X5. A change in the middle: between a common prefix [p] and a common
    suffix [s] the original has [x] and the modified sequence [y], both
    non-empty, with different first and different last elements. The edit
    starts after [p]; because of [endIndex--] it reaches one element into
    the suffix: it deletes [length x + 1] elements and its data is [y]
    with the first element of [s]. *)
Theorem computeDiff_middle (p x y s : list A) :
  x ≠ [] → y ≠ [] → head x ≠ head y → last x ≠ last y →
  computeDiff (p ++ x ++ s) (p ++ y ++ s)
  = [mkEdit (Z.of_nat (length p)) (Z.of_nat (length x) + 1) (Some (y ++ take 1 s))].
Proof.
  intros Hx Hy Hh Hl. rewrite computeDiff_branches. cbn zeta.
  assert (0 < length x)%nat by (destruct x; [done | simpl; lia]).
  assert (0 < length y)%nat by (destruct y; [done | simpl; lia]).
  rewrite (commonPrefix_unique _ _ (length p)).
  2,3: rewrite !length_app; lia.
  2: by rewrite !take_app_length.
  2: { intros _ _.
       rewrite (lookup_app_r p (x ++ s)), (lookup_app_r p (y ++ s)) by lia.
       rewrite Nat.sub_diag, (lookup_app_l x), (lookup_app_l y) by lia.
       by rewrite <- !head_lookup. }
  rewrite (commonSuffix_unique _ _ (length s)).
  2,3: rewrite !length_app; lia.
  2: { rewrite !length_app.
       replace (length p + (length x + length s) - length s)%nat
         with (length p + length x)%nat by lia.
       replace (length p + (length y + length s) - length s)%nat
         with (length p + length y)%nat by lia.
       rewrite !(assoc_L (++)).
       rewrite <- (length_app p x), <- (length_app p y). by rewrite !drop_app_length. }
  2: { intros _ _. rewrite !length_app.
       rewrite (lookup_app_r p (x ++ s)), (lookup_app_r p (y ++ s)) by lia.
       rewrite (lookup_app_l x), (lookup_app_l y) by lia.
       rewrite !last_lookup in Hl.
       replace (length p + (length x + length s) - 1 - length s - length p)%nat
         with (pred (length x)) by lia.
       replace (length p + (length y + length s) - 1 - length s - length p)%nat
         with (pred (length y)) by lia.
       done. }
  rewrite !length_app.
  rewrite !bool_decide_eq_true_2 by lia. cbn [andb].
  do 2 f_equal; [lia|]. f_equal.
  replace (Z.of_nat (length p + (length y + length s)) - (Z.of_nat (length s) - 1))
    with (Z.of_nat (length p + length y + 1)) by lia.
  rewrite slice_nat by (rewrite !length_app; lia).
  rewrite drop_app_length.
  replace (length p + length y + 1 - length p)%nat with (length y + 1)%nat by lia.
  by rewrite take_app_add.
Qed.

(** When one sequence is a prefix of the other, the edit appends or
    truncates, and is right. *)
Lemma computeDiff_one_sided (o m : list A) :
  Z.min (Z.of_nat (length o)) (Z.of_nat (length m)) ≤ commonPrefix o m →
  applyEdits o (computeDiff o m) = m.
Proof.
  rewrite computeDiff_branches. cbn zeta.
  destruct (commonPrefix_nat o m) as (s & -> & S2 & S3 & S4 & _).
  intros Hmin. unfold applyEdits.
  repeat case_bool_decide; cbn [andb foldl]; try lia;
    unfold applyEdit; cbn [start deleteCount data default].
  - unfold JsArray.slice_from. rewrite slice_nat by lia.
    change 0 with (Z.of_nat 0). rewrite splice_nat by lia.
    rewrite (take_ge (drop s m)) by (rewrite length_drop; lia).
    rewrite (drop_ge o) by lia. rewrite app_nil_r, S4. apply take_drop.
  - rewrite (take_ge m) in S4 by lia.
    replace (Z.of_nat (length o) - Z.of_nat s) with (Z.of_nat (length o - s)) by lia.
    rewrite splice_nat by lia. rewrite (drop_ge o) by lia.
    by rewrite !app_nil_r.
  - rewrite (take_ge o), (take_ge m) in S4 by lia. done.
Qed.

Lemma length_slice (l : list A) (a b : Z) :
  0 ≤ a ≤ Z.of_nat (length l) → 0 ≤ b ≤ Z.of_nat (length l) →
  Z.of_nat (length (JsArray.slice l a b)) = Z.max (b - a) 0.
Proof.
  intros Ha Hb. unfold JsArray.slice, JsArray.relative.
  rewrite !bool_decide_eq_false_2 by lia.
  rewrite length_take, length_drop. lia.
Qed.

Lemma length_splice (l items : list A) (a d : Z) :
  0 ≤ a ≤ Z.of_nat (length l) →
  Z.of_nat (length (JsArray.splice l a d items))
  = Z.of_nat (length l) - Z.min (Z.max d 0) (Z.of_nat (length l) - a)
    + Z.of_nat (length items).
Proof.
  intros Ha. unfold JsArray.splice, JsArray.relative.
  rewrite bool_decide_eq_false_2 by lia.
  rewrite !length_app, length_take, length_drop. lia.
Qed.

(** X6. Applying the edits of [computeDiff] to the original gives the
    modified sequence exactly when the common prefix reaches the end of
    one of the sequences, or the counts of the two loops add up to at most
    the shorter length plus one. *)
Theorem computeDiff_round_trip_iff (o m : list A) :
  applyEdits o (computeDiff o m) = m
  ↔ Z.min (Z.of_nat (length o)) (Z.of_nat (length m)) ≤ commonPrefix o m
    ∨ commonPrefix o m + commonSuffix o m
      ≤ Z.min (Z.of_nat (length o)) (Z.of_nat (length m)) + 1.
Proof.
  split; [|intros [?|?]; [by apply computeDiff_one_sided | by apply computeDiff_correct]].
  intros Happ.
  destruct (decide (Z.min (Z.of_nat (length o)) (Z.of_nat (length m))
                    ≤ commonPrefix o m)) as [?|Hlt]; [by left|right].
  apply Z.nlt_ge. intros Hov.
  assert (length (applyEdits o (computeDiff o m)) = length m) as Hlen by congruence.
  revert Happ Hlen. rewrite computeDiff_branches. cbn zeta.
  destruct (commonPrefix_nat o m) as (s & Hs & S2 & S3 & S4 & S5).
  destruct (commonSuffix_nat o m) as (e & He & E2 & E3 & _).
  rewrite Hs, He in *.
  rewrite !bool_decide_eq_true_2 by lia. cbn [andb].
  unfold applyEdits. cbn [foldl]. unfold applyEdit. cbn [start deleteCount data default].
  unfold Datatypes.id. intros Happ Hlen. apply (f_equal Z.of_nat) in Hlen.
  rewrite length_splice in Hlen by lia.
  pose proof (length_slice m (Z.of_nat s)
                (Z.of_nat (length m) - (Z.of_nat e - 1))) as Hd.
  rewrite Hd in Hlen by lia.
  assert (length o = length m) as HLM by lia.
  assert (JsArray.slice m (Z.of_nat s) (Z.of_nat (length m) - (Z.of_nat e - 1)) = [])
    as Hnil by (apply length_zero_iff_nil; lia).
  rewrite Hnil in Happ. unfold JsArray.splice, JsArray.relative in Happ.
  rewrite bool_decide_eq_false_2 in Happ by lia.
  replace (Z.to_nat (Z.min (Z.of_nat s) (Z.of_nat (length o)))) with s in Happ by lia.
  replace (Z.to_nat _) with s in Happ by lia.
  cbn [app] in Happ. rewrite take_drop in Happ. subst m.
  apply S5; [lia|lia|done].
Qed.

End Diff.
End DiffProperties.

(** ** The builder over several requests *)

Module BuilderProperties.
Import SemanticTokens DiffSpec TokenEncoding SemanticTokensFacts.

(** [push] leaves the id and the previous data alone. *)
Lemma pushToken_keeps b t :
  _id (pushToken b t) = _id b ∧ _prevData (pushToken b t) = _prevData b.
Proof.
  unfold pushToken, push.
  by destruct (if bool_decide (0 < _dataLen b)%nat then _ else _).
Qed.

Lemma push_all_keeps ts : ∀ b,
  _id (foldl pushToken b ts) = _id b
  ∧ _prevData (foldl pushToken b ts) = _prevData b.
Proof.
  induction ts as [|t ts IH]; intros b; [done|]. simpl.
  destruct (IH (pushToken b t)) as [-> ->]. apply pushToken_keeps.
Qed.

Lemma push_all_ok ts : ∀ b, builder_ok b → builder_ok (foldl pushToken b ts).
Proof.
  induction ts as [|t ts IH]; intros b Hok; [done|].
  simpl. apply IH. by apply pushToken_data.
Qed.

(** The data of the tokens pushed since the builder was initialised. *)
Lemma push_all_initialized now b ts :
  _data (foldl pushToken (initialize now b) ts) = Some <$> delta_encode None ts.
Proof. by rewrite push_all_data by apply initialize_ok. Qed.

(** What [buildEdits] returns for the tokens pushed since the builder was
    initialised: a delta against the previous data, if there is any. *)
Lemma buildEdits_pushed now b ts :
  let b' := foldl pushToken (initialize now b) ts in
  buildEdits b'
  = match _prevData b with
    | Some prevData =>
        (b', Delta now (computeDiff prevData (Some <$> delta_encode None ts)))
    | None => ((build b').1, Full (mkTokens now (Some <$> delta_encode None ts)))
    end.
Proof.
  cbv zeta. unfold buildEdits, build, id.
  destruct (push_all_keeps ts (initialize now b)) as [-> ->].
  rewrite push_all_initialized. cbn [initialize _prevData _id].
  by destruct (_prevData b).
Qed.

(** X7. After [previousResult] with the id of the builder, the builder can
    build edits, and [buildEdits] on the tokens pushed since is a delta
    that carries the time of the [previousResult] call as result id and the
    edits of [computeDiff] from the data of before to the data of these
    tokens; it leaves the builder as it is. *)
Theorem buildEdits_after_previousResult (now : Z) (b : SemanticTokensBuilder)
    (ts : list Token) :
  let b' := foldl pushToken (previousResult now (id b) b) ts in
  canBuildEdits b' = true
  ∧ buildEdits b'
    = (b', Delta now (computeDiff (_data b) (Some <$> delta_encode None ts))).
Proof.
  cbv zeta. unfold previousResult.
  rewrite bool_decide_eq_true_2 by done. split.
  - unfold canBuildEdits.
    by destruct (push_all_keeps ts (initialize now
      (mkBuilder (_id b) (_prevLine b) (_prevChar b) (_data b) (_dataLen b)
         (Some (_data b))))) as [_ ->].
  - by rewrite buildEdits_pushed.
Qed.

(** X8. Two requests: the first is answered by [build]; the second names
    the result id of the first in [previousResult], pushes its tokens and
    is answered by [buildEdits]. The answer is a delta, and under the
    condition of X6 on the two data arrays a receiver that applies the
    edits to the data of the first answer has the data [build] would give;
    it reads the tokens of the second request from it when their lines and
    characters are safe integers, which the differences of doubles keep
    exact. *)
Theorem delta_round_trip (now1 now2 : Z) (b0 : SemanticTokensBuilder)
    (ts1 ts2 : list Token) :
  let first := build (foldl pushToken (initialize now1 b0) ts1) in
  let b2 := foldl pushToken (previousResult now2 (resultId first.2) first.1) ts2 in
  let old := tokens_data first.2 in
  let new := tokens_data (build b2).2 in
  Z.min (Z.of_nat (length old)) (Z.of_nat (length new)) ≤ commonPrefix old new
  ∨ commonPrefix old new + commonSuffix old new
    ≤ Z.min (Z.of_nat (length old)) (Z.of_nat (length new)) + 1 →
  ∃ edits, (buildEdits b2).2 = Delta now2 edits
    ∧ applyEdits old edits = new
    ∧ (Forall safe_token ts2 → delta_decode 0 0 (applyEdits old edits) = Some ts2).
Proof.
  cbv zeta. unfold build. cbn [fst snd resultId tokens_data].
  set (b1 := foldl pushToken (initialize now1 b0) ts1).
  set (b1' := mkBuilder _ _ _ _ _ _).
  change (id b1) with (id b1'). change (_data b1) with (_data b1').
  unfold previousResult. rewrite bool_decide_eq_true_2 by done.
  rewrite buildEdits_pushed, push_all_initialized. cbn [_prevData snd].
  intros Hcond. eexists. split; [done|].
  assert (applyEdits (_data b1') (computeDiff (_data b1') (Some <$> delta_encode None ts2))
          = Some <$> delta_encode None ts2) as ->.
  { destruct Hcond; [by apply DiffProperties.computeDiff_one_sided
                    | by apply computeDiff_correct]. }
  split; [done|]. intros Hs. by apply (delta_decode_encode ts2 None 0 0 Hs).
Qed.

(** X9. After [build], a [previousResult] with an id that is not the
    builder's leaves no previous data: the builder cannot build edits, and
    [buildEdits] returns the full data of the tokens pushed since. *)
Theorem full_result_for_unknown_id (now : Z) (id' : Z) (b : SemanticTokensBuilder)
    (ts : list Token) :
  id' ≠ id b →
  let b' := foldl pushToken (previousResult now id' (build b).1) ts in
  canBuildEdits b' = false
  ∧ (buildEdits b').2 = Full (mkTokens now (Some <$> delta_encode None ts)).
Proof.
  intros Hid. cbv zeta. unfold previousResult, build. cbn [fst].
  rewrite bool_decide_eq_false_2 by (unfold id in *; cbn [_id]; congruence).
  split.
  - unfold canBuildEdits.
    by destruct (push_all_keeps ts (initialize now
      (mkBuilder (_id b) (_prevLine b) (_prevChar b) (_data b) (_dataLen b) None)))
      as [_ ->].
  - by rewrite buildEdits_pushed.
Qed.

(** X10. [buildEdits] keeps the previous data, and [previousResult] with an
    id that is not the builder's does not remove it: after a delta against
    a first result, a request that names an unknown id is answered by a
    delta against the data of that first result, not by the full data. *)
Theorem stale_previous_data (now1 now2 now3 id' : Z) (b0 : SemanticTokensBuilder)
    (ts1 ts2 ts3 : list Token) :
  id' ≠ now2 →
  let first := build (foldl pushToken (initialize now1 b0) ts1) in
  let second :=
    buildEdits (foldl pushToken (previousResult now2 (resultId first.2) first.1) ts2) in
  let third := buildEdits (foldl pushToken (previousResult now3 id' second.1) ts3) in
  third.2 = Delta now3 (computeDiff (tokens_data first.2) (Some <$> delta_encode None ts3)).
Proof.
  intros Hid. cbv zeta. unfold build. cbn [fst snd resultId tokens_data].
  set (b1 := foldl pushToken (initialize now1 b0) ts1).
  set (b1' := mkBuilder _ _ _ _ _ _).
  change (id b1) with (id b1').
  unfold previousResult at 2. rewrite bool_decide_eq_true_2 by done.
  rewrite buildEdits_pushed. cbn [_prevData fst].
  unfold previousResult.
  destruct (push_all_keeps ts2 (initialize now2
    (mkBuilder (_id b1') (_prevLine b1') (_prevChar b1') (_data b1') (_dataLen b1')
       (Some (_data b1'))))) as [Hi Hp].
  rewrite bool_decide_eq_false_2 by (unfold id; rewrite Hi; cbn; congruence).
  rewrite buildEdits_pushed, Hp. done.
Qed.

(** X11. [build] resets nothing: tokens pushed after a [build] go on in the
    same data array, and the next [build] gives what one [build] after all
    the pushes gives, result id included. *)
Theorem build_keeps_tokens (now : Z) (b0 : SemanticTokensBuilder) (ts1 ts2 : list Token) :
  let b1 := (build (foldl pushToken (initialize now b0) ts1)).1 in
  (build (foldl pushToken b1 ts2)).2
  = (build (foldl pushToken (initialize now b0) (ts1 ++ ts2))).2.
Proof.
  cbv zeta. rewrite foldl_app. unfold build. cbn [fst snd].
  set (b := foldl pushToken (initialize now b0) ts1).
  set (b' := mkBuilder _ _ _ _ _ _).
  assert (builder_ok b) as Hok by apply push_all_ok, initialize_ok.
  unfold id.
  destruct (push_all_keeps ts2 b) as [-> _].
  destruct (push_all_keeps ts2 b') as [-> _].
  by rewrite (push_all_data ts2 b), (push_all_data ts2 b').
Qed.

End BuilderProperties.

(** ** The maps of decoders *)

Module OptionsProperties.
Import MessageReader Observe Registry.

(** A map filled from a list of named things holds, for each name, the
    last one of the list. *)
Lemma lookup_foldl_insert {D : Type} (name_of : D → string) (name : string)
    (decoders : list D) : ∀ m : gmap string D,
  foldl (λ m d, <[name_of d := d]> m) m decoders !! name
  = match last_named name_of name decoders with
    | Some d => Some d
    | None => m !! name
    end.
Proof.
  unfold last_named.
  induction decoders as [|d ds IH] using rev_ind; intros m; [done|].
  rewrite foldl_app, filter_app. cbn [foldl].
  destruct (decide (name_of d = name)) as [Heq|Hne].
  - rewrite (filter_cons_True _ d) by done. cbn [filter list_filter].
    rewrite last_snoc, Heq. apply lookup_insert_eq.
  - rewrite (filter_cons_False _ d) by done. cbn [filter list_filter].
    rewrite app_nil_r, lookup_insert_ne by done. apply IH.
Qed.

Section Options.
Context {Message : Type} (json : @ContentTypeDecoder Message).

(** [fromOptions] fills the two maps from the left. *)
Lemma contentDecoders_fold (arg : @OptionsArg Message) :
  contentDecoders (fromOptions json arg)
  = foldl (λ m d, <[cd_name d := d]> m) ∅ (given_contentDecoders arg).
Proof.
  destruct arg as [|c|[c d ds td tds]]; [done|done|].
  unfold given_contentDecoders. rewrite foldl_app.
  by destruct d as [d|], ds as [ds|], td as [td|], tds as [tds|].
Qed.

Lemma contentTypeDecoders_fold (arg : @OptionsArg Message) :
  contentTypeDecoders (fromOptions json arg)
  = foldl (λ m d, <[ctd_name d := d]> m) ∅ (given_contentTypeDecoders json arg).
Proof.
  destruct arg as [|c|[c d ds td tds]]; [done|done|].
  unfold given_contentTypeDecoders. rewrite !foldl_app.
  by destruct d as [d|], ds as [ds|], td as [td|], tds as [tds|].
Qed.

Lemma lookup_fold_empty {D : Type} (name_of : D → string) (name : string)
    (decoders : list D) :
  foldl (λ (m : gmap string D) d, <[name_of d := d]> m) ∅ decoders !! name
  = last_named name_of name decoders.
Proof.
  rewrite lookup_foldl_insert, lookup_empty. by destruct (last_named _ _ _).
Qed.

(** X12. The map of content decoders that [fromOptions] returns holds, under
    each name, the last decoder of this name among the single decoder of
    the options and, after it, the decoders of the list; no other name is
    in the map. *)
Theorem contentDecoders_last_wins (arg : @OptionsArg Message) (name : string) :
  contentDecoders (fromOptions json arg) !! name
  = last_named cd_name name (given_contentDecoders arg).
Proof. rewrite contentDecoders_fold. apply lookup_fold_empty. Qed.

(** X13. The same for the content-type decoders, with the JSON decoder of the
    runtime entered last when the options name no single content-type
    decoder: it then replaces a listed decoder of its name. *)
Theorem contentTypeDecoders_last_wins (arg : @OptionsArg Message) (name : string) :
  contentTypeDecoders (fromOptions json arg) !! name
  = last_named ctd_name name (given_contentTypeDecoders json arg).
Proof. rewrite contentTypeDecoders_fold. apply lookup_fold_empty. Qed.

Lemma last_named_elem {D : Type} (name_of : D → string) (d : D) (decoders : list D) :
  d ∈ decoders → is_Some (last_named name_of (name_of d) decoders).
Proof.
  intros Hd. unfold last_named.
  assert (d ∈ filter (λ d', name_of d' = name_of d) decoders) as Hin
    by (by apply list_elem_of_filter).
  destruct (filter _ decoders) as [|x l] using rev_ind.
  - by apply elem_of_nil in Hin.
  - rewrite last_snoc. eauto.
Qed.

(** X14. The name of the content-type decoder the reader uses is always in
    the map of content-type decoders, and the name of its content decoder,
    if it has one, is in the map of content decoders. *)
Theorem selected_decoders_registered (arg : @OptionsArg Message) :
  is_Some (contentTypeDecoders (fromOptions json arg)
             !! ctd_name (contentTypeDecoder (fromOptions json arg)))
  ∧ ∀ d, contentDecoder (fromOptions json arg) = Some d →
         is_Some (contentDecoders (fromOptions json arg) !! cd_name d).
Proof.
  rewrite contentTypeDecoders_fold, contentDecoders_fold. split.
  - rewrite lookup_fold_empty. apply last_named_elem.
    destruct arg as [|c|[c d ds td tds]]; try apply list_elem_of_singleton; try done.
    unfold given_contentTypeDecoders, fromOptions.
    cbn [opt_contentTypeDecoder opt_contentTypeDecoders opt_contentDecoder
         opt_contentDecoders].
    destruct d as [d|], ds as [ds|], td as [td|], tds as [tds|];
      cbn [contentTypeDecoder option_list default app];
      set_solver.
  - intros d0 Hd0. rewrite lookup_fold_empty. apply last_named_elem.
    destruct arg as [|c|[c d ds td tds]]; try done.
    unfold given_contentDecoders, fromOptions in *.
    cbn [opt_contentTypeDecoder opt_contentTypeDecoders opt_contentDecoder
         opt_contentDecoders] in *.
    destruct d as [d|], ds as [ds|], td as [td|], tds as [tds|];
      cbn [contentDecoder option_list default app] in *;
      try done; inversion Hd0; subst; set_solver.
Qed.

End Options.
End OptionsProperties.

(** ** Delivery in any run *)

Module DeliveryProperties.
Import Bytes Wire MessageReader Framing Observe Traces.
Import BytesFacts FramingFacts ReaderFacts TimerFacts.

Section Facts.
Context {Message : Type} (json : @ContentTypeDecoder Message).

#[local] Abbreviation Reader := (@ReadableStreamMessageReader Message).
#[local] Abbreviation World := (@World Message).

Lemma callbacks_fireClose (r : Reader) : callbacks (fireClose r) = [].
Proof. unfold fireClose, emitter_fire. by destruct (disposed _). Qed.

Lemma settle_idle (w : World) k : pending w = [] → settle w k = w.
Proof. intros Hp. unfold settle. by rewrite Hp. Qed.

(** A run over any inputs: the stream may report errors and close, and the
    owner may dispose the reader, in between. With decoders that settle at
    once, and as long as [onData] does not throw, what the callback gets
    is what the loop of [onData] takes out of all the bytes at once. *)
Lemma run_any inputs : ∀ (w : World) fuel e,
  stopped (nextMessageLength (reader w)) (buffer (reader w)) →
  pending w = [] →
  extract fuel (nextMessageLength (reader w)) (buffer (reader w) ++ received inputs)
  = Some e →
  ex_thrown e = None →
  Forall (λ body, at_once (options (reader w)) body = true) (ex_bodies e) →
  ∃ w', run w inputs = Some w'
    ∧ crashed w' = crashed w
    ∧ pending w' = []
    ∧ callbacks (output w')
      = callbacks (output w) ++ omap (decoded (options (reader w))) (ex_bodies e).
Proof.
  induction inputs as [|i inputs IH]; intros w fuel e Hstop Hpe He Ht Ha.
  - unfold received in He. simpl in He. rewrite app_nil_r in He.
    destruct Hstop as [fuel0 H0]. rewrite (extract_det _ _ _ _ _ _ He H0).
    exists w. simpl. by rewrite app_nil_r.
  - rewrite received_cons in He.
    destruct i as [chunk|error| |ms|timeout| |k]; cbn [chunk_of] in He;
      rewrite ?app_nil_l in He.
    + destruct (extract_enough (nextMessageLength (reader w)) (buffer (reader w) ++ chunk))
        as [e1 He1].
      pose proof (extract_app _ _ _ _ (received inputs) He1) as Happ.
      rewrite <- app_assoc in Happ.
      destruct (ex_thrown e1) as [message|] eqn:Ht1.
      { destruct Happ as [fuel' Happ].
        pose proof (extract_det _ _ _ _ _ _ He Happ) as ->. done. }
      destruct (extract_enough (ex_next e1) (ex_buffer e1 ++ received inputs))
        as [e2 He2].
      destruct (Happ _ _ He2) as [fuel' Happ'].
      pose proof (extract_det _ _ _ _ _ _ He Happ') as ->.
      cbn [ex_thrown ex_next ex_buffer ex_bodies] in *.
      apply Forall_app in Ha as [Ha1 Ha2].
      destruct (step_data w chunk e1 He1 Ha1)
        as (w1 & out & Hs & O1 & CB1 & _ & _ & PE1 & N1 & B1 & C1 & _ & _ & _ & P1 & _).
      rewrite Ht1 in C1.
      destruct (IH w1 (enough (ex_next e1) (ex_buffer e1 ++ received inputs)) e2)
        as (w' & Hr & C' & PE' & D'); try done.
      * rewrite N1, B1. by apply (extract_stopped _ _ _ _ He1).
      * congruence.
      * rewrite N1, B1. exact He2.
      * by rewrite P1.
      * exists w'. cbn [run]. rewrite Hs. split; [done|]. split; [congruence|].
        split; [done|].
        rewrite D', O1, callbacks_app, CB1, omap_app, P1.
        by rewrite app_assoc.
    + destruct (IH (mkWorld (reader w) (host w) (pending w)
                      (output w ++ fireError (reader w) error) (crashed w)) fuel e)
        as (w' & Hr & C' & PE' & D'); try done.
      exists w'. cbn [run step].
      cbn [output] in D'. rewrite callbacks_app, callbacks_fireError, app_nil_r in D'.
      done.
    + destruct (IH (mkWorld (reader w) (host w) (pending w)
                      (output w ++ fireClose (reader w)) (crashed w)) fuel e)
        as (w' & Hr & C' & PE' & D'); try done.
      exists w'. cbn [run step].
      cbn [output] in D'. rewrite callbacks_app, callbacks_fireClose, app_nil_r in D'.
      done.
    + destruct (elapse_same ms w) as (Hsame & _ & K1 & ps & O1 & P1).
      destruct Hsame as (S1 & S2 & S3 & S4 & S5 & S6 & S7 & S8).
      destruct (IH (elapse ms w) fuel e) as (w' & Hr & C' & PE' & D'); try done.
      * by rewrite S5, S7.
      * by rewrite elapse_pending.
      * by rewrite S5, S7.
      * by rewrite S4.
      * exists w'. cbn [run step]. split; [done|].
        split; [congruence|]. split; [done|].
        rewrite D', O1, callbacks_app, (callbacks_partials ps P1), app_nil_r.
        by rewrite S4.
    + destruct (IH (mkWorld (set_partialMessageTimeout timeout (reader w)) (host w)
                      (pending w) (output w) (crashed w)) fuel e)
        as (w' & Hr & C' & PE' & D'); try done.
      exists w'. cbn [run step]. done.
    + destruct (IH (mkWorld (dispose (reader w)) (host w) (pending w) (output w)
                      (crashed w)) fuel e)
        as (w' & Hr & C' & PE' & D'); try done.
      exists w'. cbn [run step]. done.
    + destruct (IH w fuel e) as (w' & Hr & C' & PE' & D'); try done.
      exists w'. cbn [run step]. by rewrite settle_idle.
Qed.

(** An error thrown by [onData] stays on record. *)
Lemma step_thrown (w w' : World) i :
  is_Some (crashed w) → step w i = Some w' → is_Some (crashed w').
Proof.
  intros Hc. destruct i as [chunk|error| |ms|timeout| |k].
  - destruct (step_data_any w chunk) as (res & _ & ->). intros [= <-].
    cbn [crashed]. by destruct (res_thrown res).
  - by intros [= <-].
  - by intros [= <-].
  - intros [= <-]. destruct (elapse_same ms w) as (_ & _ & -> & _). done.
  - by intros [= <-].
  - by intros [= <-].
  - intros [= <-]. destruct (settle_same w k) as (_ & _ & -> & _). done.
Qed.

Lemma run_thrown inputs : ∀ w w' : World,
  is_Some (crashed w) → run w inputs = Some w' → is_Some (crashed w').
Proof.
  induction inputs as [|i inputs IH]; intros w w' Hc Hr; cbn [run] in Hr.
  - by inversion Hr; subst.
  - destruct (step w i) as [w1|] eqn:Hs; [|done].
    apply (IH w1 w'); [by eapply step_thrown|done].
Qed.

(** When the bytes of a run make the loop of [onData] throw, a call of
    [onData] in the run has thrown. *)
Lemma run_any_thrown inputs : ∀ (w w' : World) fuel e,
  stopped (nextMessageLength (reader w)) (buffer (reader w)) →
  extract fuel (nextMessageLength (reader w)) (buffer (reader w) ++ received inputs)
  = Some e →
  is_Some (ex_thrown e) →
  (∀ body, at_once (options (reader w)) body = true) →
  run w inputs = Some w' →
  is_Some (crashed w').
Proof.
  induction inputs as [|i inputs IH]; intros w w' fuel e Hstop He Ht Ha Hr.
  - unfold received in He. simpl in He. rewrite app_nil_r in He.
    destruct Hstop as [fuel0 H0]. rewrite (extract_det _ _ _ _ _ _ He H0) in Ht.
    by destruct Ht.
  - rewrite received_cons in He. cbn [run] in Hr.
    destruct (step w i) as [w1|] eqn:Hs; [|done].
    destruct i as [chunk|error| |ms|timeout| |k]; cbn [chunk_of] in He;
      rewrite ?app_nil_l in He.
    + destruct (extract_enough (nextMessageLength (reader w)) (buffer (reader w) ++ chunk))
        as [e1 He1].
      pose proof (extract_app _ _ _ _ (received inputs) He1) as Happ.
      rewrite <- app_assoc in Happ.
      destruct (step_data w chunk e1 He1)
        as (w1' & out & Hs' & _ & _ & _ & _ & _ & N1 & B1 & C1 & _ & _ & _ & P1 & _).
      { apply Forall_forall. intros body _. apply Ha. }
      rewrite Hs in Hs'. inversion Hs'; subst w1'. clear Hs'.
      destruct (ex_thrown e1) as [message|] eqn:Ht1.
      { apply (run_thrown inputs w1 w'); [by rewrite C1|done]. }
      destruct (extract_enough (ex_next e1) (ex_buffer e1 ++ received inputs))
        as [e2 He2].
      destruct (Happ _ _ He2) as [fuel' Happ'].
      pose proof (extract_det _ _ _ _ _ _ He Happ') as ->.
      cbn [ex_thrown] in Ht.
      apply (IH w1 w' (enough (ex_next e1) (ex_buffer e1 ++ received inputs)) e2);
        try done.
      * rewrite N1, B1. by apply (extract_stopped _ _ _ _ He1).
      * rewrite N1, B1. exact He2.
      * by rewrite P1.
    + inversion Hs; subst w1. revert Hr. by apply (IH _ w' fuel e).
    + inversion Hs; subst w1. revert Hr. by apply (IH _ w' fuel e).
    + inversion Hs; subst w1.
      destruct (elapse_same ms w) as (Hsame & _).
      destruct Hsame as (S1 & S2 & S3 & S4 & S5 & S6 & S7 & S8).
      apply (IH (elapse ms w) w' fuel e); try done.
      * by rewrite S5, S7.
      * by rewrite S5, S7.
      * by rewrite S4.
    + inversion Hs; subst w1. revert Hr. by apply (IH _ w' fuel e).
    + inversion Hs; subst w1. revert Hr. by apply (IH _ w' fuel e).
    + inversion Hs; subst w1.
      destruct (settle_same w k) as (R1 & _).
      apply (IH (settle w k) w' fuel e); try done; by rewrite R1.
Qed.

(** X15. Whatever else happens in a run (errors and the end of the stream,
    waits, changes of the timeout, disposal of the reader): when the bytes
    received are well-framed messages and the decoders settle their
    promises as they return, the callback gets the messages whose bodies
    decode, in order. [dispose] does not end the delivery. *)
Theorem delivery_through_errors_and_disposal opts (frames : list Frame)
    (inputs : list Input) :
  Forall well_framed frames →
  Forall (λ f, at_once (fromOptions json opts) (body f) = true) frames →
  received inputs = encode_frames frames →
  ∃ w, run (start json opts) inputs = Some w
    ∧ crashed w = None
    ∧ callbacks (output w) = omap (decoded (fromOptions json opts)) (body <$> frames).
Proof.
  intros Hf Ha Hrecv.
  destruct (start_stopped json opts) as (Hc & Hstop & Ho & _ & Hout & Hpe).
  destruct (extract_frames frames Hf) as [fuel He].
  destruct (run_any inputs (start json opts) fuel
              (mkExtracted (body <$> frames) (-1) [] None))
    as (w & Hr & C & _ & D); try done.
  { by rewrite Hrecv. }
  { cbn [ex_bodies]. rewrite Ho. by apply Forall_fmap. }
  exists w. split; [done|]. split; [congruence|].
  rewrite D, Hout, Ho. done.
Qed.

Lemma errors_and_closes_app (a b : list (Output Message)) :
  errors_and_closes (a ++ b) = errors_and_closes a ++ errors_and_closes b.
Proof. apply List.filter_app. Qed.

Lemma errors_and_closes_partials (ps : list (Output Message)) :
  only_partials ps → errors_and_closes ps = [].
Proof.
  induction 1 as [|o ps Ho _ IH]; [done|].
  destruct o; first [by destruct Ho | exact IH].
Qed.

Lemma errors_and_closes_callbacks (out : list (Output Message)) :
  Forall (λ o, is_Some (callback_of o)) out → errors_and_closes out = [].
Proof.
  induction 1 as [|o out Ho _ IH]; [done|].
  destruct o; first [by destruct Ho | exact IH].
Qed.

(** Once the two emitters are disposed they stay so, and nothing more is
    heard of errors or of the end of the stream. *)
Lemma step_disposed (w w' : World) i :
  disposed (errorEmitter (reader w)) = true →
  disposed (closeEmitter (reader w)) = true →
  step w i = Some w' →
  disposed (errorEmitter (reader w')) = true
  ∧ disposed (closeEmitter (reader w')) = true
  ∧ errors_and_closes (output w') = errors_and_closes (output w).
Proof.
  intros He Hcl Hs.
  destruct i as [chunk|error| |ms|timeout| |k].
  - destruct (step_data_any w chunk) as (res & E & Hs1). unfold onData in E.
    destruct (onData_loop_same _ _ _ _ E) as (E1 & C1 & _).
    cbn [errorEmitter closeEmitter set_buffer] in E1, C1.
    rewrite Hs1 in Hs. apply (inj Some) in Hs. subst w'. cbn [reader output].
    rewrite E1, C1, errors_and_closes_app.
    rewrite (errors_and_closes_callbacks (runJobs _ _).1), app_nil_r; [done|].
    apply runJobs_disposed. by rewrite E1.
  - inversion Hs; subst. cbn [reader output].
    unfold fireError, emitter_fire. rewrite He. by rewrite app_nil_r.
  - inversion Hs; subst. cbn [reader output].
    unfold fireClose, emitter_fire. rewrite Hcl. by rewrite app_nil_r.
  - inversion Hs; subst.
    destruct (elapse_same ms w) as (Hsame & _ & _ & ps & O1 & P1).
    destruct Hsame as (S1 & S2 & _).
    rewrite S1, S2, O1, errors_and_closes_app, (errors_and_closes_partials ps P1).
    by rewrite app_nil_r.
  - by inversion Hs; subst.
  - by inversion Hs; subst.
  - cbn [step] in Hs. apply (inj Some) in Hs. subst w'.
    destruct (settle_same w k) as (-> & _ & _ & out & -> & _ & Hcb).
    rewrite errors_and_closes_app, (errors_and_closes_callbacks out (Hcb He)).
    by rewrite app_nil_r.
Qed.

Lemma run_disposed inputs : ∀ w w' : World,
  disposed (errorEmitter (reader w)) = true →
  disposed (closeEmitter (reader w)) = true →
  run w inputs = Some w' →
  errors_and_closes (output w') = errors_and_closes (output w).
Proof.
  induction inputs as [|i inputs IH]; intros w w' He Hcl Hr; cbn [run] in Hr.
  - by inversion Hr.
  - destruct (step w i) as [w1|] eqn:Hs; [|done].
    destruct (step_disposed w w1 i He Hcl Hs) as (He1 & Hcl1 & <-).
    by apply IH.
Qed.

(** X16. After [dispose] no error event and no close event reaches a
    listener for the rest of the run: errors of the stream, failures of the
    decoders and the end of the stream are dropped. *)
Theorem disposal_silences_errors (w : World) (inputs : list Input) :
  ∃ w', run w (Dispose :: inputs) = Some w'
    ∧ errors_and_closes (output w') = errors_and_closes (output w).
Proof.
  destruct (run_total (Dispose :: inputs) w) as [w' Hr].
  exists w'. split; [done|].
  cbn [run step] in Hr. by apply (run_disposed inputs _ w') in Hr.
Qed.

(** The header block of a frame ends at its empty line, whatever follows. *)
Lemma split_header_any f x :
  well_framed f →
  split_at (CRLF ++ CRLF) (header_block f ++ CRLF ++ CRLF ++ x)
  = Some (header_block f, x).
Proof.
  intros [_ Hwf]. unfold header_block in *.
  set (sep := LF :: CRLF).
  change (CRLF ++ CRLF) with (CR :: sep).
  destruct (content_type f) as [value|].
  - rewrite <- !app_assoc.
    rewrite (split_at_skip CR _ _ _ (content_length_line_free f)).
    rewrite content_type_line_cons.
    change (CR :: sep) with (CRLF ++ CRLF).
    rewrite split_at_block_crlf by done.
    rewrite <- content_type_line_cons.
    change (CRLF ++ CRLF) with (CR :: sep).
    change (CRLF ++ CRLF ++ x) with ((CR :: sep) ++ x).
    by rewrite (split_at_first CR _ _ _ (content_type_line_free _ Hwf)).
  - rewrite app_nil_r.
    change (CRLF ++ CRLF ++ x) with ((CR :: sep) ++ x).
    by rewrite (split_at_first CR _ _ _ (content_length_line_free f)).
Qed.

Lemma readLength_header f x :
  well_framed f →
  readLength (-1) (header_block f ++ CRLF ++ CRLF ++ x)
  = KnownLength (Z.of_nat (length (body f))) x.
Proof.
  intros Hwf.
  pose proof (readLength_frame f [] Hwf) as Hfull.
  unfold readLength, tryReadHeaders in *.
  rewrite bool_decide_eq_true_2 in * by done.
  unfold encode_frame in Hfull. rewrite <- !app_assoc in Hfull.
  rewrite split_header_any in Hfull by done. rewrite split_header_any by done.
  destruct (foldl add_header ∅ (split_lines false (header_block f))
              !! "Content-Length"%string) as [v|]; [|done].
  destruct (bool_decide (v = EmptyString)); [done|].
  destruct (parseInt v); [|done]. by inversion Hfull.
Qed.

(** A frame that is not complete yet: the loop of [onData] takes nothing
    out, and throws nothing. *)
Lemma extract_partial_frame f (n : nat) :
  well_framed f → (n < length (encode_frame f))%nat →
  ∃ next buf, extract 1 (-1) (take n (encode_frame f))
              = Some (mkExtracted [] next buf None).
Proof.
  intros Hwf Hn.
  destruct (decide (n < length (header_block f) + 4)%nat) as [Hh|Hb].
  - exists (-1), (take n (encode_frame f)). cbn [extract].
    unfold readLength, tryReadHeaders. rewrite bool_decide_eq_true_2 by done.
    destruct (split_at (CRLF ++ CRLF) (take n (encode_frame f)))
      as [[before after]|] eqn:Hsplit; [exfalso|done].
    pose proof (split_at_app _ _ _ _ (drop n (encode_frame f)) Hsplit) as Hfull.
    rewrite take_drop in Hfull.
    pose proof (split_header_block f [] Hwf) as Hblock.
    rewrite app_nil_r in Hblock. rewrite Hblock in Hfull.
    inversion Hfull; subst before.
    apply split_at_length in Hsplit. rewrite length_take in Hsplit.
    change (length (CRLF ++ CRLF)) with 4%nat in Hsplit. lia.
  - exists (Z.of_nat (length (body f))),
      (take (n - (length (header_block f) + 4)) (body f)).
    unfold encode_frame in *. rewrite !length_app in Hn.
    change (length CRLF) with 2%nat in Hn.
    rewrite (take_app_ge (header_block f)) by lia.
    replace (n - length (header_block f))%nat
      with (length CRLF + (n - length (header_block f) - 2))%nat
      by (change (length CRLF) with 2%nat; lia).
    rewrite take_app_add.
    replace (n - length (header_block f) - 2)%nat
      with (length CRLF + (n - (length (header_block f) + 4)))%nat
      by (change (length CRLF) with 2%nat; lia).
    rewrite take_app_add.
    cbn [extract]. rewrite readLength_header by done.
    unfold tryReadBody. rewrite bool_decide_eq_true_2; [done|].
    rewrite length_take. lia.
Qed.

(** X17. No message is given to the callback before its last byte has
    arrived: when the bytes received are well-framed messages followed by
    the first [n] bytes of another one, short of its length, and the
    decoders settle their promises as they return, the callback has the
    messages before it only, and [onData] has not thrown. *)
Theorem nothing_before_last_byte opts (frames : list Frame) (f : Frame) (n : nat)
    (inputs : list Input) :
  Forall well_framed frames →
  Forall (λ f, at_once (fromOptions json opts) (body f) = true) frames →
  well_framed f →
  (n < length (encode_frame f))%nat →
  received inputs = encode_frames frames ++ take n (encode_frame f) →
  ∃ w, run (start json opts) inputs = Some w
    ∧ crashed w = None
    ∧ callbacks (output w) = omap (decoded (fromOptions json opts)) (body <$> frames).
Proof.
  intros Hfs Ha Hf Hn Hrecv.
  destruct (start_stopped json opts) as (Hc & Hstop & Ho & _ & Hout & Hpe).
  destruct (extract_partial_frame f n Hf Hn) as (next & buf & Hp).
  destruct (extract_frames_then frames _ _ _ Hfs Hp) as [fuel He].
  cbn [ex_bodies ex_next ex_buffer ex_thrown] in He.
  destruct (run_any inputs (start json opts) fuel
              (mkExtracted ((body <$> frames) ++ []) next buf None))
    as (w & Hr & C & _ & D); try done.
  { by rewrite Hrecv. }
  { cbn [ex_bodies]. rewrite Ho, app_nil_r. by apply Forall_fmap. }
  cbn [ex_bodies] in D. rewrite app_nil_r in D.
  exists w. split; [done|]. split; [congruence|].
  rewrite D, Hout, Ho. done.
Qed.

(** X24. With decoders that settle their promises as they return, and as
    long as [onData] does not throw, what the callback gets depends on the
    bytes received only: not on how they are cut into chunks, and not on
    what else happens in between. A run on the same bytes does not throw
    either, and the callback gets the same messages in the same order.
    This holds for any such bytes, whole messages or not. *)
Theorem delivery_depends_on_bytes_only opts (inputs1 inputs2 : list Input) (w1 : World) :
  (∀ body, at_once (fromOptions json opts) body = true) →
  received inputs1 = received inputs2 →
  run (start json opts) inputs1 = Some w1 →
  crashed w1 = None →
  ∃ w2, run (start json opts) inputs2 = Some w2
    ∧ crashed w2 = None
    ∧ callbacks (output w2) = callbacks (output w1).
Proof.
  intros Ha Hrecv Hrun Hc1.
  destruct (start_stopped json opts) as (Hc & Hstop & Ho & _ & Hout & Hpe).
  destruct (extract_enough (-1) (received inputs1)) as [e He].
  destruct (ex_thrown e) as [message|] eqn:Ht.
  { assert (is_Some (crashed w1)) as [x Hx]; [|congruence].
    apply (run_any_thrown inputs1 (start json opts) w1 _ e Hstop He);
      [by rewrite Ht|by rewrite Ho|done]. }
  assert (Hall : Forall (λ body, at_once (options (reader (start json opts))) body = true)
                   (ex_bodies e)).
  { rewrite Ho. apply Forall_forall. intros body _. apply Ha. }
  destruct (run_any inputs1 (start json opts) _ e Hstop Hpe He Ht Hall)
    as (w1' & R1 & C1 & _ & D1).
  rewrite Hrun in R1. inversion R1; subst w1'.
  rewrite Hrecv in He.
  destruct (run_any inputs2 (start json opts) _ e Hstop Hpe He Ht Hall)
    as (w2 & R2 & C2 & _ & D2).
  exists w2. split; [done|]. split; congruence.
Qed.

End Facts.
End DeliveryProperties.

(** ** The timer in any run *)

Module TimerProperties.
Import Bytes Wire MessageReader Framing Observe Traces.
Import BytesFacts FramingFacts ReaderFacts TimerFacts.

Section Facts.
Context {Message : Type} (json : @ContentTypeDecoder Message).

#[local] Abbreviation Reader := (@ReadableStreamMessageReader Message).
#[local] Abbreviation World := (@World Message).

(** X18. While the reader is between messages, or in a header block that is
    not complete ([nextMessageLength] is -1), no timer is pending: however
    long the stream then stays silent, no event is fired. *)
Theorem no_events_between_messages opts (inputs : list Input) (w : World) (d : nat) :
  run (start json opts) inputs = Some w →
  nextMessageLength (reader w) = -1 →
  ∃ w', step w (Elapse d) = Some w' ∧ output w' = output w.
Proof.
  intros Hrun Hn.
  pose proof (no_timer_between_messages json opts inputs w Hrun Hn) as Ht.
  destruct (elapse_idle d w Ht) as (_ & Ho & _).
  cbn [step]. eauto.
Qed.

(** X19. In every run at most one timer is pending, the reader holds its
    handle, and a timer is pending only while a body is awaited. *)
Theorem at_most_one_timer opts (inputs : list Input) :
  ∃ w, run (start json opts) inputs = Some w
    ∧ (length (timers (host w)) ≤ 1)%nat
    ∧ ∀ t, t ∈ timers (host w) →
           partialMessageTimer (reader w) = Some (timer_handle t)
           ∧ nextMessageLength (reader w) ≠ -1.
Proof.
  destruct (run_total inputs (start json opts)) as [w Hrun].
  exists w. split; [done|].
  pose proof (run_tracked _ _ _ (start_tracked json opts) Hrun) as Ht.
  unfold tracked in Ht. destruct (partialMessageTimer (reader w)) as [handle|].
  - destruct Ht as (t & -> & <- & _ & Hne). split; [simpl; lia|].
    intros t' ->%list_elem_of_singleton. done.
  - rewrite Ht. split; [simpl; lia|]. by intros t ?%elem_of_nil.
Qed.

(** A timer that is not due yet waits. *)
Lemma elapse_wait d : ∀ (w : World) t,
  timers (host w) = [t] →
  clock (host w) + Z.of_nat d < timer_due t →
  elapse d w
  = mkWorld (reader w)
      (mkHost (clock (host w) + Z.of_nat d) [t] (next_handle (host w)))
      (pending w) (output w) (crashed w).
Proof.
  induction d as [|d IH]; intros w t Ht Hdue.
  - cbn [elapse]. destruct w as [r [c ts n] p o cr]. cbn in *. subst ts.
    do 2 f_equal. lia.
  - cbn [elapse]. rewrite (tick_armed w t Ht). cbv zeta.
    rewrite bool_decide_eq_false_2 by lia.
    rewrite (IH _ t); cbn [reader host pending output crashed clock timers next_handle];
      [|done|lia].
    do 2 f_equal. lia.
Qed.

(** A chunk and a wait that is shorter than the timeout: however the chunk
    leaves the reader, no timer runs. *)
Lemma trickle_pair (w : World) T chunk (d : nat) :
  tracked (reader w) (host w) →
  _partialMessageTimeout (reader w) = T →
  T ≤ TIMEOUT_MAX →
  Z.of_nat d < T →
  ∃ w', run w [Data chunk; Elapse d] = Some w'
    ∧ tracked (reader w') (host w')
    ∧ _partialMessageTimeout (reader w') = T
    ∧ partials (output w') = partials (output w).
Proof.
  intros Ht HT Hmax Hd.
  cbn [run].
  destruct (step_total w (Data chunk)) as [w1 Hs1]. rewrite Hs1.
  pose proof (step_tracked _ _ _ Ht Hs1) as Ht1.
  pose proof (step_data_partials _ _ _ Hs1) as Hp.
  destruct (step_data_any w chunk) as (res & E & Hs). unfold onData in E.
  rewrite Hs in Hs1. apply (inj Some) in Hs1. subst w1. clear Hs.
  destruct (onData_loop_fields _ _ _ _ E) as (_ & _ & Hto & Hclock).
  cbn [_partialMessageTimeout set_buffer clock] in Hto, Hclock.
  set (w1 := mkWorld (res_reader res) (res_host res) _ _ _) in *.
  exists (elapse d w1). split; [done|].
  split; [by apply elapse_tracked|].
  destruct (elapse_same d w1) as ((_ & _ & _ & _ & _ & _ & _ & S8) & _).
  split; [rewrite S8; cbn [reader w1]; congruence|].
  rewrite <- Hp. f_equal.
  cbn [reader host w1] in Ht1. unfold tracked in Ht1.
  destruct (partialMessageTimer (res_reader res)) as [handle|] eqn:Hh.
  - destruct Ht1 as (t & Hts & _ & _ & Hne).
    assert (Ht0 : tracked (set_buffer (buffer (reader w) ++ chunk) (reader w)) (host w)).
    { unfold tracked in *. simpl. exact Ht. }
    destruct (onData_loop_waiting _ _ _ _ Ht0 E Hne) as (t' & T1 & _ & _ & _ & T5).
    { cbn [_partialMessageTimeout set_buffer]. lia. }
    rewrite Hts in T1. inversion T1; subst t'.
    cbn [_partialMessageTimeout set_buffer] in T5.
    rewrite timer_delay_id in T5 by lia.
    rewrite (elapse_wait d w1 t); [done|done|].
    cbn [host w1]. lia.
  - by destruct (elapse_idle d w1 Ht1) as (_ & -> & _).
Qed.

Lemma trickle_run chunks : ∀ (w : World) T,
  tracked (reader w) (host w) →
  _partialMessageTimeout (reader w) = T →
  T ≤ TIMEOUT_MAX →
  Forall (λ c : list byte * nat, Z.of_nat c.2 < T) chunks →
  ∃ w', run w (trickle chunks) = Some w'
    ∧ partials (output w') = partials (output w).
Proof.
  induction chunks as [|[chunk d] chunks IH]; intros w T Ht HT Hmax Hall.
  - by exists w.
  - inversion Hall as [|?? Hd Hall']; subst. cbn [snd] in Hd.
    destruct (trickle_pair w (_partialMessageTimeout (reader w)) chunk d Ht eq_refl
                Hmax Hd)
      as (w1 & Hr1 & Ht1 & HT1 & Hp1).
    destruct (IH w1 _ Ht1 HT1 Hmax Hall') as (w' & Hr & Hp).
    exists w'. split; [|congruence].
    change (trickle ((chunk, d) :: chunks))
      with ([Data chunk; Elapse d] ++ trickle chunks).
    cbn [run app] in *.
    destruct (step w (Data chunk)) as [wa|]; [|done].
    destruct (step wa (Elapse d)) as [wb|]; [|done].
    by inversion Hr1; subst.
Qed.

(** X20. Every chunk sets the timer again: when each chunk is followed by
    a wait shorter than the timeout, no partial-message event is fired,
    however long the message takes in all. The timeout is one that
    [setTimeout] takes as it is, at most 2^31 - 1. *)
Theorem no_events_while_bytes_trickle opts (T : Z) (chunks : list (list byte * nat)) :
  T ≤ TIMEOUT_MAX →
  Forall (λ c : list byte * nat, Z.of_nat c.2 < T) chunks →
  ∃ w, run (start json opts) (SetPartialMessageTimeout T :: trickle chunks) = Some w
    ∧ partials (output w) = [].
Proof.
  intros Hmax Hall. cbn [run step start].
  destruct (trickle_run chunks
              (mkWorld (set_partialMessageTimeout T (reader (start json opts)))
                 (host (start json opts)) [] (output (start json opts)) None) T)
    as (w & Hr & Hp); try done.
  exists w. split; [exact Hr|]. by rewrite Hp.
Qed.

Lemma elapse_add a : ∀ (b : nat) (w : World),
  elapse (a + b) w = elapse b (elapse a w).
Proof. induction a as [|a IH]; intros b w; [done|]. cbn [elapse Nat.add]. apply IH. Qed.

(** The number of runs of a timer of period [T] that is set now, in [d]
    milliseconds. *)
Lemma firings_fresh (d : nat) T :
  0 < T → firings d (Z.to_nat T) T = Z.to_nat (Z.of_nat d / T).
Proof.
  intros HT. destruct (decide (Z.to_nat T ≤ d)%nat) as [Hle|Hgt].
  - by apply firings_period.
  - unfold firings. rewrite bool_decide_eq_true_2 by lia.
    rewrite Z.div_small by lia. done.
Qed.

(** A pending timer runs with the timeout it was set with; the timer it
    sets then has the timeout of the reader at that time. *)
Lemma elapse_changed (w : World) t (T1 T2 : Z) (d : nat) :
  timers (host w) = [t] →
  partialMessageTimer (reader w) = Some (timer_handle t) →
  timer_token t = messageToken (reader w) →
  timer_timeout t = T1 →
  _partialMessageTimeout (reader w) = T2 →
  0 < T1 →
  timer_due t = clock (host w) + timer_delay T1 →
  disposed (partialMessageEmitter (reader w)) = false →
  timer_delay T1 ≤ Z.of_nat d →
  output (elapse d w)
  = output w ++ OnPartialMessage (messageToken (reader w)) T1
      :: replicate (if bool_decide (T2 ≤ 0) then 0%nat
                    else Z.to_nat ((Z.of_nat d - timer_delay T1) / timer_delay T2))
           (OnPartialMessage (messageToken (reader w)) T2).
Proof.
  intros Ht Hp Htok Hto HT2 HT1 Hdue Hlive Hd.
  pose proof (timer_delay_pos T1) as Hpos1. pose proof (timer_delay_pos T2) as Hpos2.
  set (D1 := timer_delay T1) in *.
  assert (elapse d w = elapse (d - Z.to_nat D1) (elapse 1 (elapse (Z.to_nat D1 - 1) w)))
    as -> by (rewrite <- !elapse_add; f_equal; lia).
  rewrite (elapse_wait _ w t) by (done || lia).
  set (w0 := mkWorld _ _ _ _ _).
  cbn [elapse]. rewrite (tick_armed w0 t) by done. cbv zeta.
  rewrite bool_decide_eq_true_2 by (cbn [w0 host clock]; lia).
  rewrite fire_timer_armed by done. cbv zeta. cbn [reader host output crashed].
  rewrite setPartialMessageTimer_spec by (by apply tracked_none).
  cbn [w0 reader host output crashed _partialMessageTimeout set_partialMessageTimer
       messageToken clock next_handle].
  rewrite HT2.
  unfold firePartialMessage, emitter_fire.
  cbn [partialMessageEmitter set_partialMessageTimer]. rewrite Hlive, Htok, Hto.
  case_bool_decide as HT2'; cbn [fst snd].
  - match goal with |- output (elapse ?n ?w') = _ =>
      destruct (elapse_idle n w' eq_refl) as (_ & -> & _) end.
    cbn [output replicate]. done.
  - match goal with |- output (elapse ?n ?w') = _ =>
      rewrite (elapse_armed n w'
                 (mkTimer (next_handle (host w))
                    (clock (host w) + Z.of_nat (Z.to_nat D1 - 1) + 1 + timer_delay T2)
                    (messageToken (reader w)) T2)
                 (Z.to_nat (timer_delay T2)) T2)
    end;
      cbn [reader host output timers partialMessageTimer set_partialMessageTimer
           timer_handle timer_token timer_timeout timer_due messageToken
           _partialMessageTimeout clock partialMessageEmitter]; try done; try lia.
    rewrite firings_fresh by lia.
    rewrite <- app_assoc. cbn [app]. do 5 f_equal. lia.
Qed.

(** X22. A timeout set while a timer is pending applies from the next
    setting of the timer on: the pending timer runs after the old timeout
    and reports it as waiting time; the events after it report the new
    timeout, and there is none when the new timeout is not positive. *)
Theorem timeout_change_applies_after_next_event opts pre (w w1 : World) chunk
    (T2 : Z) (d : nat) :
  run (start json opts) pre = Some w →
  step w (Data chunk) = Some w1 →
  nextMessageLength (reader w1) ≠ -1 →
  0 < _partialMessageTimeout (reader w1) →
  _partialMessageTimeout (reader w1) ≤ Z.of_nat d →
  ∃ w2 n, run w1 [SetPartialMessageTimeout T2; Elapse d] = Some w2
    ∧ output w2
      = output w1
        ++ OnPartialMessage (messageToken (reader w1)) (_partialMessageTimeout (reader w1))
        :: replicate n (OnPartialMessage (messageToken (reader w1)) T2)
    ∧ (T2 ≤ 0 → n = 0%nat).
Proof.
  intros Hrun Hstep Hn HT Hd.
  pose proof (run_tracked _ _ _ (start_tracked json opts) Hrun) as Ht.
  destruct (run_keeps _ _ _ Hrun) as [Hlive _].
  destruct (step_keeps _ _ _ Hstep) as [Hlive1 _].
  destruct (step_data_any w chunk) as (res & E & Hs). unfold onData in E.
  rewrite Hs in Hstep. inversion Hstep; subst w1. clear Hstep Hs.
  cbn [reader host output crashed] in *.
  destruct (onData_loop_fields _ _ _ _ E) as (_ & Htok & Hto & Hclock).
  cbn [messageToken _partialMessageTimeout set_buffer] in Htok, Hto.
  assert (Ht0 : tracked (set_buffer (buffer (reader w) ++ chunk) (reader w)) (host w)).
  { unfold tracked in *. simpl. exact Ht. }
  destruct (onData_loop_waiting _ _ _ _ Ht0 E Hn) as (t & T1 & T2' & T3 & T4 & T5).
  { cbn [_partialMessageTimeout set_buffer]. lia. }
  cbn [messageToken _partialMessageTimeout set_buffer] in T3, T4, T5.
  pose proof (timer_delay_le _ HT) as Hle.
  eexists _, (if bool_decide (T2 ≤ 0) then 0%nat else _). cbn [run step].
  split; [reflexivity|]. split; [|intros H0; by rewrite bool_decide_eq_true_2].
  rewrite (elapse_changed _ t (_partialMessageTimeout (res_reader res)) T2 d);
    cbn [reader host output set_partialMessageTimeout partialMessageTimer
         messageToken _partialMessageTimeout partialMessageEmitter];
    try done; try congruence; try lia.
  by rewrite Hlive1, Hlive.
Qed.

(** X23. The setter sets no timer: when none is pending, none is after the
    timeout was changed, and no event is fired until more bytes arrive,
    whatever the new timeout is. *)
Theorem setter_arms_no_timer (w : World) (T : Z) (d : nat) :
  timers (host w) = [] →
  ∃ w', run w [SetPartialMessageTimeout T; Elapse d] = Some w'
    ∧ output w' = output w
    ∧ timers (host w') = [].
Proof.
  intros Ht. eexists. cbn [run step].
  split; [reflexivity|].
  match goal with |- output (elapse ?n ?w') = _ ∧ _ =>
    destruct (elapse_idle n w' Ht) as (-> & -> & _) end.
  done.
Qed.

End Facts.
End TimerProperties.

(** ** The Content-Length value *)

Module HeaderProperties.
Import Bytes Wire MessageReader Framing Observe.
Import BytesFacts FramingFacts ReaderFacts.

Lemma decimal_aux_app fuel : ∀ n acc,
  decimal_aux fuel n acc = decimal_aux fuel n [] ++ acc.
Proof.
  induction fuel as [|fuel IH]; intros n acc; [done|].
  cbn [decimal_aux]. case_bool_decide; [done|].
  rewrite (IH _ (_ :: acc)), (IH _ [_]). by rewrite <- app_assoc.
Qed.

(** [parseInt] stops at the first byte that is no decimal digit. *)
Lemma scan_decimal_prefix n c junk :
  (∀ v, digit_value c = Some v → 10 ≤ v) →
  scan_digits 10 (decimal n ++ c :: junk) None = Some (Z.of_nat n).
Proof.
  intros Hc. unfold decimal. rewrite <- decimal_aux_app.
  destruct (scan_decimal_aux (S n) (Z.of_nat n) (c :: junk)) as [k Hk]; [lia|].
  rewrite Hk. cbn [scan_digits default]. destruct (digit_value c) as [v|] eqn:Hv; [|f_equal; lia].
  rewrite bool_decide_eq_false_2 by (specialize (Hc v eq_refl); lia).
  f_equal; lia.
Qed.

Lemma parseInt_decimal_prefix n c junk :
  (∀ v, digit_value c = Some v → 10 ≤ v) → c ≠ x78 → c ≠ x58 →
  parseInt (string_of_list_byte (decimal n ++ c :: junk))
  = Some (JsNumber.to_double (Z.of_nat n)).
Proof.
  intros Hc Hx HX.
  unfold parseInt. rewrite list_byte_of_string_of_list_byte.
  pose proof (decimal_digits n) as Hd. pose proof (decimal_nonempty n) as Hne.
  pose proof (scan_decimal_prefix n c junk Hc) as Hs.
  destruct (decimal n) as [|b l]; [done|].
  inversion Hd as [|?? Hb Hl]; subst.
  cbn [app trim_start]. rewrite digit_not_space by done.
  rewrite (bool_decide_eq_false_2 (b = x2d))
    by (apply digit_not_byte; [done | by left]).
  rewrite (bool_decide_eq_false_2 (b = x2b))
    by (apply digit_not_byte; [done | by left]).
  assert (Hpre : starts_with [x30; x78] (b :: l ++ c :: junk)
                 || starts_with [x30; x58] (b :: l ++ c :: junk) = false).
  { destruct l as [|c' l]; cbn [starts_with app].
    - rewrite (bool_decide_eq_false_2 (x78 = c)) by done.
      rewrite (bool_decide_eq_false_2 (x58 = c)) by done.
      by rewrite !andb_false_r.
    - inversion Hl as [|?? Hc' _]; subst.
      rewrite (bool_decide_eq_false_2 (x78 = c'))
        by (apply not_eq_sym, digit_not_byte; [done | by left]).
      rewrite (bool_decide_eq_false_2 (x58 = c'))
        by (apply not_eq_sym, digit_not_byte; [done | by left]).
      by rewrite !andb_false_r. }
  rewrite Hpre. cbn [app] in Hs. rewrite Hs. do 2 f_equal. lia.
Qed.

(** X21. The Content-Length value need not be a number as a whole:
    [parseInt] reads the decimal digits it starts with and ignores what
    follows them, so a value made of a decimal number, a byte that is no
    decimal digit (and not [x] or [X]) and anything after it gives the
    length the digits spell, as a double: the number itself when it is a
    safe integer. *)
Theorem content_length_numeric_prefix (buffer : list byte)
    (headers : gmap string string) (rest : list byte) (n : nat) (c : byte)
    (junk : list byte) :
  tryReadHeaders buffer = Some (headers, rest) →
  headers !! "Content-Length"%string
  = Some (string_of_list_byte (decimal n ++ c :: junk)) →
  (∀ v, digit_value c = Some v → 10 ≤ v) → c ≠ x78 → c ≠ x58 →
  readLength (-1) buffer = KnownLength (JsNumber.to_double (Z.of_nat n)) rest
  ∧ (Z.of_nat n ≤ JsNumber.MAX_SAFE_INTEGER →
     JsNumber.to_double (Z.of_nat n) = Z.of_nat n).
Proof.
  intros Hh Hl Hc Hx HX. split.
  - unfold readLength.
    rewrite bool_decide_eq_true_2 by done. rewrite Hh, Hl.
    rewrite parseInt_decimal_prefix by done.
    rewrite bool_decide_eq_false_2; [done|].
    pose proof (decimal_nonempty n). by destruct (decimal n).
  - intros Hn. apply JsNumberFacts.to_double_exact.
    unfold JsNumber.MAX_SAFE_INTEGER in Hn. lia.
Qed.

End HeaderProperties.

(** ** The properties at work *)

Module TokenInstances.
Import SemanticTokens DiffSpec TokenEncoding TokenExamples.
Import SemanticTokensFacts DiffProperties BuilderProperties.

(** X2 at one element added to two. *)
Lemma computeDiff_append_witness :
  [3] ≠ @nil Z
  ∧ computeDiff [1; 2] ([1; 2] ++ [3]) = [mkEdit 2 0 (Some [3])].
Proof.
  assert (H1 : [3] ≠ @nil Z) by discriminate.
  split; [assumption|].
  exact (computeDiff_append [1; 2] [3] H1).
Defined.

(** X3 at two elements removed from three. *)
Lemma computeDiff_truncate_witness :
  [2; 3] ≠ @nil Z
  ∧ computeDiff ([1] ++ [2; 3]) [1] = [mkEdit 1 2 None].
Proof.
  assert (H1 : [2; 3] ≠ @nil Z) by discriminate.
  split; [assumption|].
  exact (computeDiff_truncate [1] [2; 3] H1).
Defined.

(** X4 at the edit from [1; 2; 7; 4] to [1; 2; 8; 9; 4]. *)
Lemma computeDiff_start_witness :
  mkEdit 2 2 (Some [8; 9; 4]) ∈ computeDiff [1; 2; 7; 4] [1; 2; 8; 9; 4]
  ∧ ∃ s : nat, start (mkEdit 2 2 (Some [8; 9; 4])) = Z.of_nat s
      ∧ take s [1; 2; 7; 4] = take s [1; 2; 8; 9; 4]
      ∧ [1; 2; 7; 4] !! s ≠ [1; 2; 8; 9; 4] !! s
      ∧ ∀ d, data (mkEdit 2 2 (Some [8; 9; 4])) = Some d
             → d = take (length d) (drop s [1; 2; 8; 9; 4]).
Proof.
  assert (H1 : mkEdit 2 2 (Some [8; 9; 4]) ∈ computeDiff [1; 2; 7; 4] [1; 2; 8; 9; 4])
    by (vm_compute; constructor).
  split; [assumption|].
  exact (computeDiff_start [1; 2; 7; 4] [1; 2; 8; 9; 4] _ H1).
Defined.

(** X5 at a change of one element to two, between [1] and [5; 6]. *)
Lemma computeDiff_middle_witness :
  [2] ≠ @nil Z ∧ [3; 4] ≠ @nil Z ∧ head [2] ≠ head [3; 4] ∧ last [2] ≠ last [3; 4]
  ∧ computeDiff ([1] ++ [2] ++ [5; 6]) ([1] ++ [3; 4] ++ [5; 6])
    = [mkEdit (Z.of_nat (length [1])) (Z.of_nat (length [2]) + 1)
         (Some ([3; 4] ++ take 1 [5; 6]))].
Proof.
  assert (H1 : [2] ≠ @nil Z) by discriminate.
  assert (H2 : [3; 4] ≠ @nil Z) by discriminate.
  assert (H3 : head [2] ≠ head [3; 4]) by discriminate.
  assert (H4 : last [2] ≠ last [3; 4]) by discriminate.
  repeat (split; [assumption|]).
  exact (computeDiff_middle [1] [2] [3; 4] [5; 6] H1 H2 H3 H4).
Defined.

(** C10 at three tokens on two lines. *)
Lemma build_delta_encoding_witness :
  Forall safe_token tokens_second
  ∧ let data :=
      tokens_data (build (foldl pushToken (initialize 1 empty_builder) tokens_second)).2 in
    length data = (5 * length tokens_second)%nat
    ∧ (∀ i t, tokens_second !! i = Some t →
         take 5 (drop (5 * i) data) = Some <$> protocol_slots (previous tokens_second i) t)
    ∧ delta_decode 0 0 data = Some tokens_second.
Proof.
  assert (H1 : Forall safe_token tokens_second)
    by (repeat (constructor; [by vm_compute|]); constructor).
  split; [assumption|].
  exact (build_delta_encoding 1 empty_builder tokens_second H1).
Defined.

(** X8 at a second request that has one token more than the first. *)
Lemma delta_round_trip_witness :
  (Z.min (Z.of_nat (length (tokens_data first_result.2)))
         (Z.of_nat (length (tokens_data (build second_request).2)))
   ≤ commonPrefix (tokens_data first_result.2) (tokens_data (build second_request).2)
   ∨ commonPrefix (tokens_data first_result.2) (tokens_data (build second_request).2)
     + commonSuffix (tokens_data first_result.2) (tokens_data (build second_request).2)
     ≤ Z.min (Z.of_nat (length (tokens_data first_result.2)))
             (Z.of_nat (length (tokens_data (build second_request).2))) + 1)
  ∧ ∃ edits, (buildEdits second_request).2 = Delta 2 edits
      ∧ applyEdits (tokens_data first_result.2) edits
        = tokens_data (build second_request).2
      ∧ (Forall safe_token tokens_second →
         delta_decode 0 0 (applyEdits (tokens_data first_result.2) edits)
         = Some tokens_second).
Proof.
  assert (H1 :
    Z.min (Z.of_nat (length (tokens_data first_result.2)))
          (Z.of_nat (length (tokens_data (build second_request).2)))
    ≤ commonPrefix (tokens_data first_result.2) (tokens_data (build second_request).2)
    ∨ commonPrefix (tokens_data first_result.2) (tokens_data (build second_request).2)
      + commonSuffix (tokens_data first_result.2) (tokens_data (build second_request).2)
      ≤ Z.min (Z.of_nat (length (tokens_data first_result.2)))
              (Z.of_nat (length (tokens_data (build second_request).2))) + 1)
    by (left; vm_compute; discriminate).
  split; [assumption|].
  exact (delta_round_trip 1 2 empty_builder tokens_first tokens_second H1).
Defined.

(** X9 at a request that names the id 7 when the builder has the id 1. *)
Lemma full_result_for_unknown_id_witness :
  7 ≠ id (foldl pushToken (initialize 1 empty_builder) tokens_first)
  ∧ canBuildEdits
      (foldl pushToken
         (previousResult 2 7
            (build (foldl pushToken (initialize 1 empty_builder) tokens_first)).1)
         tokens_second) = false
  ∧ (buildEdits
       (foldl pushToken
          (previousResult 2 7
             (build (foldl pushToken (initialize 1 empty_builder) tokens_first)).1)
          tokens_second)).2
    = Full (mkTokens 2 (Some <$> delta_encode None tokens_second)).
Proof.
  assert (H1 : 7 ≠ id (foldl pushToken (initialize 1 empty_builder) tokens_first))
    by (vm_compute; discriminate).
  split; [assumption|].
  exact (full_result_for_unknown_id 2 7
           (foldl pushToken (initialize 1 empty_builder) tokens_first) tokens_second H1).
Defined.

(** X10 at a third request that names the id 9 when the builder has the
    id 2. *)
Lemma stale_previous_data_witness :
  9 ≠ 2
  ∧ (buildEdits
       (foldl pushToken (previousResult 3 9 (buildEdits second_request).1) tokens_third)).2
    = Delta 3 (computeDiff (tokens_data first_result.2)
                 (Some <$> delta_encode None tokens_third)).
Proof.
  assert (H1 : 9 ≠ 2) by lia.
  split; [assumption|].
  exact (stale_previous_data 1 2 3 9 empty_builder tokens_first tokens_second
           tokens_third H1).
Defined.

End TokenInstances.

Module ReaderInstances.
Import Bytes Wire MessageReader Framing Observe Traces Examples ReaderExamples.
Import BytesFacts FramingFacts ReaderFacts TimerFacts.
Import DeliveryProperties TimerProperties HeaderProperties.

(** The frames of the examples are well framed. *)
Ltac framed :=
  repeat first [apply Forall_nil_2
               | apply Forall_cons_2; [split; [by vm_compute | done]|]].

(** X15 at three messages in two chunks, with an error of the stream, the
    disposal of the reader and the end of the stream in between. *)
Lemma delivery_through_errors_and_disposal_witness :
  Forall well_framed [frame_a; frame_bad; frame_b]
  ∧ Forall (λ f, at_once (fromOptions json_decoder NoOptions) (body f) = true)
      [frame_a; frame_bad; frame_b]
  ∧ received eventful = encode_frames [frame_a; frame_bad; frame_b]
  ∧ ∃ w, run (start json_decoder NoOptions) eventful = Some w
      ∧ crashed w = None
      ∧ callbacks (output w)
        = omap (decoded (fromOptions json_decoder NoOptions))
            (body <$> [frame_a; frame_bad; frame_b]).
Proof.
  assert (H1 : Forall well_framed [frame_a; frame_bad; frame_b]) by framed.
  assert (H0 : Forall (λ f, at_once (fromOptions json_decoder NoOptions) (body f) = true)
                 [frame_a; frame_bad; frame_b]) by (repeat constructor).
  assert (H2 : received eventful = encode_frames [frame_a; frame_bad; frame_b])
    by (vm_compute; reflexivity).
  repeat (split; [assumption|]).
  exact (delivery_through_errors_and_disposal json_decoder NoOptions _ _ H1 H0 H2).
Defined.

(** X17 at a message and the first 50 bytes of the next. *)
Lemma nothing_before_last_byte_witness :
  Forall well_framed [frame_a]
  ∧ Forall (λ f, at_once (fromOptions json_decoder NoOptions) (body f) = true) [frame_a]
  ∧ well_framed frame_b
  ∧ (50 < length (encode_frame frame_b))%nat
  ∧ received one_and_a_half = encode_frames [frame_a] ++ take 50 (encode_frame frame_b)
  ∧ ∃ w, run (start json_decoder NoOptions) one_and_a_half = Some w
      ∧ crashed w = None
      ∧ callbacks (output w)
        = omap (decoded (fromOptions json_decoder NoOptions)) (body <$> [frame_a]).
Proof.
  assert (H1 : Forall well_framed [frame_a]) by framed.
  assert (H0 : Forall (λ f, at_once (fromOptions json_decoder NoOptions) (body f) = true)
                 [frame_a]) by (repeat constructor).
  assert (H2 : well_framed frame_b) by (split; [by vm_compute | reflexivity]).
  assert (H3 : (50 < length (encode_frame frame_b))%nat) by (vm_compute; lia).
  assert (H4 : received one_and_a_half
               = encode_frames [frame_a] ++ take 50 (encode_frame frame_b))
    by (vm_compute; reflexivity).
  repeat (split; [assumption|]).
  exact (nothing_before_last_byte json_decoder NoOptions _ _ _ _ H1 H0 H2 H3 H4).
Defined.

(** X24 at a message and a half, in three inputs and at once. *)
Lemma delivery_depends_on_bytes_only_witness :
  (∀ body, at_once (fromOptions json_decoder NoOptions) body = true)
  ∧ received one_and_a_half = received one_and_a_half_at_once
  ∧ run (start json_decoder NoOptions) one_and_a_half = Some (world_after one_and_a_half)
  ∧ crashed (world_after one_and_a_half) = None
  ∧ ∃ w2, run (start json_decoder NoOptions) one_and_a_half_at_once = Some w2
      ∧ crashed w2 = None
      ∧ callbacks (output w2) = callbacks (output (world_after one_and_a_half)).
Proof.
  assert (H0 : ∀ body, at_once (fromOptions json_decoder NoOptions) body = true)
    by (intros body; reflexivity).
  assert (H1 : received one_and_a_half = received one_and_a_half_at_once)
    by (vm_compute; reflexivity).
  assert (H2 : run (start json_decoder NoOptions) one_and_a_half
               = Some (world_after one_and_a_half))
    by (vm_compute; reflexivity).
  assert (H3 : crashed (world_after one_and_a_half) = None)
    by (vm_compute; reflexivity).
  repeat (split; [assumption|]).
  exact (delivery_depends_on_bytes_only json_decoder NoOptions _ _ _ H0 H1 H2 H3).
Defined.

(** X18 at a reader that has the first nine bytes of a header block, and a
    ten seconds of silence. *)
Lemma no_events_between_messages_witness :
  run (start json_decoder NoOptions) [Data (take 9 stream_ab)]
  = Some (world_after [Data (take 9 stream_ab)])
  ∧ nextMessageLength (reader (world_after [Data (take 9 stream_ab)])) = -1
  ∧ ∃ w', step (world_after [Data (take 9 stream_ab)]) (Elapse ten_seconds) = Some w'
      ∧ output w' = output (world_after [Data (take 9 stream_ab)]).
Proof.
  assert (H1 : run (start json_decoder NoOptions) [Data (take 9 stream_ab)]
               = Some (world_after [Data (take 9 stream_ab)]))
    by (vm_compute; reflexivity).
  assert (H2 : nextMessageLength (reader (world_after [Data (take 9 stream_ab)])) = -1)
    by (vm_compute; reflexivity).
  repeat (split; [assumption|]).
  exact (no_events_between_messages json_decoder NoOptions _ _ ten_seconds H1 H2).
Defined.

(** X20 at a body of four bytes that takes 36 milliseconds under a timeout
    of 10. *)
Lemma no_events_while_bytes_trickle_witness :
  10 ≤ TIMEOUT_MAX
  ∧ Forall (λ c : list byte * nat, Z.of_nat c.2 < 10) slow_body
  ∧ ∃ w, run (start json_decoder NoOptions)
           (SetPartialMessageTimeout 10 :: trickle slow_body) = Some w
      ∧ partials (output w) = [].
Proof.
  assert (H0 : 10 ≤ TIMEOUT_MAX) by (vm_compute; discriminate).
  assert (H1 : Forall (λ c : list byte * nat, Z.of_nat c.2 < 10) slow_body)
    by (repeat constructor).
  repeat (split; [assumption|]).
  exact (no_events_while_bytes_trickle json_decoder NoOptions 10 slow_body H0 H1).
Defined.

(** X21 at the value [2;q=1]. *)
Lemma content_length_numeric_prefix_witness :
  tryReadHeaders length_with_parameter
  = Some ({["Content-Length"%string := "2;q=1"%string]}, bytes "{}")
  ∧ ({["Content-Length"%string := "2;q=1"%string]} : gmap string string)
      !! "Content-Length"%string
    = Some (string_of_list_byte (decimal 2 ++ x3b :: bytes "q=1"))
  ∧ (∀ v, digit_value x3b = Some v → 10 ≤ v)
  ∧ x3b ≠ x78
  ∧ x3b ≠ x58
  ∧ readLength (-1) length_with_parameter
    = KnownLength (JsNumber.to_double (Z.of_nat 2)) (bytes "{}")
  ∧ (Z.of_nat 2 ≤ JsNumber.MAX_SAFE_INTEGER → JsNumber.to_double (Z.of_nat 2) = Z.of_nat 2).
Proof.
  assert (H1 : tryReadHeaders length_with_parameter
               = Some ({["Content-Length"%string := "2;q=1"%string]}, bytes "{}"))
    by (vm_compute; reflexivity).
  assert (H2 : ({["Content-Length"%string := "2;q=1"%string]} : gmap string string)
                 !! "Content-Length"%string
               = Some (string_of_list_byte (decimal 2 ++ x3b :: bytes "q=1")))
    by (vm_compute; reflexivity).
  assert (H3 : ∀ v, digit_value x3b = Some v → 10 ≤ v) by discriminate.
  assert (H4 : x3b ≠ x78) by discriminate.
  assert (H5 : x3b ≠ x58) by discriminate.
  repeat (split; [assumption|]).
  exact (content_length_numeric_prefix length_with_parameter _ _ 2 x3b (bytes "q=1")
           H1 H2 H3 H4 H5).
Defined.

(** X22 at a timeout of 10 that is changed to 4 while the first half of a
    body is awaited, and 25 milliseconds. *)
Lemma timeout_change_applies_after_next_event_witness :
  run (start json_decoder NoOptions) [SetPartialMessageTimeout 10]
  = Some (world_after [SetPartialMessageTimeout 10])
  ∧ step (world_after [SetPartialMessageTimeout 10]) (Data first_half)
    = Some (world_after [SetPartialMessageTimeout 10; Data first_half])
  ∧ ∃ w2 n, run (world_after [SetPartialMessageTimeout 10; Data first_half])
              [SetPartialMessageTimeout 4; Elapse 25] = Some w2
      ∧ output w2
        = output (world_after [SetPartialMessageTimeout 10; Data first_half])
          ++ OnPartialMessage 0 10 :: replicate n (OnPartialMessage 0 4)
      ∧ (4 ≤ 0 → n = 0%nat).
Proof.
  assert (H1 : run (start json_decoder NoOptions) [SetPartialMessageTimeout 10]
               = Some (world_after [SetPartialMessageTimeout 10]))
    by (vm_compute; reflexivity).
  assert (H2 : step (world_after [SetPartialMessageTimeout 10]) (Data first_half)
               = Some (world_after [SetPartialMessageTimeout 10; Data first_half]))
    by (vm_compute; reflexivity).
  assert (H4 : nextMessageLength
                 (reader (world_after [SetPartialMessageTimeout 10; Data first_half]))
               ≠ -1) by (vm_compute; discriminate).
  assert (H5 : 0 < _partialMessageTimeout
                     (reader (world_after [SetPartialMessageTimeout 10; Data first_half])))
    by (vm_compute; reflexivity).
  assert (H6 : _partialMessageTimeout
                 (reader (world_after [SetPartialMessageTimeout 10; Data first_half]))
               ≤ Z.of_nat 25) by (vm_compute; discriminate).
  repeat (split; [assumption|]).
  exact (timeout_change_applies_after_next_event json_decoder NoOptions _ _ _ _ 4 25
           H1 H2 H4 H5 H6).
Defined.

(** X23 at a reader that awaits a body with the timeout disabled: setting
    the timeout to 10 then brings no event in 100 milliseconds. *)
Lemma setter_arms_no_timer_witness :
  timers (host (world_after [SetPartialMessageTimeout 0; Data first_half])) = []
  ∧ ∃ w', run (world_after [SetPartialMessageTimeout 0; Data first_half])
            [SetPartialMessageTimeout 10; Elapse 100] = Some w'
      ∧ output w' = output (world_after [SetPartialMessageTimeout 0; Data first_half])
      ∧ timers (host w') = [].
Proof.
  assert (H1 : timers (host (world_after [SetPartialMessageTimeout 0; Data first_half]))
               = []) by (vm_compute; reflexivity).
  split; [assumption|].
  exact (setter_arms_no_timer (world_after [SetPartialMessageTimeout 0; Data first_half])
           10 100 H1).
Defined.

End ReaderInstances.
